(** * Transform-dialect extensions of loopy: a shallow embedding

    The C++ under [cpp_ext/CommonExtensions/CommonExtensions.cpp] manipulates
    the payload IR of the host compiler through pointers to operations.  The
    development embeds the part of that IR the extension reads and writes as
    a store of operations indexed by identity, and the extension's functions
    as functions over that store.

    Definitions:
    - [IR]             values, operations, blocks, traversal, uses and the
                       mutations of the host builder and rewriter;
    - [Transform]      diagnostics of transform ops and walks with callbacks;
    - [SetVector]      the insertion-ordered set used by the fusion gate;
    - [FusionGate]     [addOperands] and [setFusedOpOperandLimit];
    - [ApplyPatterns]  [transform::ApplyPatternsOp::applyToOne];
    - [HoistAlloc]     [hoistOneStaticallyBoundAllocation],
                       [hoistStaticallyBoundAllocationsInFunc] and
                       [transform::HoistStaticAllocOp::applyToOne];
    - [ShareForall]    [transform::ShareForallOperandsOp::applyToOne];
    - [BufferOptimizations]  [allUsesAreStores], [eraseDeadAllocAndStores]
                       and [transform::ApplyBufferOptimizationsOp::applyToOne];
    - [Bufferize]      the allocation and copy callbacks,
                       [createLinalgCopyOp], [getBufferizationOptions],
                       [transform::TransformBufferizeOp::apply],
                       [eliminateEmptyTensors] and
                       [transform::TransformEliminateEmptyTensorsOp::apply];
    - [Nelli]          [getBoundsFromRelation] of [NelliExtension.cpp];
    - [Examples], [MoreExamples]  sample payloads and stand-ins for the host
                       engine.

    Properties follow, module by module, and are instantiated at the sample
    payloads in [Instances] and [MoreInstances].

    A pointer to an operation is the operation's identity; dereferencing an
    identity that is not in the store has no defined behaviour in C++ and is
    [None] here.  What the host library supplies (the greedy rewrite driver,
    loop-invariant code motion, the upper-bound analysis) is a parameter of
    the function that calls it. *)

From Stdlib Require Import ZArith Lia.
From stdpp Require Import base option list gmap sets strings sorting.

Local Open Scope Z_scope.
Local Open Scope nat_scope.

(* ===================================================================== *)
(** ** The payload IR *)
(* ===================================================================== *)

Module IR.

(** An SSA value is a result of an operation or an argument of a block. *)
Inductive Value :=
| OpResult (owner : positive) (resultNumber : nat)
| BlockArgument (owner : positive) (argNumber : nat).

#[global] Instance Value_eq_dec : EqDecision Value.
Proof. solve_decision. Defined.

#[global] Instance Value_countable : Countable Value.
Proof.
  refine (inj_countable'
    (λ v, match v with
          | OpResult o i => inl (o, i)
          | BlockArgument b i => inr (b, i)
          end)
    (λ s, match s with
          | inl (o, i) => OpResult o i
          | inr (b, i) => BlockArgument b i
          end) _).
  by intros [].
Defined.

(** [OpFoldResult]: a constant index attribute or an SSA value. *)
Inductive OpFoldResult :=
| IndexAttr (z : Z)
| OfrValue (v : Value).

#[global] Instance OpFoldResult_eq_dec : EqDecision OpFoldResult.
Proof. solve_decision. Defined.

(** The sentinel the host stores in a shape for a dynamic dimension. *)
Definition kDynamic : Z := (-9223372036854775808)%Z.

Definition isDynamic (dimSize : Z) : bool := bool_decide (dimSize = kDynamic).

Record MemRefType := mkMemRefType {
  getShape : list Z;
  getElementType : string;
  getLayout : option string;
  getMemorySpace : option string
}.

#[global] Instance MemRefType_eq_dec : EqDecision MemRefType.
Proof. solve_decision. Defined.

Definition getRank (t : MemRefType) : nat := length (getShape t).

(** [MemRefType::get(shape, elementType)]: default layout and memory space. *)
Definition MemRefType_get (shape : list Z) (elementType : string) : MemRefType :=
  mkMemRefType shape elementType None None.

(** The two instances of the template parameter [AllocLikeOpType]. *)
Inductive AllocLikeOpType := AllocOp | AllocaOp.

#[global] Instance AllocLikeOpType_eq_dec : EqDecision AllocLikeOpType.
Proof. solve_decision. Defined.

(** Traits and interfaces an otherwise uninterpreted operation registers. *)
Record Traits := mkTraits {
  traitIsTerminator : bool;
  traitIsIsolatedFromAbove : bool;
  traitLoopLike : bool
}.

#[global] Instance Traits_eq_dec : EqDecision Traits.
Proof. solve_decision. Defined.

(** The operations the extension distinguishes by [isa]/[dyn_cast], each
    with the operands and attributes its accessors return; every other
    operation is [Generic].  An operation that holds regions lists, for each
    region, the region's blocks ([body]). *)
Inductive OpKind :=
| AllocLike (k : AllocLikeOpType) (type : MemRefType)
            (dynamicSizes : list Value) (alignment : option Z)
| Dealloc (memref : Value)
| SubView (source : Value) (offsets sizes strides : list OpFoldResult)
| Store (value memref : Value) (indices : list Value)
| Linalg (dpsInputs dpsInits : list Value) (nres : nat)
         (body : list (list positive))
| ExtractSlice (source : Value) (offsets sizes strides : list OpFoldResult)
| ParallelInsertSlice (source dest : Value)
                      (offsets sizes strides : list OpFoldResult)
| ScfForall (rank : nat) (bounds outputs : list Value)
         (body : list (list positive))
| InParallel (body : list (list positive))
| Func (body : list (list positive))
| ScfFor (args : list Value) (nres : nat) (body : list (list positive))
| AffineFor (args : list Value) (nres : nat) (body : list (list positive))
| Generic (name : string) (traits : Traits) (args : list Value) (nres : nat)
          (body : list (list positive)).

#[global] Instance OpKind_eq_dec : EqDecision OpKind.
Proof. solve_decision. Defined.

Definition ofrValues (l : list OpFoldResult) : list Value :=
  omap (λ x, match x with OfrValue v => Some v | IndexAttr _ => None end) l.

(** The operand list of an operation, in operand order. *)
Definition operands (k : OpKind) : list Value :=
  match k with
  | AllocLike _ _ dynamicSizes _ => dynamicSizes
  | Dealloc memref => [memref]
  | SubView source offsets sizes strides =>
      source :: ofrValues offsets ++ ofrValues sizes ++ ofrValues strides
  | Store value memref indices => value :: memref :: indices
  | Linalg dpsInputs dpsInits _ _ => dpsInputs ++ dpsInits
  | ExtractSlice source offsets sizes strides =>
      source :: ofrValues offsets ++ ofrValues sizes ++ ofrValues strides
  | ParallelInsertSlice source dest offsets sizes strides =>
      source :: dest ::
        ofrValues offsets ++ ofrValues sizes ++ ofrValues strides
  | ScfForall _ bounds outputs _ => bounds ++ outputs
  | InParallel _ => []
  | Func _ => []
  | ScfFor args _ _ => args
  | AffineFor args _ _ => args
  | Generic _ _ args _ _ => args
  end.

Definition getNumResults (k : OpKind) : nat :=
  match k with
  | AllocLike _ _ _ _ => 1
  | Dealloc _ => 0
  | SubView _ _ _ _ => 1
  | Store _ _ _ => 0
  | Linalg _ _ nres _ => nres
  | ExtractSlice _ _ _ _ => 1
  | ParallelInsertSlice _ _ _ _ _ => 0
  | ScfForall _ _ outputs _ => length outputs
  | InParallel _ => 0
  | Func _ => 0
  | ScfFor _ nres _ => nres
  | AffineFor _ nres _ => nres
  | Generic _ _ _ nres _ => nres
  end.

Definition mapOfr (f : Value → Value) (x : OpFoldResult) : OpFoldResult :=
  match x with
  | IndexAttr z => IndexAttr z
  | OfrValue v => OfrValue (f v)
  end.

(** Rewrite every operand of an operation through [f]. *)
Definition mapOperands (f : Value → Value) (k : OpKind) : OpKind :=
  match k with
  | AllocLike a t dynamicSizes al => AllocLike a t (f <$> dynamicSizes) al
  | Dealloc memref => Dealloc (f memref)
  | SubView source offsets sizes strides =>
      SubView (f source) (mapOfr f <$> offsets) (mapOfr f <$> sizes)
              (mapOfr f <$> strides)
  | Store value memref indices => Store (f value) (f memref) (f <$> indices)
  | Linalg dpsInputs dpsInits n b =>
      Linalg (f <$> dpsInputs) (f <$> dpsInits) n b
  | ExtractSlice source offsets sizes strides =>
      ExtractSlice (f source) (mapOfr f <$> offsets) (mapOfr f <$> sizes)
                   (mapOfr f <$> strides)
  | ParallelInsertSlice source dest offsets sizes strides =>
      ParallelInsertSlice (f source) (f dest) (mapOfr f <$> offsets)
                          (mapOfr f <$> sizes) (mapOfr f <$> strides)
  | ScfForall r bounds outputs b => ScfForall r (f <$> bounds) (f <$> outputs) b
  | InParallel b => InParallel b
  | Func b => Func b
  | ScfFor args n b => ScfFor (f <$> args) n b
  | AffineFor args n b => AffineFor (f <$> args) n b
  | Generic s t args n b => Generic s t (f <$> args) n b
  end.

Definition getRegions (k : OpKind) : list (list positive) :=
  match k with
  | Linalg _ _ _ body | ScfForall _ _ _ body | InParallel body | Func body
  | ScfFor _ _ body | AffineFor _ _ body | Generic _ _ _ _ body => body
  | _ => []
  end.

(** An operation: what it is and the block that holds it. *)
Record Operation := mkOperation {
  kind : OpKind;
  getBlock : option positive
}.

#[global] Instance Operation_eq_dec : EqDecision Operation.
Proof. solve_decision. Defined.

(** The payload: the live operations and the operation order of each block. *)
Record IR := mkIR {
  ops : gmap positive Operation;
  blocks : gmap positive (list positive)
}.

Definition hasTraitIsIsolatedFromAbove (k : OpKind) : bool :=
  match k with
  | Func _ => true
  | Generic _ t _ _ _ => traitIsIsolatedFromAbove t
  | _ => false
  end.

Definition hasTraitIsTerminator (k : OpKind) : bool :=
  match k with
  | InParallel _ => true
  | Generic _ t _ _ _ => traitIsTerminator t
  | _ => false
  end.

Definition isLoopLike (k : OpKind) : bool :=
  match k with
  | ScfFor _ _ _ | AffineFor _ _ _ => true
  | Generic _ t _ _ _ => traitLoopLike t
  | _ => false
  end.

Definition isFuncOp (k : OpKind) : bool :=
  match k with Func _ => true | _ => false end.

Definition isDeallocOp (k : OpKind) : bool :=
  match k with Dealloc _ => true | _ => false end.

Definition blockOps (ir : IR) (b : positive) : list positive :=
  default [] (blocks ir !! b).

(** [Operation::walk], post-order: the operations nested under [o], each
    after the operations of its own regions, then [o] itself.  The recursion
    descends one nesting level per unit of [fuel]. *)
Fixpoint walkFrom (fuel : nat) (ir : IR) (o : positive) : list positive :=
  match fuel with
  | O => []
  | S fuel' =>
      match ops ir !! o with
      | None => []
      | Some op =>
          (r ← getRegions (kind op); b ← r; o' ← blockOps ir b;
           walkFrom fuel' ir o') ++ [o]
      end
  end.

(** Nesting is never deeper than the number of live operations. *)
Definition walk (ir : IR) (o : positive) : list positive :=
  walkFrom (S (size (ops ir))) ir o.

(** The operations under [o] are nested less than [n] levels deep. *)
Fixpoint nestedWithin (n : nat) (ir : IR) (o : positive) : Prop :=
  match n with
  | O => False
  | S n' =>
      match ops ir !! o with
      | None => True
      | Some op =>
          ∀ r b o', r ∈ getRegions (kind op) → b ∈ r → o' ∈ blockOps ir b →
                    nestedWithin n' ir o'
      end
  end.

(** An operand slot: the operation that owns it and its position. *)
Record OpOperand := mkOpOperand {
  getOwner : positive;
  getOperandNumber : nat
}.

#[global] Instance OpOperand_eq_dec : EqDecision OpOperand.
Proof. solve_decision. Defined.

(** [OpOperand::get]: the value the slot holds. *)
Definition get (ir : IR) (u : OpOperand) : option Value :=
  op ← ops ir !! getOwner u; operands (kind op) !! getOperandNumber u.

Definition getDefiningOp (v : Value) : option positive :=
  match v with
  | OpResult o _ => Some o
  | BlockArgument _ _ => None
  end.

(** The operand slots of one operation whose value satisfies [P]. *)
Definition slotsOf (P : Value → bool) (o : positive) (op : Operation)
  : list OpOperand :=
  omap (λ '(i, w), if P w then Some (mkOpOperand o i) else None)
       (imap pair (operands (kind op))).

(** [Value::getUses] as the store shows them: every operand slot of a live
    operation holding [v], each once.  The enumeration follows the store.
    The host chains the uses of a value in an order of its own, which the
    store does not record: these lists stand for the use lists of the host
    up to their order.  The hoister and the sharing of forall operands
    count a use list, test all of it, collect or search what it holds; the
    payload they leave does not show the order.  [allUsesAreStores], which
    copies the order into the vector it fills, takes the use lists of the
    host as a parameter. *)
Definition getUses (ir : IR) (v : Value) : list OpOperand :=
  '(o, op) ← map_to_list (ops ir); slotsOf (λ w, bool_decide (w = v)) o op.

(** [Operation::getUses]: the uses of every result of [o], enumerated in
    the same manner. *)
Definition getOpUses (ir : IR) (o : positive) : list OpOperand :=
  '(o', op) ← map_to_list (ops ir);
  slotsOf (λ w, bool_decide (getDefiningOp w = Some o)) o' op.

Definition getUsers (ir : IR) (v : Value) : list positive :=
  getOwner <$> getUses ir v.

Definition getOpUsers (ir : IR) (o : positive) : list positive :=
  getOwner <$> getOpUses ir o.

(** [funcOp.getBody().front()] and, generally, the first block of the first
    region of [o]. *)
Definition frontBlock (ir : IR) (o : positive) : option positive :=
  op ← ops ir !! o;
  match getRegions (kind op) with
  | (b :: _) :: _ => Some b
  | _ => None
  end.

(** [Block::getTerminator]: the last operation of the block, which must be
    a terminator. *)
Definition getTerminator (ir : IR) (b : positive) : option positive :=
  t ← last (blockOps ir b);
  op ← ops ir !! t;
  if hasTraitIsTerminator (kind op) then Some t else None.

(** *** Mutation *)

(** Insert [new] immediately before [anchor], or at the end of the list
    when [anchor] is [None] (or absent). *)
Fixpoint insertBefore (anchor : option positive) (new : positive)
    (l : list positive) : list positive :=
  match l with
  | [] => [new]
  | x :: l' =>
      if decide (anchor = Some x) then new :: x :: l'
      else x :: insertBefore anchor new l'
  end.

(** [Value::replaceAllUsesWith] for the results of [o]: result [i] becomes
    [newValues[i]]. *)
Definition replaceResults (o : positive) (newValues : list Value)
    (v : Value) : Value :=
  match v with
  | OpResult o' i => if decide (o' = o) then default v (newValues !! i) else v
  | BlockArgument _ _ => v
  end.

Definition replaceAllUsesWith (o : positive) (newValues : list Value)
    (ir : IR) : IR :=
  mkIR ((λ op, mkOperation (mapOperands (replaceResults o newValues) (kind op))
                           (getBlock op)) <$> ops ir)
       (blocks ir).

(** Unlink and drop the operations [dead]. *)
Definition eraseAll (dead : list positive) (ir : IR) : IR :=
  mkIR (filter (λ entry, entry.1 ∉ dead) (ops ir))
       (filter (λ o', o' ∉ dead) <$> blocks ir).

(** [Operation::erase]: the operation and everything nested in it leave the
    store and the block lists. *)
Definition erase (o : positive) (ir : IR) : IR := eraseAll (walk ir o) ir.

(** An insertion point: a block and the operation before which new
    operations go ([None]: the end of the block). *)
Record InsertPoint := mkInsertPoint {
  ipBlock : positive;
  ipBefore : option positive
}.

(** Add the operation [o] of kind [k] to the store, linked at [ip] when
    there is an insertion point. *)
Definition insertOp (o : positive) (k : OpKind) (ip : option InsertPoint)
    (ir : IR) : IR :=
  match ip with
  | Some ip =>
      mkIR (<[o := mkOperation k (Some (ipBlock ip))]> (ops ir))
           (<[ipBlock ip :=
                insertBefore (ipBefore ip) o (blockOps ir (ipBlock ip))]>
              (blocks ir))
  | None => mkIR (<[o := mkOperation k None]> (ops ir)) (blocks ir)
  end.

End IR.

(* ===================================================================== *)
(** ** Results of transform operations and IR traversal with callbacks *)
(* ===================================================================== *)

Module Transform.
Import IR.

Inductive LogicalResult := success | failure.

Definition failed (r : LogicalResult) : bool :=
  match r with failure => true | success => false end.

(** [DiagnosedSilenceableFailure]: success, a silenceable failure, or a
    definite failure, the last two with the operation the diagnostic is
    attached to and its message. *)
Inductive DiagnosedSilenceableFailure :=
| Success
| SilenceableFailure (op : positive) (message : string)
| DefiniteFailure (op : positive) (message : string).

Definition emitDefiniteFailure (op : positive) (message : string)
  : DiagnosedSilenceableFailure := DefiniteFailure op message.

(** What [applyToOne] hands back: the diagnostic, the contents of the
    [results] list, and the payload. *)
Definition Applied : Type :=
  DiagnosedSilenceableFailure * list positive * IR.

Inductive WalkResult := advance | interrupt.

Definition wasInterrupted (r : WalkResult) : bool :=
  match r with interrupt => true | advance => false end.

Section walks.
Context {S : Type} (payload : S → IR).

(** [root->walk([&](OpTy op) { ... })] with a callback that updates the
    state of the caller (payload and captured locals): the operations under
    [root] are enumerated in post-order on entry and the callback runs on
    each one that is then live and of the requested type [OpTy]. *)
Definition walkWith (OpTy : OpKind → bool) (callback : positive → S → S)
    (root : positive) (s : S) : S :=
  foldl (λ s o,
           match ops (payload s) !! o with
           | Some op => if OpTy (kind op) then callback o s else s
           | None => s
           end)
        s (walk (payload s) root).

(** The same traversal with a callback returning a [WalkResult]: the walk
    stops at the first [interrupt] and reports it. *)
Fixpoint walkUntil (OpTy : OpKind → bool)
    (callback : positive → S → WalkResult * S)
    (visit : list positive) (s : S) : WalkResult * S :=
  match visit with
  | [] => (advance, s)
  | o :: visit' =>
      match ops (payload s) !! o with
      | Some op =>
          if OpTy (kind op) then
            let '(r, s') := callback o s in
            if wasInterrupted r then (interrupt, s')
            else walkUntil OpTy callback visit' s'
          else walkUntil OpTy callback visit' s
      | None => walkUntil OpTy callback visit' s
      end
  end.

Definition walkInterruptible (OpTy : OpKind → bool)
    (callback : positive → S → WalkResult * S)
    (root : positive) (s : S) : WalkResult * S :=
  walkUntil OpTy callback (walk (payload s) root) s.

End walks.

End Transform.
(* ===================================================================== *)
(** ** [llvm::SetVector]: a vector without repeated elements *)
(* ===================================================================== *)

Module SetVector.
Section ops.
Context {A : Type} `{EqDecision A}.

(** [insert(x)]: append unless already present. *)
Definition insert (x : A) (s : list A) : list A :=
  if decide (x ∈ s) then s else s ++ [x].

(** [insert(first, last)]: insert each element of the range in turn. *)
Definition insert_range (xs : list A) (s : list A) : list A :=
  foldl (λ acc x, insert x acc) s xs.

(** [remove(x)]: drop the element when present. *)
Definition remove (x : A) (s : list A) : list A :=
  filter (λ y, y ≠ x) s.

Definition size (s : list A) : nat := length s.

End ops.
End SetVector.

(* ===================================================================== *)
(** ** The fusion legality gate *)
(* ===================================================================== *)

Module FusionGate.
Import IR.

(** The conversion of the [int] template argument to [size_t] that the
    comparison with [size()] performs. *)
Definition to_size_t (z : Z) : Z := (z mod 2 ^ 64)%Z.

(** [addOperands(op, operandSet)], [op] possibly null. *)
Definition addOperands (ir : IR) (op : option positive)
    (operandSet : list Value) : option (list Value) :=
  match op with
  | None => Some operandSet
  | Some o =>
      operation ← ops ir !! o;
      Some (match kind operation with
            | Linalg dpsInputs _ _ _ =>
                SetVector.insert_range dpsInputs operandSet
            | k => SetVector.insert_range (operands k) operandSet
            end)
  end.

(** [setFusedOpOperandLimit<limit>(fusedOperand)]. *)
Definition setFusedOpOperandLimit (limit : Z) (ir : IR)
    (fusedOperand : OpOperand) : option bool :=
  v ← get ir fusedOperand;
  match getDefiningOp v with
  | None => Some false
  | Some producer =>
      let consumer := getOwner fusedOperand in
      let fusedOpOperands : list Value := [] in
      p ← ops ir !! producer;
      if bool_decide (getNumResults (kind p) ≠ 1) then Some false
      else
        fusedOpOperands ← addOperands ir (Some consumer) fusedOpOperands;
        let fusedOpOperands :=
          SetVector.remove (OpResult producer 0) fusedOpOperands in
        fusedOpOperands ← addOperands ir (Some producer) fusedOpOperands;
        Some (bool_decide
                (Z.of_nat (SetVector.size fusedOpOperands) ≤ to_size_t limit)%Z)
  end.

(** The operands the specification counts for one operation: the input
    operands of a structured op, all operands of any other op. *)
Definition inputOperands (k : OpKind) : list Value :=
  match k with
  | Linalg dpsInputs _ _ _ => dpsInputs
  | _ => operands k
  end.

Definition inputOperandSet (k : OpKind) : gset Value :=
  list_to_set (inputOperands k).

(** Consumer operands without the producer's result, united with the
    producer's operands. *)
Definition fusedOperandSet (consumer : OpKind) (producerResult : Value)
    (producer : OpKind) : gset Value :=
  (inputOperandSet consumer ∖ {[producerResult]}) ∪ inputOperandSet producer.

(** The vector the gate measures, for a live consumer and producer. *)
Definition fusedOpOperands (consumer producerOp : OpKind)
    (producer : positive) : list Value :=
  SetVector.insert_range (inputOperands producerOp)
    (SetVector.remove (OpResult producer 0)
       (SetVector.insert_range (inputOperands consumer) [])).

End FusionGate.


(* ===================================================================== *)
(** ** [transform::ApplyPatternsOp] *)
(* ===================================================================== *)

Module ApplyPatterns.
Import IR Transform.

(** The unit attributes of the op, as its generated getters read them. *)
Record ApplyPatternsOp := mkApplyPatternsOp {
  getAdditionalPatterns : bool;
  getBubbleCollapse : bool;
  getBubbleExpand : bool;
  getBubblePackUnPack : bool;
  getCanonicalization : bool;
  getCse : bool;
  getEraseUnnecessaryTensorOperands : bool;
  getExpandMemrefStridedMetadata : bool;
  getFoldMemrefAliases : bool;
  getFoldReassociativeReshapes : bool;
  getFoldTensorEmptyExtract : bool;
  getLicm : bool;
  getLinalgElementwiseGreedyFusion : bool;
  getLowerTransferOpPermutations : bool;
  getLowerVectorMasks : bool;
  getRankReducingLinalg : bool;
  getRankReducingLinalgViaReshapes : bool;
  getRankReducingVector : bool;
  getSwapPaddingElideConditional : bool;
  getSwappingPatterns : bool;
  getTilingCanonicalization : bool;
  getUnrollVectorsGpuMmaSync : bool;
  getUnrollVectorsGpuWmma : bool
}.

(** The op with its [cse] attribute set or cleared. *)
Definition withCse (b : bool) (op : ApplyPatternsOp) : ApplyPatternsOp :=
  mkApplyPatternsOp
    (getAdditionalPatterns op) (getBubbleCollapse op) (getBubbleExpand op)
    (getBubblePackUnPack op) (getCanonicalization op) b
    (getEraseUnnecessaryTensorOperands op)
    (getExpandMemrefStridedMetadata op) (getFoldMemrefAliases op)
    (getFoldReassociativeReshapes op) (getFoldTensorEmptyExtract op)
    (getLicm op) (getLinalgElementwiseGreedyFusion op)
    (getLowerTransferOpPermutations op) (getLowerVectorMasks op)
    (getRankReducingLinalg op) (getRankReducingLinalgViaReshapes op)
    (getRankReducingVector op) (getSwapPaddingElideConditional op)
    (getSwappingPatterns op) (getTilingCanonicalization op)
    (getUnrollVectorsGpuMmaSync op) (getUnrollVectorsGpuWmma op).

(** The control function handed to a host pattern group. *)
Inductive ControlFn :=
| AlwaysTrue
| FusedOpOperandLimit (limit : Z).

(** The members of the [RewritePatternSet]: the two patterns defined by the
    extension and the groups the host's [populate...] functions add.  The
    control of the pad swap pattern is what a call of its control function
    returns; [None]: the call has no defined behaviour. *)
Inductive Pattern :=
| GenerateToConstant
| FoldTensorEmptyExtract
| FoldReshapeOpsByCollapsing (control : ControlFn)
| FoldReshapeOpsByExpansion (control : ControlFn)
| DataLayoutPropagation
| AllRegisteredCanonicalization
| EraseUnnecessaryInputs
| ExpandStridedMetadata
| FoldMemRefAliasOp
| ReassociativeReshapeFolding
| ElementwiseOpsFusion (control : ControlFn)
| VectorTransferPermutationMapLowering
| VectorMaskLoweringForSideEffectingOps
| CastAwayVectorLeadingOneDim
| ExtractSliceOfPadTensorSwap (control : option bool)
| LinalgTilingCanonicalization
| SCFForLoopCanonicalization.

Definition addadditionalPatterns (patterns : list Pattern) : list Pattern :=
  patterns ++ [GenerateToConstant].

Definition addEraseUnnecessaryTensorOperandsPatterns
    (patterns : list Pattern) : list Pattern :=
  patterns ++ [EraseUnnecessaryInputs].

Definition addFoldMemrefAliasPatterns (patterns : list Pattern)
  : list Pattern := patterns ++ [FoldMemRefAliasOp].

Definition addReassociativeReshapePatterns (patterns : list Pattern)
  : list Pattern := patterns ++ [ReassociativeReshapeFolding].

Definition addFoldTensorEmptyExtract (patterns : list Pattern)
  : list Pattern := patterns ++ [FoldTensorEmptyExtract].

Definition addLowerTransferOpPermutationsPatterns (patterns : list Pattern)
  : list Pattern := patterns ++ [VectorTransferPermutationMapLowering].

Definition addLowerVectorMasksPatterns (patterns : list Pattern)
  : list Pattern := patterns ++ [VectorMaskLoweringForSideEffectingOps].

Definition addRankReducingVectorPatterns (patterns : list Pattern)
  : list Pattern := patterns ++ [CastAwayVectorLeadingOneDim].

(** The control function is the closure
    [[&](tensor::ExtractSliceOp) { return !swapPaddingElideCornerCase; }],
    which holds the parameter by reference.  The pattern keeps the closure,
    the parameter ends with this call: when the driver calls the control
    function it reads through a dangling reference, and no value of the
    parameter reaches the pattern. *)
Definition addSwappingPatterns (patterns : list Pattern)
    (swapPaddingElideCornerCase : bool) : list Pattern :=
  patterns ++ [ExtractSliceOfPadTensorSwap None].

Definition addTilingCanonicalizationPatterns (patterns : list Pattern)
  : list Pattern :=
  patterns ++ [LinalgTilingCanonicalization; SCFForLoopCanonicalization].

Definition addAllRegisteredCanonicalizationPatterns
    (patterns : list Pattern) : list Pattern :=
  patterns ++ [AllRegisteredCanonicalization].

Definition addIf (flag : bool) (add : list Pattern → list Pattern)
    (patterns : list Pattern) : list Pattern :=
  if flag then add patterns else patterns.

(** The pattern set [applyToOne] assembles, one [if] per attribute, in the
    order of the source. *)
Definition populatePatterns (self : ApplyPatternsOp) : list Pattern :=
  let patterns := [] in
  let patterns := addIf (getAdditionalPatterns self)
                    addadditionalPatterns patterns in
  let patterns := addIf (getBubbleCollapse self)
                    (λ p, p ++ [FoldReshapeOpsByCollapsing AlwaysTrue])
                    patterns in
  let patterns := addIf (getBubbleExpand self)
                    (λ p, p ++ [FoldReshapeOpsByExpansion AlwaysTrue])
                    patterns in
  let patterns := addIf (getBubblePackUnPack self)
                    (λ p, p ++ [DataLayoutPropagation]) patterns in
  let patterns := addIf (getCanonicalization self)
                    addAllRegisteredCanonicalizationPatterns patterns in
  let patterns := addIf (getEraseUnnecessaryTensorOperands self)
                    addEraseUnnecessaryTensorOperandsPatterns patterns in
  let patterns := addIf (getExpandMemrefStridedMetadata self)
                    (λ p, p ++ [ExpandStridedMetadata]) patterns in
  let patterns := addIf (getFoldMemrefAliases self)
                    addFoldMemrefAliasPatterns patterns in
  let patterns := addIf (getFoldReassociativeReshapes self)
                    addReassociativeReshapePatterns patterns in
  let patterns := addIf (getFoldTensorEmptyExtract self)
                    addFoldTensorEmptyExtract patterns in
  let patterns := addIf (getLinalgElementwiseGreedyFusion self)
                    (λ p, p ++ [ElementwiseOpsFusion (FusedOpOperandLimit 3)])
                    patterns in
  let patterns := addIf (getLowerTransferOpPermutations self)
                    addLowerTransferOpPermutationsPatterns patterns in
  let patterns := addIf (getLowerVectorMasks self)
                    addLowerVectorMasksPatterns patterns in
  let patterns := addIf (getRankReducingVector self)
                    addRankReducingVectorPatterns patterns in
  let patterns := addIf (getSwappingPatterns self)
                    (λ p, addSwappingPatterns p
                            (getSwapPaddingElideConditional self))
                    patterns in
  let patterns := addIf (getTilingCanonicalization self)
                    addTilingCanonicalizationPatterns patterns in
  patterns.

Definition isAffineForOrScfFor (k : OpKind) : bool :=
  match k with
  | AffineFor _ _ _ | ScfFor _ _ _ => true
  | _ => false
  end.

Section applyToOne.

(** The host's rewrite engine and loop utilities. *)
Variable applyOpPatternsAndFold :
  list positive → list Pattern → IR → LogicalResult * IR.
Variable moveLoopInvariantCode : positive → IR → IR.
Variable promoteIfSingleIteration : positive → IR → LogicalResult * IR.

(** The operations the driver is given: everything nested in the target,
    the target excluded. *)
Definition nestedOps (ir : IR) (target : positive) : list positive :=
  filter (λ nestedOp, target ≠ nestedOp) (walk ir target).

(** The body of [if (getLicm())] for one function. *)
Definition licmFunc (funcOp : positive) (ir : IR) : IR :=
  let ir := walkWith id isLoopLike moveLoopInvariantCode funcOp ir in
  walkWith id isAffineForOrScfFor
    (λ loop ir, snd (promoteIfSingleIteration loop ir)) funcOp ir.

Definition licmPhase (target : positive) (ir : IR) : IR :=
  walkWith id isFuncOp licmFunc target ir.

(** The body of [if (getCse())]: the walk records the function visited and
    always advances; [result] is the outcome of the greedy driver.  The
    outer [option] is the dereference of [lastFuncVisited]. *)
Definition csePhase (target : positive) (result : LogicalResult) (ir : IR)
  : option (option DiagnosedSilenceableFailure * IR) :=
  let lastFuncVisited : option positive := None in
  let '(walkResult, (ir, lastFuncVisited)) :=
    walkInterruptible fst isFuncOp
      (λ funcOp '(ir, _), (advance, (ir, Some funcOp)))
      target (ir, lastFuncVisited) in
  if wasInterrupted walkResult then
    if failed result then
      f ← lastFuncVisited;
      Some (Some (emitDefiniteFailure f "greedy patterns failed"), ir)
    else Some (None, ir)
  else Some (None, ir).

(** [transform::ApplyPatternsOp::applyToOne]. *)
Definition applyToOne (self : ApplyPatternsOp) (target : positive) (ir : IR)
  : option Applied :=
  targetOp ← ops ir !! target;
  if negb (hasTraitIsIsolatedFromAbove (kind targetOp)) then
    Some (emitDefiniteFailure target
            "applies only to isolated-from-above targets because it needs to apply patterns greedily",
          [], ir)
  else
    let patterns := populatePatterns self in
    let ops := nestedOps ir target in
    let '(result, ir) := applyOpPatternsAndFold ops patterns ir in
    if failed result then
      Some (emitDefiniteFailure target "greedy patterns failed", [], ir)
    else
      let ir := if getLicm self then licmPhase target ir else ir in
      if getCse self then
        '(early, ir) ← csePhase target result ir;
        match early with
        | Some diag => Some (diag, [], ir)
        | None => Some (Success, [target], ir)
        end
      else Some (Success, [target], ir).

End applyToOne.

(** *** Vocabulary for the statements: a payload at fixpoint

    What the engines of the host look for in a payload, and what they do
    when they find none of it; none of this is code of the extension. *)
Section fixpoint.

(** The greedy driver has work on the operation: a pattern of the set
    matches it, or it folds, or it is trivially dead. *)
Variable hasRewrite : list Pattern → IR → positive → bool.

(** The loop holds an operation that loop-invariant code motion moves. *)
Variable hasInvariantCode : IR → positive → bool.

(** The loop runs its body exactly once: promotion replaces it by its
    body. *)
Variable hasSingleIteration : IR → positive → bool.

(** The payload is at a fixpoint of the configured pipeline: the driver has
    no work on the operations under the target and, when [licm] is set, no
    loop under a [func.func] under the target holds invariant code, and no
    [affine.for] or [scf.for] among them runs exactly once. *)
Definition AtFixpoint (self : ApplyPatternsOp) (target : positive) (ir : IR)
  : Prop :=
  (∀ nestedOp, nestedOp ∈ nestedOps ir target →
     hasRewrite (populatePatterns self) ir nestedOp = false) ∧
  (getLicm self = true →
   ∀ funcOp func loop loopOp,
     funcOp ∈ walk ir target → ops ir !! funcOp = Some func →
     isFuncOp (kind func) = true →
     loop ∈ walk ir funcOp → ops ir !! loop = Some loopOp →
     (isLoopLike (kind loopOp) = true → hasInvariantCode ir loop = false) ∧
     (isAffineForOrScfFor (kind loopOp) = true →
      hasSingleIteration ir loop = false)).

(** The greedy driver on a worklist it has no work on reports convergence
    and leaves the payload as it is. *)
Definition ConvergesWithoutWork
    (applyOpPatternsAndFold :
       list positive → list Pattern → IR → LogicalResult * IR) : Prop :=
  ∀ worklist patterns ir,
    (∀ o, o ∈ worklist → hasRewrite patterns ir o = false) →
    applyOpPatternsAndFold worklist patterns ir = (success, ir).

(** Loop-invariant code motion on a loop without invariant code moves
    nothing. *)
Definition MovesInvariantCodeOnly
    (moveLoopInvariantCode : positive → IR → IR) : Prop :=
  ∀ loop ir, hasInvariantCode ir loop = false →
             moveLoopInvariantCode loop ir = ir.

(** Promotion fails, without a change, on a loop that does not run exactly
    once. *)
Definition PromotesSingleIterationOnly
    (promoteIfSingleIteration : positive → IR → LogicalResult * IR) : Prop :=
  ∀ loop ir, hasSingleIteration ir loop = false →
             promoteIfSingleIteration loop ir = (failure, ir).

End fixpoint.

End ApplyPatterns.

(* ===================================================================== *)
(** ** [transform::HoistStaticAllocOp] *)
(* ===================================================================== *)

Module HoistAlloc.
Import IR Transform.

(** *** The builder

    An [OpBuilder]/[IRRewriter] is the payload together with an insertion
    point, which a builder may lack. *)
Record Builder := mkBuilder {
  payload : IR;
  insertionPoint : option InsertPoint
}.

(** Computations that use a builder; [None] is a step without defined
    behaviour (a dangling or null dereference, a read past the end). *)
Definition M (A : Type) : Type := Builder → option (A * Builder).

#[global] Instance M_ret : MRet M := λ A a s, Some (a, s).

#[global] Instance M_bind : MBind M := λ A B f m s,
  match m s with
  | Some (a, s') => f a s'
  | None => None
  end.

Definition liftOption {A : Type} (o : option A) : M A :=
  λ s, match o with Some a => Some (a, s) | None => None end.

Definition getPayload : M IR := λ s, Some (payload s, s).

Definition modifyPayload (f : IR → IR) : M unit :=
  λ s, Some (tt, mkBuilder (f (payload s)) (insertionPoint s)).

Definition deref (o : positive) : M Operation :=
  ir ← getPayload; liftOption (ops ir !! o).

(** [OpBuilder::InsertionGuard g(builder)] around [m]: the insertion point
    is restored when the scope ends. *)
Definition withInsertionGuard {A : Type} (m : M A) : M A :=
  λ s, match m s with
       | Some (a, s') => Some (a, mkBuilder (payload s') (insertionPoint s))
       | None => None
       end.

Definition setInsertionPointAt (ip : InsertPoint) : M unit :=
  λ s, Some (tt, mkBuilder (payload s) (Some ip)).

Definition setInsertionPointToStart (b : positive) : M unit :=
  ir ← getPayload;
  setInsertionPointAt (mkInsertPoint b (head (blockOps ir b))).

Definition setInsertionPoint (o : positive) : M unit :=
  op ← deref o;
  b ← liftOption (getBlock op);
  setInsertionPointAt (mkInsertPoint b (Some o)).

(** [builder.create<Op>(...)]: a new operation, linked at the insertion
    point when there is one. *)
Definition create (k : OpKind) : M positive :=
  λ s,
    let o := fresh (dom (ops (payload s))) in
    Some (o, mkBuilder (insertOp o k (insertionPoint s) (payload s))
                       (insertionPoint s)).

(** [rewriter.eraseOp(op)]. *)
Definition eraseOp (o : positive) : M unit :=
  _ ← deref o; modifyPayload (erase o).

(** [rewriter.replaceOp(op, newValues)]. *)
Definition replaceOp (o : positive) (newValues : list Value) : M unit :=
  _ ← deref o;
  modifyPayload (replaceAllUsesWith o newValues);;
  modifyPayload (erase o).

Fixpoint forEach {A : Type} (body : A → M unit) (l : list A) : M unit :=
  match l with
  | [] => mret tt
  | x :: l' => body x;; forEach body l'
  end.

(** *** The hoisting functions *)

Section hoist.

(** [linalg::getConstantUpperBoundForIndex], an analysis of the host. *)
Variable getConstantUpperBoundForIndex : IR → Value → option Z.

(** The template parameter. *)
Variable AllocLikeOpTy : AllocLikeOpType.

(** The loop over [allocLikeType.getShape()]: the outer [None] is a read of
    [dynamicSizes] past its end, the inner one is [return std::nullopt]. *)
Fixpoint boundShape (ir : IR) (shape : list Z) (dynamicSizes : list Value)
    (index : nat) (staticShape : list Z) (subviewSizes : list OpFoldResult)
  : option (option (list Z * list OpFoldResult)) :=
  match shape with
  | [] => Some (Some (staticShape, subviewSizes))
  | dimSize :: shape' =>
      if negb (isDynamic dimSize) then
        boundShape ir shape' dynamicSizes index
          (staticShape ++ [dimSize]) (subviewSizes ++ [IndexAttr dimSize])
      else
        dynamicSize ← dynamicSizes !! index;
        match getConstantUpperBoundForIndex ir dynamicSize with
        | None => Some None
        | Some ub =>
            boundShape ir shape' dynamicSizes (S index)
              (staticShape ++ [ub]) (subviewSizes ++ [OfrValue dynamicSize])
        end
  end.

(** [setInsertionPoint(funcOp.getBody().front().getTerminator());
     create<memref::DeallocOp>(loc, allocation)] when the template parameter
    is [memref::AllocOp]. *)
Definition createDeallocIfAllocOp (funcOp : positive) (allocation : Value)
  : M unit :=
  if decide (AllocLikeOpTy = AllocOp) then
    ir ← getPayload;
    entry ← liftOption (frontBlock ir funcOp);
    terminator ← liftOption (getTerminator ir entry);
    setInsertionPoint terminator;;
    _ ← create (Dealloc allocation);
    mret tt
  else mret tt.

(** [hoistOneStaticallyBoundAllocation(funcOp, builder, loc, allocLikeType,
    dynamicSizes, alignment)]. *)
Definition hoistOneStaticallyBoundAllocationAt (funcOp : positive)
    (allocLikeType : MemRefType) (dynamicSizes : list Value)
    (alignment : option Z) : M (option Value) :=
  let alignmentAttr := alignment in
  if decide (dynamicSizes = []) then
    withInsertionGuard
      (ir ← getPayload;
       entry ← liftOption (frontBlock ir funcOp);
       setInsertionPointToStart entry;;
       allocation ← create (AllocLike AllocLikeOpTy allocLikeType []
                                      alignmentAttr);
       createDeallocIfAllocOp funcOp (OpResult allocation 0);;
       mret (Some (OpResult allocation 0)))
  else
    ir ← getPayload;
    bounds ← liftOption
      (boundShape ir (getShape allocLikeType) dynamicSizes 0 [] []);
    match bounds with
    | None => mret None
    | Some (staticShape, subviewSizes) =>
        let offsets := replicate (getRank allocLikeType) (IndexAttr 0) in
        let strides := replicate (getRank allocLikeType) (IndexAttr 1) in
        allocation ← withInsertionGuard
          (ir ← getPayload;
           entry ← liftOption (frontBlock ir funcOp);
           setInsertionPointToStart entry;;
           let allocationType :=
             MemRefType_get staticShape (getElementType allocLikeType) in
           create (AllocLike AllocLikeOpTy allocationType [] alignmentAttr));
        subviewOp ← create (SubView (OpResult allocation 0) offsets
                                    subviewSizes strides);
        createDeallocIfAllocOp funcOp (OpResult allocation 0);;
        mret (Some (OpResult subviewOp 0))
    end.

(** [isUseReplaceableWithSubview(use)]. *)
Definition isUseReplaceableWithSubview (ir : IR) (use : OpOperand) : bool :=
  match ops ir !! getOwner use with
  | Some user =>
      match kind user with
      | Linalg _ _ _ _ | Dealloc _ | Store _ _ _ | SubView _ _ _ _ => true
      | _ => false
      end
  | None => false
  end.

(** [hoistOneStaticallyBoundAllocation(funcOp, builder, allocLikeOp)]. *)
Definition hoistOneStaticallyBoundAllocation (funcOp allocLikeOp : positive)
  : M (option Value) :=
  withInsertionGuard
    (setInsertionPoint allocLikeOp;;
     op ← deref allocLikeOp;
     match kind op with
     | AllocLike k type dynamicSizes alignment =>
         if decide (k = AllocLikeOpTy) then
           hoistOneStaticallyBoundAllocationAt funcOp type dynamicSizes
             alignment
         else liftOption None
     | _ => liftOption None
     end).

(** The callback of the collecting walk, as a test: does the walk keep
    [o]? *)
Definition isHoistable (ir : IR) (funcOp o : positive) : option bool :=
  op ← ops ir !! o;
  match kind op with
  | AllocLike k _ dynamicSizes _ =>
      if decide (k = AllocLikeOpTy) then
        entry ← frontBlock ir funcOp;
        if decide (getBlock op = Some entry) then Some false
        else if decide (dynamicSizes = []) then Some true
        else Some (forallb (isUseReplaceableWithSubview ir) (getOpUses ir o))
      else Some false
  | _ => Some false
  end.

Fixpoint collectHoistable (ir : IR) (funcOp : positive)
    (visit : list positive) : option (list positive) :=
  match visit with
  | [] => Some []
  | o :: visit' =>
      keep ← isHoistable ir funcOp o;
      allocLikeOps ← collectHoistable ir funcOp visit';
      Some (if keep : bool then o :: allocLikeOps else allocLikeOps)
  end.

(** The [memref::DeallocOp]s among the users of [allocLikeOp]. *)
Definition isDealloc (ir : IR) (user : positive) : bool :=
  match ops ir !! user with
  | Some op => isDeallocOp (kind op)
  | None => false
  end.

Definition deallocUsers (ir : IR) (allocLikeOp : positive) : list positive :=
  filter (λ user, isDealloc ir user = true) (getOpUsers ir allocLikeOp).

(** The body of the hoisting loop for one collected operation. *)
Definition hoistAndReplace (funcOp allocLikeOp : positive) : M unit :=
  _ ← deref allocLikeOp;
  ir ← getPayload;
  let deallocOps := deallocUsers ir allocLikeOp in
  replacement ← hoistOneStaticallyBoundAllocation funcOp allocLikeOp;
  match replacement with
  | None => mret tt
  | Some replacementVal =>
      replaceOp allocLikeOp [replacementVal];;
      forEach eraseOp deallocOps
  end.

(** [hoistStaticallyBoundAllocationsInFunc<AllocLikeOpType>(rewriter,
    funcOp)]. *)
Definition hoistStaticallyBoundAllocationsInFunc (funcOp : positive)
  : M unit :=
  ir ← getPayload;
  allocLikeOps ← liftOption (collectHoistable ir funcOp (walk ir funcOp));
  forEach (hoistAndReplace funcOp) allocLikeOps.

End hoist.

(** [transform::HoistStaticAllocOp::applyToOne]: the rewriter starts without
    an insertion point and the template is instantiated at
    [memref::AllocOp]. *)
Definition applyToOne (getConstantUpperBoundForIndex : IR → Value → option Z)
    (funcOp : positive) (ir : IR) : option Applied :=
  _ ← ops ir !! funcOp;
  '(_, rewriter) ←
    hoistStaticallyBoundAllocationsInFunc getConstantUpperBoundForIndex
      AllocOp funcOp (mkBuilder ir None);
  Some (Success, [funcOp], payload rewriter).

(** *** Vocabulary for the statements

    What follows describes payloads and shapes; none of it is code of the
    extension. *)

(** The position in [dynamicSizes] of the size of dimension [i] of a shape:
    the number of dynamic dimensions before it. *)
Definition dynamicIndex (shape : list Z) (i : nat) : nat :=
  length (filter (λ d, isDynamic d = true) (take i shape)).

Definition numDynamicDims (shape : list Z) : nat :=
  length (filter (λ d, isDynamic d = true) shape).

(** The entry block of the function [funcOp] is the block [entry], which
    ends in the live terminator [t], an operation of block [bt]. *)
Definition EntryEndsIn (ir : IR) (funcOp entry t bt : positive) : Prop :=
  frontBlock ir funcOp = Some entry ∧
  getTerminator ir entry = Some t ∧
  ∃ top, ops ir !! t = Some top ∧ getBlock top = Some bt.

(** What the loop leaves in [staticShape] and [subviewSizes] for the
    dimensions of [shape], the first dynamic one reading
    [dynamicSizes[index]]: a static dimension is kept and recorded as the
    size; a dynamic one becomes its bound and records its size operand. *)
Definition Bounded (getConstantUpperBoundForIndex : IR → Value → option Z)
    (ir : IR) (dynamicSizes : list Value) (shape : list Z) (index : nat)
    (staticShape : list Z) (subviewSizes : list OpFoldResult) : Prop :=
  length staticShape = length shape ∧
  length subviewSizes = length shape ∧
  ∀ i d, shape !! i = Some d →
    if isDynamic d then
      ∃ v ub, dynamicSizes !! (index + dynamicIndex shape i) = Some v ∧
              getConstantUpperBoundForIndex ir v = Some ub ∧
              staticShape !! i = Some ub ∧
              subviewSizes !! i = Some (OfrValue v)
    else staticShape !! i = Some d ∧ subviewSizes !! i = Some (IndexAttr d).

(** Some dynamic dimension of the allocation has a size operand for which
    the host derives no constant upper bound. *)
Definition Unbounded (getConstantUpperBoundForIndex : IR → Value → option Z)
    (ir : IR) (type : MemRefType) (dynamicSizes : list Value) : Prop :=
  ∃ i d v, getShape type !! i = Some d ∧ isDynamic d = true ∧
           dynamicSizes !! dynamicIndex (getShape type) i = Some v ∧
           getConstantUpperBoundForIndex ir v = None.

(** Every live allocation of kind [K] sits in a block and has a size operand
    for each dynamic dimension of its type, as the verifier of the host
    demands. *)
Definition VerifiedAllocs (K : AllocLikeOpType) (ir : IR) : Prop :=
  ∀ a type dynamicSizes alignment b,
    ops ir !! a
    = Some (mkOperation (AllocLike K type dynamicSizes alignment) b) →
    is_Some b ∧ numDynamicDims (getShape type) ≤ length dynamicSizes.

(** What the collecting walk keeps: a live allocation of kind [K], in a
    block other than [entry], with a size operand for each dynamic
    dimension. *)
Definition Hoistable (K : AllocLikeOpType) (ir : IR) (entry a : positive)
  : Prop :=
  ∃ type dynamicSizes alignment pb,
    ops ir !! a
    = Some (mkOperation (AllocLike K type dynamicSizes alignment) (Some pb)) ∧
    pb ≠ entry ∧
    numDynamicDims (getShape type) ≤ length dynamicSizes.

(** The block [entry] ends in [t], which occurs in it once. *)
Definition EndsOnce (ir : IR) (entry t : positive) : Prop :=
  ∃ body, blockOps ir entry = body ++ [t] ∧ t ∉ body.

(** The allocation [a] of payload [ir] is, in payload [ir'], an allocation of
    the same kind, type, alignment and block, with as many size operands. *)
Definition SameAlloc (K : AllocLikeOpType) (ir ir' : IR) (a : positive)
  : Prop :=
  ∀ type dynamicSizes alignment pb,
    ops ir !! a
    = Some (mkOperation (AllocLike K type dynamicSizes alignment) (Some pb)) →
    ∃ dynamicSizes',
      ops ir' !! a
      = Some (mkOperation (AllocLike K type dynamicSizes' alignment)
                          (Some pb)) ∧
      length dynamicSizes' = length dynamicSizes.

(** [o] is a live deallocation of a result of [a]. *)
Definition isDeallocOf (ir : IR) (a o : positive) : bool :=
  match ops ir !! o with
  | Some op =>
      match kind op with
      | Dealloc (OpResult a' _) => bool_decide (a' = a)
      | _ => false
      end
  | None => false
  end.

(** [o] is neither the operation [a] nor a deallocation of [a]. *)
Definition Survives (ir : IR) (a o : positive) : Prop :=
  o ≠ a ∧ isDeallocOf ir a o = false.

#[global] Instance Survives_dec ir a o : Decision (Survives ir a o).
Proof. unfold Survives. apply _. Defined.

(** The value [v] in the place of the result of [a]. *)
Definition replaceUse (a : positive) (v : Value) (w : Value) : Value :=
  if decide (w = OpResult a 0) then v else w.

(** *** The payload after a hoist *)

(** The payload after [create<memref::DeallocOp>(loc, allocation)] before
    the operation [t] of block [b], when the template parameter [K] is
    [memref::AllocOp]. *)
Definition withDealloc (K : AllocLikeOpType) (b t : positive)
    (allocation : Value) (ir : IR) : IR :=
  if decide (K = AllocOp)
  then insertOp (fresh (dom (ops ir))) (Dealloc allocation)
                (Some (mkInsertPoint b (Some t))) ir
  else ir.

(** The payload after [create<AllocLikeOpType>(loc, type, alignment)] at
    the start of the block [entry]. *)
Definition allocAtEntry (K : AllocLikeOpType) (entry : positive)
    (type : MemRefType) (alignment : option Z) (ir : IR) : IR :=
  insertOp (fresh (dom (ops ir))) (AllocLike K type [] alignment)
           (Some (mkInsertPoint entry (head (blockOps ir entry)))) ir.

(** The payload after [create<memref::SubViewOp>(...)] before the operation
    [a] of block [b]. *)
Definition subViewBefore (b a : positive) (source : Value)
    (offsets sizes strides : list OpFoldResult) (ir : IR) : IR :=
  insertOp (fresh (dom (ops ir))) (SubView source offsets sizes strides)
           (Some (mkInsertPoint b (Some a))) ir.

Section hoisted.
Variable AllocLikeOpTy : AllocLikeOpType.

(** The payload after the creations of the static case. *)
Definition staticHoist (entry t bt : positive) (type : MemRefType)
    (alignment : option Z) (ir : IR) : IR :=
  withDealloc AllocLikeOpTy bt t (OpResult (fresh (dom (ops ir))) 0)
    (allocAtEntry AllocLikeOpTy entry type alignment ir).

(** The payload after the creations of the bounded dynamic case, for the
    allocation [a] of block [pb]. *)
Definition boundedHoist (entry t bt pb a : positive) (type : MemRefType)
    (alignment : option Z) (staticShape : list Z)
    (subviewSizes : list OpFoldResult) (ir : IR) : IR :=
  let allocation := OpResult (fresh (dom (ops ir))) 0 in
  withDealloc AllocLikeOpTy bt t allocation
    (subViewBefore pb a allocation
       (replicate (getRank type) (IndexAttr 0)) subviewSizes
       (replicate (getRank type) (IndexAttr 1))
       (allocAtEntry AllocLikeOpTy entry
          (MemRefType_get staticShape (getElementType type)) alignment ir)).

(** The identity of the sub-view the bounded case creates. *)
Definition subViewId (entry : positive) (type : MemRefType)
    (alignment : option Z) (staticShape : list Z) (ir : IR) : positive :=
  fresh (dom (ops (allocAtEntry AllocLikeOpTy entry
                     (MemRefType_get staticShape (getElementType type))
                     alignment ir))).

(** The payload once the uses of [a] are replaced by [v] and the operations
    [dead] are erased. *)
Definition replaced (a : positive) (v : Value) (dead : list positive)
    (ir : IR) : IR :=
  eraseAll dead (replaceAllUsesWith a [v] ir).

End hoisted.

End HoistAlloc.

(* ===================================================================== *)
(** ** [transform::ShareForallOperandsOp] *)
(* ===================================================================== *)

Module ShareForall.
Import IR Transform.

(** [forallOp.getOutputs()] of a live [scf.forall]. *)
Definition getOutputs (ir : IR) (forallOp : positive)
  : option (list Value) :=
  op ← ops ir !! forallOp;
  match kind op with
  | ScfForall _ _ outputs _ => Some outputs
  | _ => None
  end.

(** [forallOp.getOutputBlockArguments()[outputIdx]]: the arguments of the
    body that follow the [rank] induction variables. *)
Definition getOutputBlockArgument (ir : IR) (forallOp : positive)
    (outputIdx : nat) : option Value :=
  op ← ops ir !! forallOp;
  match kind op with
  | ScfForall rank _ outputs _ =>
      body ← frontBlock ir forallOp;
      if decide (outputIdx < length outputs)
      then Some (BlockArgument body (rank + outputIdx))
      else None
  | _ => None
  end.

(** [forallOp.getTerminator().getYieldingOps()]: the operations of the
    block inside the [scf.forall.in_parallel] terminator. *)
Definition getYieldingOps (ir : IR) (forallOp : positive)
  : option (list positive) :=
  body ← frontBlock ir forallOp;
  terminator ← getTerminator ir body;
  inner ← frontBlock ir terminator;
  Some (blockOps ir inner).

Definition isExtractSlice (ir : IR) (o : positive) : bool :=
  match ops ir !! o with
  | Some op => match kind op with ExtractSlice _ _ _ _ => true | _ => false end
  | None => false
  end.

(** The lambda [isMatchingParallelInsertSlice]. *)
Definition isMatchingParallelInsertSlice (ir : IR) (bbArg : Value)
    (extractSliceOp : positive) (o : positive) : bool :=
  match ops ir !! o, ops ir !! extractSliceOp with
  | Some insertSlice, Some extractSlice =>
      match kind insertSlice, kind extractSlice with
      | ParallelInsertSlice _ dest offsets sizes strides,
        ExtractSlice _ offsets' sizes' strides' =>
          bool_decide (dest = bbArg) &&
          bool_decide (offsets = offsets') &&
          bool_decide (sizes = sizes') &&
          bool_decide (strides = strides')
      | _, _ => false
      end
  | _, _ => false
  end.

(** [extractSliceOp.getSourceMutable().assign(bbArg)]. *)
Definition assignSource (extractSliceOp : positive) (bbArg : Value)
    (ir : IR) : IR :=
  mkIR (alter (λ op, match kind op with
                     | ExtractSlice _ offsets sizes strides =>
                         mkOperation (ExtractSlice bbArg offsets sizes strides)
                                     (getBlock op)
                     | _ => op
                     end)
              extractSliceOp (ops ir))
       (blocks ir).

(** How one iteration of the loop over the indices ends. *)
Inductive Iteration :=
| Continue (ir : IR)
| Return (diag : DiagnosedSilenceableFailure).

(** The body of the loop for one [outputIdx]. *)
Definition shareOperand (forallOp : positive) (outputIdx : Z) (ir : IR)
  : option Iteration :=
  outputs ← getOutputs ir forallOp;
  if bool_decide (outputIdx < 0)%Z
     || bool_decide (Z.of_nat (length outputs) ≤ outputIdx)%Z
  then Some (Return (emitDefiniteFailure forallOp "operand idx overflow"))
  else
    toShare ← outputs !! Z.to_nat outputIdx;
    if bool_decide (length (getUses ir toShare) ≠ 2) then Some (Continue ir)
    else
      match list_find (λ user, isExtractSlice ir user = true)
                      (getUsers ir toShare) with
      | None => Some (Continue ir)
      | Some (_, extractSliceOp) =>
          bbArg ← getOutputBlockArgument ir forallOp (Z.to_nat outputIdx);
          yielding ← getYieldingOps ir forallOp;
          if negb (existsb (isMatchingParallelInsertSlice ir bbArg
                              extractSliceOp) yielding)
          then Some (Continue ir)
          else Some (Continue (assignSource extractSliceOp bbArg ir))
      end.

(** [for (int64_t outputIdx : ...)] over [indices]. *)
Fixpoint forEachOutputIdx (forallOp : positive) (indices : list Z) (ir : IR)
  : option Applied :=
  match indices with
  | [] => Some (Success, [forallOp], ir)
  | outputIdx :: indices' =>
      step ← shareOperand forallOp outputIdx ir;
      match step with
      | Return diag => Some (diag, [], ir)
      | Continue ir' => forEachOutputIdx forallOp indices' ir'
      end
  end.

(** [transform::ShareForallOperandsOp::applyToOne]; [getShareOperands] is
    the index list attribute of the op.  The local [shareOperands] is
    filled with every output index when the attribute is empty; the loop
    runs over the attribute. *)
Definition applyToOne (getShareOperands : list Z) (forallOp : positive)
    (ir : IR) : option Applied :=
  let shareOperands := getShareOperands in
  shareOperands ←
    (if decide (shareOperands = []) then
       outputs ← getOutputs ir forallOp;
       Some (Z.of_nat <$> seq 0 (length outputs))
     else Some shareOperands);
  forEachOutputIdx forallOp getShareOperands ir.

End ShareForall.
(* ===================================================================== *)
(** ** The attributes of [transform::ApplyPatternsOp] that are read *)
(* ===================================================================== *)

Module ApplyAttributes.
Import ApplyPatterns.

(** The op with the attributes cleared that [applyToOne] does not read:
    those whose branch is commented out in the source
    ([rank_reducing_linalg], [rank_reducing_linalg_via_reshapes],
    [unroll_vectors_gpu_mma_sync], [unroll_vectors_gpu_wmma]) and
    [swap_padding_elide_conditional] unless [swapping_patterns] is set. *)
Definition effectiveAttributes (op : ApplyPatternsOp) : ApplyPatternsOp :=
  mkApplyPatternsOp
    (getAdditionalPatterns op) (getBubbleCollapse op) (getBubbleExpand op)
    (getBubblePackUnPack op) (getCanonicalization op) (getCse op)
    (getEraseUnnecessaryTensorOperands op)
    (getExpandMemrefStridedMetadata op) (getFoldMemrefAliases op)
    (getFoldReassociativeReshapes op) (getFoldTensorEmptyExtract op)
    (getLicm op) (getLinalgElementwiseGreedyFusion op)
    (getLowerTransferOpPermutations op) (getLowerVectorMasks op)
    false false
    (getRankReducingVector op)
    (getSwappingPatterns op && getSwapPaddingElideConditional op)
    (getSwappingPatterns op) (getTilingCanonicalization op)
    false false.


End ApplyAttributes.

(* ===================================================================== *)
(** ** Vocabulary for further statements on the hoister *)
(* ===================================================================== *)

Module HoistVocabulary.
Import IR.

Section vocabulary.
Variable K : AllocLikeOpType.

(** Every live allocation of kind [K] sits in the block [entry] or is one
    of [l]. *)
Definition Covered (ir : IR) (entry : positive) (l : list positive) : Prop :=
  ∀ x type dynamicSizes alignment b,
    ops ir !! x
    = Some (mkOperation (AllocLike K type dynamicSizes alignment) b) →
    b = Some entry ∨ x ∈ l.

(** [a] is a live allocation of kind [K], in a block, without dynamic
    sizes. *)
Definition StaticAlloc (ir : IR) (a : positive) : Prop :=
  ∃ type alignment pb,
    ops ir !! a = Some (mkOperation (AllocLike K type [] alignment) (Some pb)).

End vocabulary.
End HoistVocabulary.

(* ===================================================================== *)
(** ** Vocabulary for further statements on the sharing of operands *)
(* ===================================================================== *)

Module ShareVocabulary.
Import IR.

(** [outputIdx] is an index into a list of [n] outputs. *)
Definition inRange (n : nat) (outputIdx : Z) : Prop :=
  (0 ≤ outputIdx < Z.of_nat n)%Z.

#[global] Instance inRange_dec n outputIdx : Decision (inRange n outputIdx).
Proof. unfold inRange. apply _. Defined.

(** The payload [ir'] has the operations and the blocks of [ir], each
    operation in its block and of its kind with its operands and attributes,
    but for the source operand of [tensor.extract_slice] operations. *)
Definition SliceSourcesOnly (ir ir' : IR) : Prop :=
  blocks ir' = blocks ir ∧
  ∀ x, match ops ir !! x, ops ir' !! x with
       | None, None => True
       | Some op, Some op' =>
           getBlock op' = getBlock op ∧
           (kind op' = kind op ∨
            ∃ source source' offsets sizes strides,
              kind op = ExtractSlice source offsets sizes strides ∧
              kind op' = ExtractSlice source' offsets sizes strides)
       | _, _ => False
       end.

(** [forallOp] is a live [scf.forall] with [outputs] as shared outputs,
    whose body ends in a live terminator that holds a block. *)
Definition ForallWithTerminator (ir : IR) (forallOp : positive)
    (outputs : list Value) : Prop :=
  ShareForall.getOutputs ir forallOp = Some outputs ∧
  is_Some (ShareForall.getYieldingOps ir forallOp).

End ShareVocabulary.

(* ===================================================================== *)
(** ** [transform::ApplyBufferOptimizationsOp] *)
(* ===================================================================== *)

Module BufferOptimizations.
Import IR Transform.

Definition isTransferWriteOp (k : OpKind) : bool :=
  match k with
  | Generic name _ _ _ _ => bool_decide (name = "vector.transfer_write")
  | _ => false
  end.

Definition isStoreOp (k : OpKind) : bool :=
  match k with Store _ _ _ => true | _ => false end.

Definition isSubViewOp (k : OpKind) : bool :=
  match k with SubView _ _ _ _ => true | _ => false end.

Definition isAllocOp (k : OpKind) : bool :=
  match k with AllocLike AllocOp _ _ _ => true | _ => false end.

Section useLists.

(** [op->getUses()]: the uses of the results of [op] in the order in which
    the host chains them in its use lists.  The store shows which operand
    slots hold a result of [op] ([getOpUses]); it does not record that
    order, which the function below makes visible in the vector it fills.
    The order is a parameter. *)
Variable getUseList : IR → positive → list OpOperand.

(** The loop of [allUsesAreStores] over the uses that remain, with the
    local [opUses]; [self] is the function on the operations one level
    further.  The outer [None] is a step without defined behaviour, the
    inner one is [return false]. *)
Fixpoint usesLoop
    (self : positive → list positive → option (bool * list positive))
    (ir : IR) (theUses : list OpOperand) (opUses : list positive)
  : option (option (list positive)) :=
  match theUses with
  | [] => Some (Some opUses)
  | use :: theUses' =>
      let useOp := getOwner use in
      user ← ops ir !! useOp;
      if isDeallocOp (kind user) || isTransferWriteOp (kind user)
         || isStoreOp (kind user)
      then usesLoop self ir theUses' (opUses ++ [useOp])
      else if isSubViewOp (kind user) then
        '(allStores, opUses) ← self useOp opUses;
        if allStores : bool
        then usesLoop self ir theUses' (opUses ++ [useOp])
        else Some None
      else Some None
  end.

(** [allUsesAreStores(op, uses)]: the answer and the vector [uses] as the
    call leaves it.  The recursion descends one sub-view per unit of
    [fuel]. *)
Fixpoint allUsesAreStoresFrom (fuel : nat) (ir : IR) (op : positive)
    (uses : list positive) : option (bool * list positive) :=
  match fuel with
  | O => None
  | S fuel' =>
      let opUses : list positive := [] in
      r ← usesLoop (allUsesAreStoresFrom fuel' ir) ir (getUseList ir op)
            opUses;
      match r with
      | None => Some (false, uses)
      | Some opUses => Some (true, uses ++ opUses)
      end
  end.

(** A chain of sub-views of sub-views is never longer than the number of
    live operations. *)
Definition allUsesAreStores (ir : IR) (op : positive) (uses : list positive)
  : option (bool * list positive) :=
  allUsesAreStoresFrom (S (size (ops ir))) ir op uses.

(** The walk of [eraseDeadAllocAndStores] over the [memref.alloc]s under
    [parentOp], which fills [opToErase]. *)
Definition collectDeadOps (ir : IR) (parentOp : positive)
  : option (list positive) :=
  snd (walkWith (S := IR * option (list positive)) fst isAllocOp
         (λ op '(ir, opToErase),
            (ir,
             opToErase ← opToErase;
             '(allStores, opToErase) ← allUsesAreStores ir op opToErase;
             Some (if allStores : bool then opToErase ++ [op]
                   else opToErase)))
         parentOp (ir, Some [])).

(** [for (Operation *op : opToErase) op->erase();] *)
Fixpoint eraseEach (opToErase : list positive) (ir : IR) : option IR :=
  match opToErase with
  | [] => Some ir
  | op :: opToErase' =>
      _ ← ops ir !! op;
      eraseEach opToErase' (erase op ir)
  end.

(** [eraseDeadAllocAndStores(parentOp)]. *)
Definition eraseDeadAllocAndStores (parentOp : positive) (ir : IR)
  : option IR :=
  _ ← ops ir !! parentOp;
  opToErase ← collectDeadOps ir parentOp;
  eraseEach opToErase ir.

Section applyToOne.

(** [vector::transferOpflowOpt], store-to-load forwarding and dead store
    elimination of the host. *)
Variable transferOpflowOpt : positive → IR → IR.

(** [transform::ApplyBufferOptimizationsOp::applyToOne]. *)
Definition applyToOne (target : positive) (ir : IR) : option Applied :=
  _ ← ops ir !! target;
  let ir := transferOpflowOpt target ir in
  ir ← eraseDeadAllocAndStores target ir;
  Some (Success, [target], ir).

End applyToOne.

End useLists.

(** *** Vocabulary for the statements *)

Definition isSubView (ir : IR) (o : positive) : bool :=
  match ops ir !! o with
  | Some op => isSubViewOp (kind op)
  | None => false
  end.

(** [o] is a live deallocation, transfer write, store or sub-view. *)
Definition isWrite (ir : IR) (o : positive) : bool :=
  match ops ir !! o with
  | Some op =>
      isDeallocOp (kind op) || isTransferWriteOp (kind op)
      || isStoreOp (kind op) || isSubViewOp (kind op)
  | None => false
  end.

Definition isAlloc (ir : IR) (o : positive) : bool :=
  match ops ir !! o with
  | Some op => isAllocOp (kind op)
  | None => false
  end.

(** The users of [op] and, through the sub-views among them, the users of
    those, each sub-view after the operations that use it; at most [fuel]
    sub-views deep. *)
Fixpoint usersThroughSubViewsFrom (fuel : nat) (ir : IR) (op : positive)
  : list positive :=
  match fuel with
  | O => []
  | S fuel' =>
      u ← getOpUsers ir op;
      (if isSubView ir u then usersThroughSubViewsFrom fuel' ir u else [])
      ++ [u]
  end.

Definition usersThroughSubViews (ir : IR) (op : positive) : list positive :=
  usersThroughSubViewsFrom (S (size (ops ir))) ir op.

(** The sub-views that use [op], and those that use them, and so on, are
    fewer than [fuel] levels deep. *)
Fixpoint subViewsWithin (fuel : nat) (ir : IR) (op : positive) : bool :=
  match fuel with
  | O => false
  | S fuel' =>
      forallb (λ u, if isSubView ir u then subViewsWithin fuel' ir u
                    else true)
              (getOpUsers ir op)
  end.

(** [op] is written and freed only: nothing reads it, directly or through
    a sub-view. *)
Definition writeOnly (ir : IR) (op : positive) : bool :=
  forallb (isWrite ir) (usersThroughSubViews ir op).

(** The [memref.alloc]s under [parentOp] that are written only, each after
    the operations that use it. *)
Definition deadOps (ir : IR) (parentOp : positive) : list positive :=
  a ← filter (λ o, isAlloc ir o = true) (walk ir parentOp);
  if writeOnly ir a then usersThroughSubViews ir a ++ [a] else [].

(** What the verifier of the host demands of a [vector.transfer_write]
    into a buffer: it holds no region and yields no result. *)
Definition TransferWritesVerified (ir : IR) : Prop :=
  ∀ o op, ops ir !! o = Some op → isTransferWriteOp (kind op) = true →
          getRegions (kind op) = [] ∧ getNumResults (kind op) = 0.

(** Every operand of a live operation that is a result of an operation is
    a result that exists: the operation is live and has that many
    results. *)
Definition ResultsExist (ir : IR) : Prop :=
  ∀ x op d i, ops ir !! x = Some op → OpResult d i ∈ operands (kind op) →
    ∃ dop, ops ir !! d = Some dop ∧ i < getNumResults (kind dop).

Section inOrder.
Variable getUseList : IR → positive → list OpOperand.

(** The use lists of the host hold the uses the store shows, each once. *)
Definition UseListsOf (ir : IR) : Prop :=
  ∀ op, getUseList ir op ≡ₚ getOpUses ir op.

(** The users of [op] in the order of its use list, each sub-view among
    them preceded by its own users in the same manner; at most [fuel]
    sub-views deep. *)
Fixpoint usersInOrderFrom (fuel : nat) (ir : IR) (op : positive)
  : list positive :=
  match fuel with
  | O => []
  | S fuel' =>
      u ← getOwner <$> getUseList ir op;
      (if isSubView ir u then usersInOrderFrom fuel' ir u else []) ++ [u]
  end.

Definition usersInOrder (ir : IR) (op : positive) : list positive :=
  usersInOrderFrom (S (size (ops ir))) ir op.

End inOrder.

End BufferOptimizations.

(* ===================================================================== *)
(** ** [transform::TransformBufferizeOp] and
       [transform::TransformEliminateEmptyTensorsOp] *)
(* ===================================================================== *)

Module Bufferize.
Import IR Transform HoistAlloc.

(** What [mlir::emitError] and [Operation::emitError] hand to the
    diagnostic handler of the context. *)
Inductive Diagnostic :=
| UnableToGenerateCopy (memrefTypeFrom memrefTypeTo : option MemRefType)
| FailedPostBufferizationPasses (moduleOp topLevel : positive)
| FailedToEliminateTensorEmpty.

(** *** The allocation callbacks *)

(** [cpuComprehensiveBufferizeAllocationFn]; the [option] is the
    [FailureOr]. *)
Definition cpuComprehensiveBufferizeAllocationFn (memRefType : MemRefType)
    (dynamicSizes : list Value) (alignment : Z) : M (option Value) :=
  allocaOp ← create (AllocLike AllocaOp memRefType dynamicSizes
                               (Some alignment));
  mret (Some (OpResult allocaOp 0)).

(** [cpuComprehensiveBufferizeDeallocationFn]. *)
Definition cpuComprehensiveBufferizeDeallocationFn (allocation : Value)
  : M LogicalResult :=
  mret success.

(** [gpu::AddressSpaceAttr::get(ctx,
     gpu::GPUDialect::getWorkgroupAddressSpace())]. *)
Definition workgroupAddressSpace : string := "#gpu.address_space<workgroup>".

(** [gpuComprehensiveBufferizeAllocationFn]: the null [AffineMap()] is the
    default layout. *)
Definition gpuComprehensiveBufferizeAllocationFn (memRefType : MemRefType)
    (dynamicSizes : list Value) (alignment : Z) : M (option Value) :=
  let addressSpaceAttr := workgroupAddressSpace in
  let allocType :=
    mkMemRefType (getShape memRefType) (getElementType memRefType) None
                 (Some addressSpaceAttr) in
  allocOp ← create (AllocLike AllocOp allocType dynamicSizes
                              (Some alignment));
  mret (Some (OpResult allocOp 0)).

(** [gpuComprehensiveBufferizeDeallocationFn]. *)
Definition gpuComprehensiveBufferizeDeallocationFn (allocation : Value)
  : M LogicalResult :=
  _ ← create (Dealloc allocation);
  mret success.

(** *** The copy callbacks *)

Inductive AffineMap := MultiDimIdentityMap (numDims : nat).

Inductive IteratorType := parallel | reduction.

Section copy.

(** The type of a value when it is a memref type
    ([v.getType().dyn_cast<MemRefType>()]). *)
Variable getMemRefType : IR → Value → option MemRefType.

(** The builder of [linalg::GenericOp] of the host that takes the inputs,
    the outputs, the indexing maps, the iterator types, the function that
    builds the body from the block arguments, and further attributes. *)
Variable createGenericOp :
  list Value → list Value → list AffineMap → list IteratorType →
  (list Value → M unit) → list string → M positive.

(** The body of the copy: [linalg.yield] of the first block argument. *)
Definition yieldFirstArgument (args : list Value) : M unit :=
  front ← liftOption (head args);
  _ ← create (Generic "linalg.yield" (mkTraits true false false) [front] 0
                      []);
  mret tt.

(** [mlir::createLinalgCopyOp]: the diagnostics emitted and the operation,
    [None] for [nullptr]. *)
Definition createLinalgCopyOp (from to : Value) (attributes : list string)
  : M (list Diagnostic * option positive) :=
  ir ← getPayload;
  let memrefTypeFrom := getMemRefType ir from in
  let memrefTypeTo := getMemRefType ir to in
  match memrefTypeFrom, memrefTypeTo with
  | Some typeFrom, Some typeTo =>
      if decide (getRank typeFrom ≠ getRank typeTo) then
        mret ([UnableToGenerateCopy memrefTypeFrom memrefTypeTo], None)
      else
        let id := MultiDimIdentityMap (getRank typeTo) in
        let iteratorTypes := replicate (getRank typeTo) parallel in
        genericOp ← createGenericOp [from] [to] [id; id] iteratorTypes
                                    yieldFirstArgument attributes;
        mret ([], Some genericOp)
  | _, _ => mret ([UnableToGenerateCopy memrefTypeFrom memrefTypeTo], None)
  end.

(** [cpuComprehensiveBufferizeCopyFn]. *)
Definition cpuComprehensiveBufferizeCopyFn (from to : Value)
  : M (list Diagnostic * LogicalResult) :=
  '(diagnostics, _) ← createLinalgCopyOp from to [];
  mret (diagnostics, success).

(** [gpuComprehensiveBufferizeCopyFn]. *)
Definition gpuComprehensiveBufferizeCopyFn (from to : Value)
  : M (list Diagnostic * LogicalResult) :=
  '(diagnostics, _) ← createLinalgCopyOp from to [];
  mret (diagnostics, success).

(** *** The options of the bufferizer *)

(** The two layouts the type converter chooses between. *)
Inductive MemRefLayout := StaticIdentityLayout | FullyDynamicLayout.

Record OneShotBufferizationOptions := mkOptions {
  opFilterDenied : list string;
  unknownTypeConverterFn :
    IR → Value → option string → option (MemRefLayout * option string);
  allocationFn :
    option (MemRefType → list Value → Z → M (option Value));
  deallocationFn : option (Value → M LogicalResult);
  memCpyFn : option (Value → Value → M (list Diagnostic * LogicalResult));
  testAnalysisOnly : bool;
  printConflicts : bool
}.

Definition isConstantOp (k : OpKind) : bool :=
  match k with
  | Generic name _ _ _ _ => bool_decide (name = "arith.constant")
  | _ => false
  end.

(** The lambda assigned to [unknownTypeConverterFn]: the layout and the
    memory space of the memref type that stands for the tensor type of
    [value]. *)
Definition convertUnknownType (ir : IR) (value : Value)
    (memorySpace : option string)
  : option (MemRefLayout * option string) :=
  match getDefiningOp value with
  | Some definingOp =>
      op ← ops ir !! definingOp;
      if isConstantOp (kind op)
      then Some (StaticIdentityLayout, memorySpace)
      else Some (FullyDynamicLayout, memorySpace)
  | None => Some (FullyDynamicLayout, memorySpace)
  end.

(** [getBufferizationOptions()]. *)
Definition getBufferizationOptions : OneShotBufferizationOptions :=
  mkOptions ["arith.constant"; "bufferization.to_memref"] convertUnknownType
            None None None false false.

(** *** [TransformBufferizeOp::apply] *)

(** The state of the interpreter the op reads: the top-level operation and
    the payload operations of the target handle. *)
Record TransformState := mkTransformState {
  getTopLevel : positive;
  getPayloadOps : list positive
}.

Record TransformBufferizeOp := mkTransformBufferizeOp {
  getTargetGpu : bool;
  getTestAnalysisOnly : bool;
  getPrintConflicts : bool
}.

(** A [DiagnosedSilenceableFailure] with its diagnostic, or the definite
    failure without one of
    [DiagnosedSilenceableFailure::definiteFailure()]. *)
Inductive Outcome :=
| Diagnosed (diag : DiagnosedSilenceableFailure)
| definiteFailure.

(** What [apply] leaves: the outcome, the diagnostics emitted on the way,
    the payload operations set for the result handle (if set), and the
    payload. *)
Record ApplyResult := mkApplyResult {
  outcome : Outcome;
  emitted : list Diagnostic;
  results : option (list positive);
  payloadIR : IR
}.

Inductive BufferizePattern := EmptyTensorLoweringPattern.

Definition isModuleOp (k : OpKind) : bool :=
  match k with
  | Generic name _ _ _ _ => bool_decide (name = "builtin.module")
  | _ => false
  end.

Section apply.

(** The greedy driver, the bufferizer and the pass manager of the host; the
    pass manager is given the list of its passes. *)
Variable applyOpPatternsAndFold :
  list positive → list BufferizePattern → IR → LogicalResult * IR.
Variable runOneShotBufferize :
  positive → OneShotBufferizationOptions → IR → LogicalResult * IR.
Variable runPassManager : list string → positive → IR → LogicalResult * IR.

(** The options [apply] hands to the bufferizer. *)
Definition bufferizeOptions (self : TransformBufferizeOp)
  : OneShotBufferizationOptions :=
  let allocationFn := cpuComprehensiveBufferizeAllocationFn in
  let deallocationFn := cpuComprehensiveBufferizeDeallocationFn in
  let memCpyFn := cpuComprehensiveBufferizeCopyFn in
  let '(allocationFn, deallocationFn, memCpyFn) :=
    if getTargetGpu self
    then (gpuComprehensiveBufferizeAllocationFn,
          gpuComprehensiveBufferizeDeallocationFn,
          gpuComprehensiveBufferizeCopyFn)
    else (allocationFn, deallocationFn, memCpyFn) in
  let options := getBufferizationOptions in
  mkOptions (opFilterDenied options) (unknownTypeConverterFn options)
            (Some allocationFn) (Some deallocationFn) (Some memCpyFn)
            (getTestAnalysisOnly self) (getPrintConflicts self).

(** The callback of the walk over the modules under the top level. *)
Definition runPostBufferizationPasses (topLevel : positive)
    (moduleOp : positive) (s : IR * list Diagnostic)
  : WalkResult * (IR * list Diagnostic) :=
  let '(ir, diagnostics) := s in
  let pm : list string := [] in
  let '(r, ir) := runPassManager pm moduleOp ir in
  if failed r
  then (interrupt,
        (ir, diagnostics ++ [FailedPostBufferizationPasses moduleOp topLevel]))
  else (advance, (ir, diagnostics)).

(** [transform::TransformBufferizeOp::apply]. *)
Definition apply (self : TransformBufferizeOp) (state : TransformState)
    (ir : IR) : option ApplyResult :=
  let payload := getPayloadOps state in
  isModule ←
    (if decide (length payload ≠ 1) then Some false
     else front ← head payload;
          frontOp ← ops ir !! front;
          Some (isModuleOp (kind frontOp)));
  if negb isModule then
    Some (mkApplyResult
            (Diagnosed
               (emitDefiniteFailure (getTopLevel state)
                  "requires exactly a single HAL::ExecutableOp or HAL::ExecutableVariantOp target op."))
            [] None ir)
  else
    front ← head payload;
    _ ← ops ir !! getTopLevel state;
    let patterns := [EmptyTensorLoweringPattern] in
    let nested :=
      filter (λ nestedOp, getTopLevel state ≠ nestedOp)
             (walk ir (getTopLevel state)) in
    let '(result, ir) := applyOpPatternsAndFold nested patterns ir in
    let options := bufferizeOptions self in
    let '(bufferized, ir) :=
      runOneShotBufferize (getTopLevel state) options ir in
    if failed bufferized then Some (mkApplyResult definiteFailure [] None ir)
    else if getTestAnalysisOnly self then
      Some (mkApplyResult (Diagnosed Success) [] (Some [front]) ir)
    else
      _ ← ops ir !! getTopLevel state;
      let '(res, (ir, diagnostics)) :=
        walkInterruptible fst isModuleOp
          (runPostBufferizationPasses (getTopLevel state))
          (getTopLevel state) (ir, []) in
      if wasInterrupted res
      then Some (mkApplyResult definiteFailure diagnostics None ir)
      else Some (mkApplyResult (Diagnosed Success) diagnostics (Some [front]) ir).

(** *** Vocabulary for the statements *)

(** The pass manager has run with success on each operation of [visit]
    that was a live module when its turn came, taking the payload from [ir]
    to [ir']. *)
Inductive PassesSucceed : list positive → IR → IR → Prop :=
| passes_done ir : PassesSucceed [] ir ir
| passes_skip o visit ir ir' :
    (∀ op, ops ir !! o = Some op → isModuleOp (kind op) = false) →
    PassesSucceed visit ir ir' →
    PassesSucceed (o :: visit) ir ir'
| passes_run o op visit ir ir1 ir' :
    ops ir !! o = Some op →
    isModuleOp (kind op) = true →
    runPassManager [] o ir = (success, ir1) →
    PassesSucceed visit ir1 ir' →
    PassesSucceed (o :: visit) ir ir'.

(** The pass manager fails on [failedModule], a live module when its turn
    comes after the operations [pre] of the walk [visit], and leaves the
    payload [ir']. *)
Definition PassesFailAt (visit : list positive) (ir : IR)
    (failedModule : positive) (ir' : IR) : Prop :=
  ∃ pre post ir1 moduleOp,
    visit = pre ++ failedModule :: post ∧
    PassesSucceed pre ir ir1 ∧
    ops ir1 !! failedModule = Some moduleOp ∧
    isModuleOp (kind moduleOp) = true ∧
    runPassManager [] failedModule ir1 = (failure, ir').

End apply.

(** *** [TransformEliminateEmptyTensorsOp::apply] *)

Section eliminate.

(** The state of the analysis, the analysis, and the elimination step of
    the host. *)
Variable OneShotAnalysisState : Type.
Variable analyzeOp :
  positive → OneShotBufferizationOptions → IR →
  LogicalResult * OneShotAnalysisState * IR.
Variable insertSliceAnchoredEmptyTensorEliminationStep :
  positive → OneShotAnalysisState → IR → LogicalResult * IR.

(** [eliminateEmptyTensors(op, options)]. *)
Definition eliminateEmptyTensors (op : positive)
    (options : OneShotBufferizationOptions) (ir : IR)
  : option (LogicalResult * IR) :=
  _ ← ops ir !! op;
  let '(analyzed, state, ir) := analyzeOp op options ir in
  if failed analyzed then Some (failure, ir)
  else
    _ ← ops ir !! op;
    let '(eliminated, ir) :=
      insertSliceAnchoredEmptyTensorEliminationStep op state ir in
    if failed eliminated then Some (failure, ir)
    else Some (success, ir).

(** The loop over the payload operations: [None] inside is the loop run to
    its end. *)
Fixpoint eliminateEach (payloads : list positive) (ir : IR)
  : option (option ApplyResult * IR) :=
  match payloads with
  | [] => Some (None, ir)
  | payload :: payloads' =>
      '(r, ir) ← eliminateEmptyTensors payload getBufferizationOptions ir;
      if failed r
      then Some (Some (mkApplyResult definiteFailure
                         [FailedToEliminateTensorEmpty] None ir), ir)
      else eliminateEach payloads' ir
  end.

(** [transform::TransformEliminateEmptyTensorsOp::apply]. *)
Definition applyEliminateEmptyTensors (state : TransformState) (ir : IR)
  : option ApplyResult :=
  let payloads := getPayloadOps state in
  '(early, ir) ← eliminateEach payloads ir;
  match early with
  | Some failed => Some failed
  | None => Some (mkApplyResult (Diagnosed Success) [] (Some payloads) ir)
  end.

End eliminate.
End copy.

End Bufferize.

(* ===================================================================== *)
(** ** The Python extension: [getBoundsFromRelation] *)
(* ===================================================================== *)

Module Nelli.
Import IR.

(** [presburger::IntegerRelation::BoundType]. *)
Inductive BoundType := LB | UB | EQ.

(** What the function reads of a [mlir::FlatAffineRelation]: the number of
    dimension and symbol variables, whether a variable has an SSA value
    attached and which, and the constant bound of a variable, an integer of
    arbitrary precision, when there is one. *)
Record FlatAffineRelation := mkFlatAffineRelation {
  getNumDimAndSymbolVars : nat;
  hasValue : nat → bool;
  getValue : nat → Value;
  getConstantBound : BoundType → nat → option Z
}.

(** [int64FromMPInt]: the conversion has no defined result on an integer
    that does not fit in 64 bits. *)
Definition int64FromMPInt (x : Z) : option Z :=
  if decide (- 2 ^ 63 ≤ x < 2 ^ 63)%Z then Some x else None.

(** A Python dictionary with string keys whose values are integers or
    [None]; a dictionary keyed by SSA values. *)
#[local] Abbreviation Bound := (gmap string (option Z)).
#[local] Abbreviation Bounds := (gmap Value Bound).

(** [if (B.has_value()) bound[key] = int64FromMPInt(B.value());
     else bound[key] = py::none();] *)
Definition setBound (key : string) (B : option Z) (bound : Bound)
  : option Bound :=
  match B with
  | Some value => value ← int64FromMPInt value; Some (<[key := Some value]> bound)
  | None => Some (<[key := None]> bound)
  end.

(** The body of the loop for the variable [i]. *)
Definition addBounds (relation : FlatAffineRelation) (bounds : Bounds)
    (i : nat) : option Bounds :=
  let bound : Bound := ∅ in
  if hasValue relation i then
    let LB := getConstantBound relation LB i in
    let UB := getConstantBound relation UB i in
    let EQ := getConstantBound relation EQ i in
    bound ← setBound "LB" LB bound;
    bound ← setBound "UB" UB bound;
    bound ← setBound "EQ" EQ bound;
    Some (<[getValue relation i := bound]> bounds)
  else Some bounds.

(** [getBoundsFromRelation(relation)]. *)
Definition getBoundsFromRelation (relation : FlatAffineRelation)
  : option Bounds :=
  let nds := getNumDimAndSymbolVars relation in
  foldl (λ bounds i, bounds ← bounds; addBounds relation bounds i)
        (Some ∅) (seq 0 nds).

(** *** Vocabulary for the statements *)

(** The bounds of the variable [i] as a dictionary. *)
Definition boundsOf (relation : FlatAffineRelation) (i : nat) : Bound :=
  <["EQ" := getConstantBound relation EQ i]>
    (<["UB" := getConstantBound relation UB i]>
       (<["LB" := getConstantBound relation LB i]> ∅)).

(** The constant bounds of the variables that carry a value fit in 64
    bits. *)
Definition BoundsFit (relation : FlatAffineRelation) : Prop :=
  ∀ t i x, i < getNumDimAndSymbolVars relation →
    hasValue relation i = true →
    getConstantBound relation t i = Some x →
    (- 2 ^ 63 ≤ x < 2 ^ 63)%Z.

End Nelli.


(* ===================================================================== *)
(** ** Sample payloads *)
(* ===================================================================== *)

Module Examples.
Import IR.

Definition returnOp : OpKind :=
  Generic "func.return" (mkTraits true false false) [] 0 [].

(** A function [1] whose entry block [10] holds an elementwise producer [2]
    with one input, a consumer [3] of the producer's result with
    [consumerInputs] as inputs, and the return [4]. *)
Definition fusion_ir (producerInputs consumerInputs : list Value) : IR :=
  mkIR (list_to_map
          [(1%positive, mkOperation (Func [[100%positive]]) None);
           (2%positive,
            mkOperation (Linalg producerInputs [BlockArgument 100 7] 1 [])
                        (Some 100%positive));
           (3%positive,
            mkOperation (Linalg consumerInputs [BlockArgument 100 8] 1 [])
                        (Some 100%positive));
           (4%positive, mkOperation returnOp (Some 100%positive))])
       (list_to_map [(100%positive, [2; 3; 4]%positive)]).

(** The slot of the consumer that holds the producer's result. *)
Definition fusedOperand : OpOperand := mkOpOperand 3 0.

Definition producerResult : Value := OpResult 2 0.

(** A function [1] whose entry block [10] holds a loop [2] and the return
    [9]; the loop body [20] allocates a buffer [3], stores into it [4],
    frees it [5] and yields [6]. *)
Definition yieldOp : OpKind :=
  Generic "scf.yield" (mkTraits true false false) [] 0 [].

Definition loop_ir (alloc : OpKind) : IR :=
  mkIR (list_to_map
          [(1%positive, mkOperation (Func [[100%positive]]) None);
           (2%positive,
            mkOperation (ScfFor [BlockArgument 100 0] 0 [[200%positive]])
                        (Some 100%positive));
           (3%positive, mkOperation alloc (Some 200%positive));
           (4%positive,
            mkOperation (Store (BlockArgument 100 1) (OpResult 3 0)
                               [BlockArgument 200 0])
                        (Some 200%positive));
           (5%positive,
            mkOperation (Dealloc (OpResult 3 0)) (Some 200%positive));
           (6%positive, mkOperation yieldOp (Some 200%positive));
           (9%positive, mkOperation returnOp (Some 100%positive))])
       (list_to_map [(100%positive, [2; 9]%positive);
                     (200%positive, [3; 4; 5; 6]%positive)]).



Definition f32 : string := "f32".

(** [memref<4x8xf32>], allocated on the heap. *)
Definition staticAlloc (k : AllocLikeOpType) : OpKind :=
  AllocLike k (mkMemRefType [4; 8]%Z f32 None None) [] (Some 64%Z).

(** [memref<4x?xf32>] sized by the function argument [%arg0]. *)
Definition dynamicAlloc (k : AllocLikeOpType) : OpKind :=
  AllocLike k (mkMemRefType [4%Z; kDynamic] f32 None None)
            [BlockArgument 100 0] None.

(** An upper-bound analysis that knows [%arg0 <= 16] and nothing else. *)
Definition boundArg0 (_ : IR) (v : Value) : option Z :=
  if decide (v = BlockArgument 100 0) then Some 16%Z else None.

(** An upper-bound analysis that knows nothing. *)
Definition noBound (_ : IR) (_ : Value) : option Z := None.

(** A function [1] whose entry block [100] creates a tensor [2], runs an
    [scf.forall] [3] over it as shared output and returns [9]; the body
    [300] of the loop (one induction variable) extracts a slice [4] of the
    tensor and, inside the terminator [5], inserts a slice [6] at the same
    position into the output block argument. *)
Definition forall_ir : IR :=
  mkIR (list_to_map
          [(1%positive, mkOperation (Func [[100%positive]]) None);
           (2%positive,
            mkOperation (Generic "tensor.empty" (mkTraits false false false)
                                 [] 1 [])
                        (Some 100%positive));
           (3%positive,
            mkOperation (ScfForall 1 [] [OpResult 2 0] [[300%positive]])
                        (Some 100%positive));
           (4%positive,
            mkOperation (ExtractSlice (OpResult 2 0)
                           [OfrValue (BlockArgument 300 0)] [IndexAttr 4]
                           [IndexAttr 1])
                        (Some 300%positive));
           (5%positive,
            mkOperation (InParallel [[400%positive]]) (Some 300%positive));
           (6%positive,
            mkOperation (ParallelInsertSlice (OpResult 4 0)
                           (BlockArgument 300 1)
                           [OfrValue (BlockArgument 300 0)] [IndexAttr 4]
                           [IndexAttr 1])
                        (Some 400%positive));
           (9%positive, mkOperation returnOp (Some 100%positive))])
       (list_to_map [(100%positive, [2; 3; 9]%positive);
                     (300%positive, [4; 5]%positive);
                     (400%positive, [6%positive])]).

(** A stand-in for the greedy driver: it erases the first deallocation of
    its worklist, if there is one, and reports convergence. *)
Definition sampleDriver (worklist : list positive)
    (patterns : list ApplyPatterns.Pattern) (ir : IR)
  : Transform.LogicalResult * IR :=
  match list_find (λ o, HoistAlloc.isDealloc ir o = true) worklist with
  | Some (_, o) => (Transform.success, erase o ir)
  | None => (Transform.success, ir)
  end.

(** What the sample driver has work on: a deallocation. *)
Definition sampleHasRewrite (patterns : list ApplyPatterns.Pattern) (ir : IR)
    (o : positive) : bool :=
  HoistAlloc.isDealloc ir o.

(** Stand-ins for the loop utilities: nothing is hoisted, no loop is
    promoted; they find no loop with invariant code or a single
    iteration. *)
Definition sampleLicm (loop : positive) (ir : IR) : IR := ir.

Definition samplePromote (loop : positive) (ir : IR)
  : Transform.LogicalResult * IR := (Transform.failure, ir).

Definition noInvariantCode (ir : IR) (loop : positive) : bool := false.

Definition noSingleIteration (ir : IR) (loop : positive) : bool := false.

Definition arg (n : nat) : Value := BlockArgument 100 n.

(** A producer with the input [%arg0] and a consumer of the producer's
    result, [%arg1] and [%arg2]. *)
Definition ir_1_3 : IR := fusion_ir [arg 0] [producerResult; arg 1; arg 2].

(** The same with two inputs on the consumer, the producer's result being
    one of them. *)
Definition ir_1_2 : IR := fusion_ir [arg 0] [producerResult; arg 1].

(** And with two inputs on each side. *)
Definition ir_2_2 : IR := fusion_ir [arg 0; arg 2] [producerResult; arg 1].

(** Every attribute of the pattern applier set. *)
Definition allPatterns : ApplyPatterns.ApplyPatternsOp :=
  ApplyPatterns.mkApplyPatternsOp true true true true true true true true
    true true true true true true true true true true true true true true
    true.

(** The sample driver has nothing to erase in [loop_ir] once the
    deallocation is gone, and the sample loop utilities nothing to do. *)
Definition converged_ir : IR :=
  erase 5 (loop_ir (staticAlloc AllocOp)).

End Examples.
(* ===================================================================== *)
(** ** Further sample payloads *)
(* ===================================================================== *)

Module MoreExamples.
Import IR Examples.

(** A driver that gives up at once. *)
Definition failingDriver (worklist : list positive)
    (patterns : list ApplyPatterns.Pattern) (ir : IR)
  : Transform.LogicalResult * IR :=
  (Transform.failure, ir).

(** A stand-in for loop-invariant code motion that would empty the store
    if it ran on a loop. *)
Definition drasticLicm (loop : positive) (ir : IR) : IR := mkIR ∅ ∅.

(** For it every loop holds code to move. *)
Definition alwaysInvariantCode (ir : IR) (loop : positive) : bool := true.

(** A kernel [1] that is isolated from above and is no [func.func]; its
    body [100] holds a loop [2] and the return [9]. *)
Definition kernel_ir : IR :=
  mkIR (list_to_map
          [(1%positive,
            mkOperation (Generic "gpu.func" (mkTraits false true false) [] 0
                                 [[100%positive]]) None);
           (2%positive,
            mkOperation (ScfFor [BlockArgument 100 0] 0 [[200%positive]])
                        (Some 100%positive));
           (3%positive, mkOperation yieldOp (Some 200%positive));
           (9%positive,
            mkOperation (Generic "gpu.return" (mkTraits true false false) []
                                 0 [])
                        (Some 100%positive))])
       (list_to_map [(100%positive, [2; 9]%positive);
                     (200%positive, [3%positive])]).

(** A function [1] whose entry block [100] holds: a buffer [2] with a
    sub-view [3] that is stored to [4], a transfer write [12] and a
    deallocation [5]; a buffer [6] that is stored to [7] and loaded from
    [8]; a stack buffer [10] that is stored to [11]; the return [9]. *)
Definition buffers_ir : IR :=
  mkIR (list_to_map
          [(1%positive, mkOperation (Func [[100%positive]]) None);
           (2%positive, mkOperation (staticAlloc AllocOp) (Some 100%positive));
           (3%positive,
            mkOperation (SubView (OpResult 2 0) [IndexAttr 0; IndexAttr 0]
                                 [IndexAttr 2; IndexAttr 8]
                                 [IndexAttr 1; IndexAttr 1])
                        (Some 100%positive));
           (4%positive,
            mkOperation (Store (arg 0) (OpResult 3 0) [arg 2; arg 2])
                        (Some 100%positive));
           (12%positive,
            mkOperation (Generic "vector.transfer_write"
                                 (mkTraits false false false)
                                 [arg 1; OpResult 2 0; arg 2; arg 2] 0 [])
                        (Some 100%positive));
           (5%positive,
            mkOperation (Dealloc (OpResult 2 0)) (Some 100%positive));
           (6%positive,
            mkOperation (AllocLike AllocOp (mkMemRefType [16]%Z f32 None None)
                                   [] None)
                        (Some 100%positive));
           (7%positive,
            mkOperation (Store (arg 0) (OpResult 6 0) [arg 2])
                        (Some 100%positive));
           (8%positive,
            mkOperation (Generic "memref.load" (mkTraits false false false)
                                 [OpResult 6 0; arg 2] 1 [])
                        (Some 100%positive));
           (10%positive,
            mkOperation (staticAlloc AllocaOp) (Some 100%positive));
           (11%positive,
            mkOperation (Store (arg 0) (OpResult 10 0) [arg 2; arg 2])
                        (Some 100%positive));
           (9%positive, mkOperation returnOp (Some 100%positive))])
       (list_to_map
          [(100%positive, [2; 3; 4; 12; 5; 6; 7; 8; 10; 11; 9]%positive)]).

(** The position of an operation in the list of its block. *)
Definition positionInBlock (ir : IR) (o : positive) : nat :=
  default 0 (op ← ops ir !! o;
             b ← getBlock op;
             fst <$> list_find (λ x, x = o) (blockOps ir b)).

(** The use lists of a payload that the host has built in the order of the
    program: the host chains a new use in front, so the use by the
    operation created last comes first. *)
Definition usedNoEarlier (ir : IR) (u1 u2 : OpOperand) : Prop :=
  positionInBlock ir (getOwner u2) ≤ positionInBlock ir (getOwner u1).

#[global] Instance usedNoEarlier_dec ir : RelDecision (usedNoEarlier ir).
Proof. intros u1 u2. unfold usedNoEarlier. apply _. Defined.

Definition lastUseFirst (ir : IR) (op : positive) : list OpOperand :=
  merge_sort (usedNoEarlier ir) (getOpUses ir op).

(** A stand-in for the forwarding of the host that finds nothing to do. *)
Definition noForwarding (target : positive) (ir : IR) : IR := ir.

(** The type of a value that is the result of an allocation. *)
Definition typeOfAllocation (ir : IR) (v : Value) : option MemRefType :=
  match v with
  | OpResult o 0 =>
      op ← ops ir !! o;
      match kind op with
      | AllocLike _ type _ _ => Some type
      | _ => None
      end
  | _ => None
  end.

(** A stand-in for the builder of [linalg.generic]: the operation without
    its body. *)
Definition bodilessGenericOp (inputs outputs : list Value)
    (indexingMaps : list Bufferize.AffineMap)
    (iteratorTypes : list Bufferize.IteratorType)
    (bodyBuild : list Value → HoistAlloc.M unit) (attributes : list string)
  : HoistAlloc.M positive :=
  HoistAlloc.create (Linalg inputs outputs 0 []).

(** A module [1] that holds the function [2] with its return [3]. *)
Definition module_ir : IR :=
  mkIR (list_to_map
          [(1%positive,
            mkOperation (Generic "builtin.module" (mkTraits false true false)
                                 [] 0 [[50%positive]]) None);
           (2%positive,
            mkOperation (Func [[100%positive]]) (Some 50%positive));
           (3%positive, mkOperation returnOp (Some 100%positive))])
       (list_to_map [(50%positive, [2%positive]);
                     (100%positive, [3%positive])]).

(** The interpreter state with the module as top level and as payload of
    the target handle. *)
Definition module_state : Bufferize.TransformState :=
  Bufferize.mkTransformState 1 [1%positive].

(** The same with the function as payload. *)
Definition function_state : Bufferize.TransformState :=
  Bufferize.mkTransformState 1 [2%positive].

(** Stand-ins for the host: a driver that fails, a bufferizer and a pass
    manager that succeed, none of them touching the payload. *)
Definition failingBufferizeDriver (worklist : list positive)
    (patterns : list Bufferize.BufferizePattern) (ir : IR)
  : Transform.LogicalResult * IR :=
  (Transform.failure, ir).

Definition idleBufferizer (op : positive)
    (options : Bufferize.OneShotBufferizationOptions) (ir : IR)
  : Transform.LogicalResult * IR :=
  (Transform.success, ir).

Definition idlePassManager (passes : list string) (op : positive) (ir : IR)
  : Transform.LogicalResult * IR :=
  (Transform.success, ir).

(** A pass manager that fails on the operation it is run on. *)
Definition failingPassManager (passes : list string) (op : positive)
    (ir : IR) : Transform.LogicalResult * IR :=
  (Transform.failure, ir).

(** A relation over three variables: the first and the last carry the
    value [%arg0], the second none; the first is bounded by 0 and 16, the
    last is equal to 8. *)
Definition sample_relation : Nelli.FlatAffineRelation :=
  Nelli.mkFlatAffineRelation 3
    (λ i, bool_decide (i ≠ 1))
    (λ _, arg 0)
    (λ t i, match t, i with
            | Nelli.LB, 0 => Some 0%Z
            | Nelli.UB, 0 => Some 16%Z
            | Nelli.EQ, 2 => Some 8%Z
            | _, _ => None
            end).

(** The payload [ir_1_3] with the inputs of the consumer in another order
    and one of them repeated. *)
Definition ir_1_3_shuffled : IR :=
  fusion_ir [arg 0] [arg 2; producerResult; arg 1; arg 2].

End MoreExamples.


(* ===================================================================== *)
(** * Properties *)
(* ===================================================================== *)

(** ** [SetVector] keeps its elements distinct and behaves as a set *)

Module SetVectorFacts.
Section facts.
Context {A : Type} `{Countable A}.
Implicit Types (s xs : list A) (x y : A).

Lemma elem_of_insert x y s :
  y ∈ SetVector.insert x s ↔ y = x ∨ y ∈ s.
Proof.
  unfold SetVector.insert. case_decide as Hx.
  - split; [by right | intros [-> | ?]; done].
  - rewrite elem_of_app, list_elem_of_singleton. tauto.
Qed.

Lemma NoDup_insert x s : NoDup s → NoDup (SetVector.insert x s).
Proof.
  intros Hs. unfold SetVector.insert. case_decide as Hx; [done |].
  apply NoDup_app. split_and!; [done | | apply NoDup_singleton].
  intros y Hy Hy'. apply list_elem_of_singleton in Hy'. by subst.
Qed.

Lemma elem_of_insert_range xs y s :
  y ∈ SetVector.insert_range xs s ↔ y ∈ xs ∨ y ∈ s.
Proof.
  unfold SetVector.insert_range. revert s.
  induction xs as [| x xs IH]; intros s; simpl.
  - rewrite elem_of_nil. tauto.
  - rewrite IH, elem_of_insert, elem_of_cons. tauto.
Qed.

Lemma NoDup_insert_range xs s :
  NoDup s → NoDup (SetVector.insert_range xs s).
Proof.
  unfold SetVector.insert_range. revert s.
  induction xs as [| x xs IH]; intros s Hs; simpl; [done |].
  by apply IH, NoDup_insert.
Qed.

Lemma elem_of_remove x y s : y ∈ SetVector.remove x s ↔ y ∈ s ∧ y ≠ x.
Proof. unfold SetVector.remove. rewrite list_elem_of_filter. tauto. Qed.

Lemma NoDup_remove x s : NoDup s → NoDup (SetVector.remove x s).
Proof. apply NoDup_filter. Qed.

(** On a vector without repetition [size] is the cardinal of the set. *)
Lemma size_as_set s :
  NoDup s → SetVector.size s = size (list_to_set s : gset A).
Proof. intros Hs. unfold SetVector.size. by rewrite size_list_to_set. Qed.

End facts.
End SetVectorFacts.

(** ** The payload IR: operands, traversal of leaves, mutation *)

Module IRFacts.
Import IR.

Lemma ofrValues_mapOfr f l : ofrValues (mapOfr f <$> l) = f <$> ofrValues l.
Proof.
  unfold ofrValues. induction l as [| [z | v] l IH]; csimpl; [done | done |].
  by rewrite IH.
Qed.

(** Rewriting the operands rewrites the operand list pointwise... *)
Lemma operands_mapOperands f k : operands (mapOperands f k) = f <$> operands k.
Proof.
  destruct k; simpl;
    rewrite ?fmap_app, ?ofrValues_mapOfr; reflexivity.
Qed.

(** ... and touches nothing else. *)
Lemma getRegions_mapOperands f k : getRegions (mapOperands f k) = getRegions k.
Proof. by destruct k. Qed.

Lemma isDeallocOp_mapOperands f k :
  isDeallocOp (mapOperands f k) = isDeallocOp k.
Proof. by destruct k. Qed.

Lemma hasTraitIsTerminator_mapOperands f k :
  hasTraitIsTerminator (mapOperands f k) = hasTraitIsTerminator k.
Proof. by destruct k. Qed.

Lemma isDeallocOp_no_regions k : isDeallocOp k = true → getRegions k = [].
Proof. by destruct k. Qed.

Lemma isDeallocOp_not_terminator k :
  isDeallocOp k = true → hasTraitIsTerminator k = false.
Proof. by destruct k. Qed.

Lemma bind_ext_in {A B : Type} (f g : A → list B) (l : list A) :
  (∀ x, x ∈ l → f x = g x) → (x ← l; f x) = (x ← l; g x).
Proof.
  induction l as [| x l IH]; intros Hfg; csimpl; [done |].
  rewrite (Hfg x) by left. rewrite IH; [done |].
  intros y Hy. apply Hfg. by right.
Qed.

(** Once the fuel covers the nesting depth, the walk no longer depends on
    it: the recursion of the host needs none. *)
Lemma walkFrom_enough_fuel n : ∀ m ir o,
  nestedWithin n ir o → n ≤ m → walkFrom m ir o = walkFrom n ir o.
Proof.
  induction n as [| n IH]; intros m ir o Hn Hm; [done |].
  destruct m as [| m]; [lia |]. simpl in *.
  destruct (ops ir !! o) as [op |]; [| done]. f_equal.
  apply bind_ext_in. intros r Hr.
  apply bind_ext_in. intros b Hb.
  apply bind_ext_in. intros o' Ho'.
  apply IH; [by eapply Hn | lia].
Qed.

(** The walk of a live operation without regions visits that operation. *)
Lemma walk_leaf ir o op :
  ops ir !! o = Some op → getRegions (kind op) = [] → walk ir o = [o].
Proof.
  intros Ho Hr. unfold walk. simpl. by rewrite Ho, Hr.
Qed.

Lemma lookup_eraseAll dead ir x :
  ops (eraseAll dead ir) !! x
  = if decide (x ∈ dead) then None else ops ir !! x.
Proof.
  unfold eraseAll. simpl.
  destruct (ops ir !! x) as [op |] eqn:Hx.
  - case_decide as Hd.
    + apply map_lookup_filter_None. right. intros op' ? Hn. by apply Hn.
    + by apply map_lookup_filter_Some.
  - assert (filter (λ entry : positive * Operation, entry.1 ∉ dead) (ops ir)
            !! x = None) as ->.
    { apply map_lookup_filter_None. by left. }
    by case_decide.
Qed.

Lemma blocks_eraseAll dead ir b :
  blocks (eraseAll dead ir) !! b = filter (λ o, o ∉ dead) <$> blocks ir !! b.
Proof. unfold eraseAll. simpl. by rewrite lookup_fmap. Qed.

Lemma IR_eq ir ir' :
  (∀ x, ops ir !! x = ops ir' !! x) →
  (∀ b, blocks ir !! b = blocks ir' !! b) →
  ir = ir'.
Proof.
  destruct ir, ir'. simpl. intros Ho Hb. f_equal; by apply map_eq.
Qed.

Lemma filter_not_in_app (l1 l2 l : list positive) :
  filter (λ o, o ∉ l2) (filter (λ o, o ∉ l1) l) = filter (λ o, o ∉ l1 ++ l2) l.
Proof.
  induction l as [| x l IH]; [done |].
  rewrite !filter_cons.
  destruct (decide (x ∉ l1)) as [H1 | H1].
  - rewrite filter_cons. destruct (decide (x ∉ l2)) as [H2 | H2].
    + rewrite decide_True by (rewrite elem_of_app; tauto). by rewrite IH.
    + rewrite decide_False by (rewrite elem_of_app; tauto). done.
  - rewrite decide_False by (rewrite elem_of_app; tauto). done.
Qed.

(** Erasing in two rounds erases the union. *)
Lemma eraseAll_app l1 l2 ir :
  eraseAll l2 (eraseAll l1 ir) = eraseAll (l1 ++ l2) ir.
Proof.
  apply IR_eq.
  - intros x. rewrite !lookup_eraseAll.
    destruct (decide (x ∈ l2)) as [H2 | H2];
      [by rewrite decide_True by (apply elem_of_app; by right) |].
    destruct (decide (x ∈ l1)) as [H1 | H1].
    + by rewrite decide_True by (apply elem_of_app; by left).
    + by rewrite decide_False by (rewrite elem_of_app; tauto).
  - intros b. rewrite !blocks_eraseAll.
    destruct (blocks ir !! b) as [l |]; simpl; [| done].
    by rewrite filter_not_in_app.
Qed.

(** Inserting at the start of a block. *)
Lemma insertBefore_head n l : insertBefore (head l) n l = n :: l.
Proof. destruct l as [| x l]; simpl; [done |]. by rewrite decide_True. Qed.

(** Inserting before an operation of the block. *)
Lemma insertBefore_at pre t post d :
  t ∉ pre →
  insertBefore (Some t) d (pre ++ t :: post) = pre ++ d :: t :: post.
Proof.
  induction pre as [| x pre IH]; intros Ht; simpl.
  - by rewrite decide_True.
  - rewrite decide_False by (intros [= ->]; apply Ht; left).
    rewrite IH; [done |]. intros ?. apply Ht. by right.
Qed.

Lemma lookup_replaceAllUsesWith o newValues ir x :
  ops (replaceAllUsesWith o newValues ir) !! x
  = (λ op, mkOperation (mapOperands (replaceResults o newValues) (kind op))
                       (getBlock op)) <$> ops ir !! x.
Proof. unfold replaceAllUsesWith. simpl. by rewrite lookup_fmap. Qed.

(** After the replacement no operand is a result of [o] that had a
    replacement, unless the replacement itself is such a result. *)
Lemma replaceResults_fresh o v w :
  getDefiningOp v ≠ Some o →
  replaceResults o [v] w ≠ OpResult o 0.
Proof.
  intros Hv. destruct w as [o' i | b i]; simpl; [| done].
  case_decide as Ho; [| congruence].
  subst o'. destruct i as [| i]; simpl; [| done].
  intros ->. by apply Hv.
Qed.

Lemma replaceResults_other o newValues w :
  getDefiningOp w ≠ Some o → replaceResults o newValues w = w.
Proof.
  destruct w as [o' i | b i]; simpl; [| done].
  intros Hw. by rewrite decide_False by congruence.
Qed.

(** The new identity of [create] is not that of a live operation. *)
Lemma fresh_not_live (ir : IR) : ops ir !! fresh (dom (ops ir)) = None.
Proof. apply not_elem_of_dom, is_fresh. Qed.

End IRFacts.

(** ** The fusion legality gate *)

Module FusionGateProps.
Import IR FusionGate.

#[local] Arguments addOperands : simpl never.
#[local] Arguments SetVector.insert_range : simpl never.
#[local] Arguments SetVector.remove : simpl never.

Lemma addOperands_live ir o op operandSet :
  ops ir !! o = Some op →
  addOperands ir (Some o) operandSet
  = Some (SetVector.insert_range (inputOperands (kind op)) operandSet).
Proof.
  intros Ho. unfold addOperands. rewrite Ho. simpl. by destruct (kind op).
Qed.

Lemma fusedOpOperands_NoDup c p producer :
  NoDup (fusedOpOperands c p producer).
Proof.
  apply SetVectorFacts.NoDup_insert_range, SetVectorFacts.NoDup_remove,
    SetVectorFacts.NoDup_insert_range, NoDup_nil_2.
Qed.

Lemma fusedOpOperands_set c p producer :
  list_to_set (fusedOpOperands c p producer)
  = fusedOperandSet c (OpResult producer 0) p.
Proof.
  apply set_eq. intros x. unfold fusedOperandSet, inputOperandSet.
  rewrite elem_of_list_to_set. unfold fusedOpOperands.
  rewrite SetVectorFacts.elem_of_insert_range, SetVectorFacts.elem_of_remove,
    SetVectorFacts.elem_of_insert_range.
  rewrite elem_of_union, elem_of_difference, !elem_of_list_to_set,
    elem_of_singleton, elem_of_nil.
  tauto.
Qed.

Lemma fusedOpOperands_size c p producer :
  SetVector.size (fusedOpOperands c p producer)
  = size (fusedOperandSet c (OpResult producer 0) p).
Proof.
  rewrite SetVectorFacts.size_as_set by apply fusedOpOperands_NoDup.
  by rewrite fusedOpOperands_set.
Qed.

(** The gate on a candidate whose consumer and producer are live. *)
Lemma gate_unfold limit ir fusedOperand v producer p c :
  get ir fusedOperand = Some v →
  getDefiningOp v = Some producer →
  ops ir !! producer = Some p →
  ops ir !! getOwner fusedOperand = Some c →
  setFusedOpOperandLimit limit ir fusedOperand
  = Some (bool_decide (getNumResults (kind p) = 1) &&
          bool_decide
            (Z.of_nat (size (fusedOperandSet (kind c) (OpResult producer 0)
                               (kind p))) ≤ to_size_t limit)%Z).
Proof.
  intros Hv Hd Hp Hc. unfold setFusedOpOperandLimit.
  rewrite Hv. simpl. rewrite Hd, Hp. simpl.
  destruct (decide (getNumResults (kind p) = 1)) as [H1 | H1].
  - rewrite (bool_decide_eq_false_2 (getNumResults (kind p) ≠ 1)) by tauto.
    rewrite (bool_decide_eq_true_2 _ H1).
    rewrite (addOperands_live _ _ c) by done. simpl.
    rewrite (addOperands_live _ _ p) by done. simpl.
    fold (fusedOpOperands (kind c) (kind p) producer).
    by rewrite fusedOpOperands_size.
  - rewrite (bool_decide_eq_true_2 (getNumResults (kind p) ≠ 1)) by done.
    by rewrite (bool_decide_eq_false_2 _ H1).
Qed.

Lemma to_size_t_nonneg limit :
  (0 ≤ limit < 2 ^ 31)%Z → to_size_t limit = limit.
Proof. intros ?. unfold to_size_t. apply Z.mod_small. lia. Qed.

(** C1.  For a candidate whose consumer and producer are live operations
    and a limit [L] the gate can be configured with (the template argument,
    an [int] that is not negative; the file instantiates it at 3 only), the
    gate answers, and it answers [true] exactly when the producer yields one
    result and the deduplicated operand set (the consumer's input operands
    without the producer's result, united with the producer's input
    operands) has at most [L] elements; so a candidate whose producer does
    not yield exactly one result is rejected. *)
Theorem gate_true_iff (limit : Z) ir fusedOperand v producer p c :
  (0 ≤ limit < 2 ^ 31)%Z →
  get ir fusedOperand = Some v →
  getDefiningOp v = Some producer →
  ops ir !! producer = Some p →
  ops ir !! getOwner fusedOperand = Some c →
  ∃ b, setFusedOpOperandLimit limit ir fusedOperand = Some b ∧
       (b = true ↔
        getNumResults (kind p) = 1 ∧
        (Z.of_nat (size (fusedOperandSet (kind c) (OpResult producer 0)
                           (kind p))) ≤ limit)%Z).
Proof.
  intros HL Hv Hd Hp Hc. eexists. split; [by eapply gate_unfold |].
  rewrite to_size_t_nonneg by done.
  rewrite andb_true_iff, !bool_decide_eq_true. tauto.
Qed.

(** C9.  The answer of the gate is a function of the limit, the operand
    slot, and the two operations the slot connects: on any two stores that
    hold the same consumer and the same producer the answers coincide,
    whatever else the stores contain.  The gate returns a boolean only, so
    no call can affect a later one. *)
Theorem gate_reads_only_its_argument (limit : Z) ir ir' fusedOperand :
  ops ir !! getOwner fusedOperand = ops ir' !! getOwner fusedOperand →
  (∀ v producer, get ir fusedOperand = Some v →
     getDefiningOp v = Some producer →
     ops ir !! producer = ops ir' !! producer) →
  setFusedOpOperandLimit limit ir fusedOperand
  = setFusedOpOperandLimit limit ir' fusedOperand.
Proof.
  intros Hc Hp.
  assert (Hget : get ir fusedOperand = get ir' fusedOperand)
    by (unfold get; by rewrite Hc).
  unfold setFusedOpOperandLimit. rewrite <- Hget.
  destruct (get ir fusedOperand) as [v |] eqn:Hv; simpl; [| done].
  destruct (getDefiningOp v) as [producer |] eqn:Hd; [| done].
  rewrite <- (Hp v producer eq_refl Hd).
  destruct (ops ir !! producer) as [p |] eqn:Hprod; simpl; [| done].
  case_bool_decide; [done |].
  unfold addOperands. rewrite <- Hc.
  destruct (ops ir !! getOwner fusedOperand) as [c |]; simpl; [| done].
  rewrite <- (Hp v producer eq_refl Hd), Hprod. done.
Qed.

(** Cardinal of the fused operand set when the inputs on each side are
    distinct and the two sides share nothing: the inputs of the producer and
    the inputs of the consumer other than the producer's result. *)
Lemma fusedOperandSet_size_disjoint c p (r : Value) :
  NoDup (inputOperands p) →
  NoDup (inputOperands c) →
  (∀ x, x ∈ inputOperands p → x ∉ inputOperands c) →
  size (fusedOperandSet c r p)
  = length (inputOperands p)
    + length (SetVector.remove r (inputOperands c)).
Proof.
  intros Hp Hc Hdisj. unfold fusedOperandSet, inputOperandSet.
  assert (Hrem : list_to_set (inputOperands c) ∖ {[r]}
                 = (list_to_set (SetVector.remove r (inputOperands c))
                     : gset Value)).
  { apply set_eq. intros x.
    rewrite elem_of_difference, !elem_of_list_to_set, elem_of_singleton.
    by rewrite SetVectorFacts.elem_of_remove. }
  rewrite Hrem, size_union.
  - rewrite !size_list_to_set;
      [lia | done | by apply SetVectorFacts.NoDup_remove].
  - intros x Hx Hx'. apply elem_of_list_to_set in Hx, Hx'.
    apply SetVectorFacts.elem_of_remove in Hx as [Hx _]. by apply (Hdisj x).
Qed.

(** C6 (amended).  With the limit 3, when the fused operand is the
    producer's single result, the inputs on each side are distinct and the
    two sides share none: the fused operand set has as many elements as the
    producer has inputs plus the consumer has inputs other than the
    producer's result; a producer with 1 input and a consumer with 2 such
    inputs pass the gate (3 operands); any such pair with 4 operands in all,
    in particular the same pair with one more distinct operand on either
    side, is refused. *)
Theorem gate_boundary ir fusedOperand producer p c :
  get ir fusedOperand = Some (OpResult producer 0) →
  ops ir !! producer = Some p →
  ops ir !! getOwner fusedOperand = Some c →
  getNumResults (kind p) = 1 →
  NoDup (inputOperands (kind p)) →
  NoDup (inputOperands (kind c)) →
  (∀ x, x ∈ inputOperands (kind p) → x ∉ inputOperands (kind c)) →
  let producerInputs := length (inputOperands (kind p)) in
  let otherConsumerInputs :=
    length (SetVector.remove (OpResult producer 0)
              (inputOperands (kind c))) in
  size (fusedOperandSet (kind c) (OpResult producer 0) (kind p))
  = producerInputs + otherConsumerInputs ∧
  (producerInputs = 1 → otherConsumerInputs = 2 →
   setFusedOpOperandLimit 3 ir fusedOperand = Some true) ∧
  (producerInputs + otherConsumerInputs = 4 →
   setFusedOpOperandLimit 3 ir fusedOperand = Some false).
Proof.
  intros Hv Hp Hc H1 Hnp Hnc Hdisj producerInputs otherConsumerInputs.
  pose proof (fusedOperandSet_size_disjoint _ _ (OpResult producer 0)
                Hnp Hnc Hdisj) as Hsz.
  fold producerInputs otherConsumerInputs in Hsz.
  split; [done |].
  rewrite (gate_unfold 3 ir fusedOperand _ producer p c Hv eq_refl Hp Hc).
  rewrite Hsz, (bool_decide_eq_true_2 _ H1). simpl.
  split.
  - intros -> ->. done.
  - intros ->. done.
Qed.

End FusionGateProps.

(** ** [transform::ApplyPatternsOp] *)

Module ApplyPatternsProps.
Import IR Transform ApplyPatterns.

(** A traversal whose callback changes nothing on the live operations of
    the requested type changes nothing. *)
Lemma walkWith_fixed_on {S : Type} (payload : S → IR) OpTy
    (callback : positive → S → S) root s :
  (∀ o op, o ∈ walk (payload s) root → ops (payload s) !! o = Some op →
           OpTy (kind op) = true → callback o s = s) →
  walkWith payload OpTy callback root s = s.
Proof.
  unfold walkWith. generalize (walk (payload s) root) as visit.
  induction visit as [| o visit IH]; intros Hcb; simpl; [done |].
  assert (Hstep : match ops (payload s) !! o with
                  | Some op => if OpTy (kind op) then callback o s else s
                  | None => s
                  end = s).
  { destruct (ops (payload s) !! o) as [op |] eqn:Ho; [| done].
    destruct (OpTy (kind op)) eqn:Hty; [| done].
    apply (Hcb o op); [left | done | done]. }
  rewrite Hstep. apply IH. intros o' op' Ho'. apply Hcb. by right.
Qed.

(** The traversal of the [cse] branch never stops early and leaves the
    payload as it found it. *)
Lemma cse_walk_advances visit ir last :
  ∃ last',
    walkUntil (S := IR * option positive) fst isFuncOp
      (λ funcOp '(ir, _), (advance, (ir, Some funcOp))) visit (ir, last)
    = (advance, (ir, last')).
Proof.
  revert last. induction visit as [| o visit IH]; intros last; simpl.
  - by eexists.
  - destruct (ops ir !! o) as [op |]; [| apply IH].
    destruct (isFuncOp (kind op)); apply IH.
Qed.

Lemma csePhase_noop target result ir :
  csePhase target result ir = Some (None, ir).
Proof.
  unfold csePhase, walkInterruptible. simpl.
  destruct (cse_walk_advances (walk ir target) ir None) as [last' ->].
  done.
Qed.

Section host.
Variable applyOpPatternsAndFold :
  list positive → list Pattern → IR → LogicalResult * IR.
Variable moveLoopInvariantCode : positive → IR → IR.
Variable promoteIfSingleIteration : positive → IR → LogicalResult * IR.

#[local] Abbreviation applyToOne :=
  (applyToOne applyOpPatternsAndFold moveLoopInvariantCode
              promoteIfSingleIteration).

(** C2.  On a live target without the isolated-from-above trait the op
    returns, for every setting of its attributes and whatever the host
    engine would do, a definite failure attached to the target, an empty
    result list and the payload it was given. *)
Theorem not_isolated_fails (self : ApplyPatternsOp) target targetOp ir :
  ops ir !! target = Some targetOp →
  hasTraitIsIsolatedFromAbove (kind targetOp) = false →
  applyToOne self target ir
  = Some (DefiniteFailure target
            "applies only to isolated-from-above targets because it needs to apply patterns greedily",
          [], ir).
Proof.
  intros Hlive Hiso. unfold ApplyPatterns.applyToOne.
  rewrite Hlive. simpl. by rewrite Hiso.
Qed.

Lemma withCse_getCse self : withCse (getCse self) self = self.
Proof. by destruct self. Qed.

(** The [cse] attribute takes no part in assembling the pattern set. *)
Lemma populatePatterns_withCse b self :
  populatePatterns (withCse b self) = populatePatterns self.
Proof. reflexivity. Qed.

(** C7.  The [cse] branch never fails and returns the payload it was given,
    whatever the target, the outcome of the greedy driver and the payload;
    and [applyToOne] gives the same diagnostic, results and payload with the
    [cse] attribute set as with it cleared. *)
Theorem cse_has_no_effect (self : ApplyPatternsOp) target ir :
  (∀ result ir', csePhase target result ir' = Some (None, ir')) ∧
  applyToOne (withCse true self) target ir
  = applyToOne (withCse false self) target ir.
Proof.
  split; [intros; apply csePhase_noop |].
  unfold ApplyPatterns.applyToOne.
  rewrite !populatePatterns_withCse.
  destruct (ops ir !! target) as [targetOp |]; simpl; [| done].
  destruct (hasTraitIsIsolatedFromAbove (kind targetOp)); simpl; [| done].
  destruct (applyOpPatternsAndFold _ _ ir) as [result ir1].
  destruct (failed result); [done |].
  by rewrite csePhase_noop.
Qed.

(** A successful run has the target as its single result. *)
Lemma success_results self target ir results ir' :
  applyToOne self target ir = Some (Success, results, ir') →
  results = [target].
Proof.
  unfold ApplyPatterns.applyToOne.
  destruct (ops ir !! target) as [targetOp |]; simpl; [| done].
  destruct (hasTraitIsIsolatedFromAbove (kind targetOp)); simpl; [| done].
  destruct (applyOpPatternsAndFold _ _ ir) as [result ir1].
  destruct (failed result); [done |].
  destruct (getCse self); [| by intros [= <- _]].
  rewrite csePhase_noop. simpl. by intros [= <- _].
Qed.

End host.

Section fixpoint.
Variable applyOpPatternsAndFold :
  list positive → list Pattern → IR → LogicalResult * IR.
Variable moveLoopInvariantCode : positive → IR → IR.
Variable promoteIfSingleIteration : positive → IR → LogicalResult * IR.
Variable hasRewrite : list Pattern → IR → positive → bool.
Variable hasInvariantCode : IR → positive → bool.
Variable hasSingleIteration : IR → positive → bool.

#[local] Abbreviation applyToOne :=
  (applyToOne applyOpPatternsAndFold moveLoopInvariantCode
              promoteIfSingleIteration).
#[local] Abbreviation AtFixpoint :=
  (AtFixpoint hasRewrite hasInvariantCode hasSingleIteration).

(** The loops the [licm] branch visits are those under the [func.func]
    operations under the target; when none of them has code to move or runs
    exactly once, the branch leaves the payload as it is. *)
Lemma licmPhase_fixed target ir :
  MovesInvariantCodeOnly hasInvariantCode moveLoopInvariantCode →
  PromotesSingleIterationOnly hasSingleIteration promoteIfSingleIteration →
  (∀ funcOp func loop loopOp,
     funcOp ∈ walk ir target → ops ir !! funcOp = Some func →
     isFuncOp (kind func) = true →
     loop ∈ walk ir funcOp → ops ir !! loop = Some loopOp →
     (isLoopLike (kind loopOp) = true → hasInvariantCode ir loop = false) ∧
     (isAffineForOrScfFor (kind loopOp) = true →
      hasSingleIteration ir loop = false)) →
  licmPhase moveLoopInvariantCode promoteIfSingleIteration target ir = ir.
Proof.
  intros Hmove Hpromote Hfix. unfold licmPhase.
  apply (walkWith_fixed_on id). intros funcOp func Hf Hfunc Hisf.
  unfold licmFunc.
  assert (Hm : walkWith id isLoopLike moveLoopInvariantCode funcOp ir = ir).
  { apply (walkWith_fixed_on id). intros loop loopOp Hl Hloop Hlike.
    apply Hmove.
    by destruct (Hfix funcOp func loop loopOp Hf Hfunc Hisf Hl Hloop)
      as [H _]; apply H. }
  rewrite Hm.
  apply (walkWith_fixed_on id). intros loop loopOp Hl Hloop Hfor.
  rewrite Hpromote; [done |].
  by destruct (Hfix funcOp func loop loopOp Hf Hfunc Hisf Hl Hloop)
    as [_ H]; apply H.
Qed.

(** C8.  Let the engines of the host keep their contracts: the greedy
    driver converges without a change on a worklist it has no work on,
    loop-invariant code motion moves invariant code only, promotion touches
    only loops that run once.  On a live isolated target and a payload at
    a fixpoint of the configured pipeline (no operation under the target
    the driver has work on; with [licm], no loop under a [func.func] of the
    target with code to move or a single iteration), the op succeeds,
    returns the target as its single result and leaves the payload
    unchanged, for every setting of the attributes.  So when such a payload
    is the output of a successful run, a second run returns what that run
    returned. *)
Theorem fixpoint_run_is_noop (self : ApplyPatternsOp) target targetOp ir :
  ConvergesWithoutWork hasRewrite applyOpPatternsAndFold →
  MovesInvariantCodeOnly hasInvariantCode moveLoopInvariantCode →
  PromotesSingleIterationOnly hasSingleIteration promoteIfSingleIteration →
  ops ir !! target = Some targetOp →
  hasTraitIsIsolatedFromAbove (kind targetOp) = true →
  AtFixpoint self target ir →
  applyToOne self target ir = Some (Success, [target], ir) ∧
  (∀ ir0 results,
     applyToOne self target ir0 = Some (Success, results, ir) →
     applyToOne self target ir = Some (Success, results, ir)).
Proof.
  intros Hdriver Hmove Hpromote Hlive Hiso [Hwork Hlicm].
  assert (Hrun : applyToOne self target ir = Some (Success, [target], ir)).
  { unfold ApplyPatterns.applyToOne.
    rewrite Hlive. simpl. rewrite Hiso. simpl.
    rewrite (Hdriver _ _ _ Hwork). simpl.
    assert (Hl : (if getLicm self
                  then licmPhase moveLoopInvariantCode
                         promoteIfSingleIteration target ir
                  else ir) = ir).
    { destruct (getLicm self); [| done]. by apply licmPhase_fixed, Hlicm. }
    rewrite Hl. destruct (getCse self); [| done].
    by rewrite csePhase_noop. }
  split; [done |].
  intros ir0 results Hfirst.
  by rewrite (success_results _ _ _ _ _ _ _ _ Hfirst).
Qed.

End fixpoint.

End ApplyPatternsProps.

(** ** [transform::HoistStaticAllocOp] *)

Module HoistAllocProps.
Import IR Transform HoistAlloc IRFacts.

#[local] Arguments insertOp : simpl never.
#[local] Arguments eraseAll : simpl never.
#[local] Arguments replaceAllUsesWith : simpl never.
#[local] Arguments withDealloc : simpl never.

(** *** The builder primitives *)

Lemma bind_Some {A B : Type} (m : M A) (f : A → M B) s a s' :
  m s = Some (a, s') → (m ≫= f) s = f a s'.
Proof. intros Hm. unfold mbind, M_bind. by rewrite Hm. Qed.

Lemma deref_live o op s :
  ops (payload s) !! o = Some op → deref o s = Some (op, s).
Proof. intros Ho. unfold deref, mbind, M_bind, getPayload, liftOption.
  by rewrite Ho. Qed.

Lemma eraseAll_nil ir : eraseAll [] ir = ir.
Proof.
  apply IR_eq.
  - intros x. rewrite lookup_eraseAll. by rewrite decide_False by set_solver.
  - intros b. rewrite blocks_eraseAll.
    destruct (blocks ir !! b) as [l |]; simpl; [| done]. f_equal.
    induction l as [| x l IH]; [done |].
    rewrite filter_cons, decide_True by set_solver. by rewrite IH.
Qed.

Lemma eraseOp_leaf o op s :
  ops (payload s) !! o = Some op →
  getRegions (kind op) = [] →
  eraseOp o s
  = Some (tt, mkBuilder (eraseAll [o] (payload s)) (insertionPoint s)).
Proof.
  intros Ho Hr. unfold eraseOp.
  rewrite (bind_Some _ _ _ _ _ (deref_live _ _ _ Ho)).
  unfold modifyPayload, erase. by rewrite (walk_leaf _ _ _ Ho Hr).
Qed.

(** Erasing, one after the other, distinct live operations without
    regions. *)
Lemma forEach_eraseOp l : ∀ s,
  NoDup l →
  (∀ o, o ∈ l → ∃ op, ops (payload s) !! o = Some op ∧
                       getRegions (kind op) = []) →
  forEach eraseOp l s
  = Some (tt, mkBuilder (eraseAll l (payload s)) (insertionPoint s)).
Proof.
  induction l as [| o l IH]; intros s Hnd Hlive; simpl.
  - rewrite eraseAll_nil. by destruct s.
  - apply NoDup_cons in Hnd as [Ho Hnd].
    destruct (Hlive o) as (op & Hop & Hr); [left |].
    rewrite (bind_Some _ _ _ _ _ (eraseOp_leaf _ _ _ Hop Hr)).
    rewrite IH.
    + cbn [payload insertionPoint]. by rewrite eraseAll_app.
    + done.
    + intros o' Ho'. destruct (Hlive o') as (op' & Hop' & Hr'); [by right |].
      exists op'. split; [| done]. cbn [payload].
      rewrite lookup_eraseAll, decide_False; [done |].
      intros ?%list_elem_of_singleton. by subst.
Qed.

Lemma replaceOp_leaf o op newValues s :
  ops (payload s) !! o = Some op →
  getRegions (kind op) = [] →
  replaceOp o newValues s
  = Some (tt, mkBuilder
                (eraseAll [o] (replaceAllUsesWith o newValues (payload s)))
                (insertionPoint s)).
Proof.
  intros Ho Hr. unfold replaceOp.
  rewrite (bind_Some _ _ _ _ _ (deref_live _ _ _ Ho)).
  unfold modifyPayload, mbind, M_bind, erase. simpl.
  erewrite walk_leaf; [done | |].
  - rewrite lookup_replaceAllUsesWith, Ho. done.
  - simpl. by rewrite getRegions_mapOperands.
Qed.

(** *** The recorded deallocations *)

Lemma deallocUsers_live ir a d :
  d ∈ deallocUsers ir a →
  ∃ op, ops ir !! d = Some op ∧ isDeallocOp (kind op) = true.
Proof.
  unfold deallocUsers. intros [Hd _]%list_elem_of_filter.
  unfold isDealloc in Hd. destruct (ops ir !! d) as [op |]; [| done].
  by exists op.
Qed.

Lemma slotsOf_owner P o op u : u ∈ slotsOf P o op → getOwner u = o.
Proof.
  unfold slotsOf. intros Hu. apply list_elem_of_omap in Hu as ([i w] & _ & Hu).
  destruct (P w); [| done]. by injection Hu as <-.
Qed.

Lemma slotsOf_dealloc P o op :
  isDeallocOp (kind op) = true → length (slotsOf P o op) ≤ 1.
Proof.
  destruct op as [k b]. destruct k; try done. intros _. unfold slotsOf.
  simpl. destruct (P memref); simpl; lia.
Qed.

Lemma NoDup_dealloc_owners ir P (l : list (positive * Operation)) :
  NoDup l.*1 →
  (∀ o op, (o, op) ∈ l → ops ir !! o = Some op) →
  NoDup (filter (λ user, isDealloc ir user = true)
           (getOwner <$> ('(o, op) ← l; slotsOf P o op))).
Proof.
  induction l as [| [o op] l IH]; intros Hnd Hl; csimpl; [constructor |].
  apply NoDup_cons in Hnd as [Ho Hnd].
  rewrite fmap_app, filter_app. apply NoDup_app. split_and!.
  - destruct (isDeallocOp (kind op)) eqn:Hk.
    + pose proof (slotsOf_dealloc P o op Hk) as Hlen.
      apply NoDup_filter.
      destruct (slotsOf P o op) as [| u [| u' us]]; simpl in *;
        [constructor | apply NoDup_singleton | lia].
    + assert (Hnone : filter (λ user, isDealloc ir user = true)
                        (getOwner <$> slotsOf P o op) = []).
      { apply elem_of_nil_inv. intros x [Hd Hx]%list_elem_of_filter.
        apply list_elem_of_fmap in Hx as (u & -> & Hu).
        rewrite (slotsOf_owner _ _ _ _ Hu) in Hd. unfold isDealloc in Hd.
        rewrite (Hl o op) in Hd by left. congruence. }
      rewrite Hnone. constructor.
  - intros x [_ Hx]%list_elem_of_filter [_ Hx']%list_elem_of_filter.
    apply list_elem_of_fmap in Hx as (u & -> & Hu).
    rewrite (slotsOf_owner _ _ _ _ Hu) in Hx'.
    apply list_elem_of_fmap in Hx' as (u' & Heq & Hu').
    apply list_elem_of_bind in Hu' as ([o' op'] & Hu' & Hin).
    rewrite (slotsOf_owner _ _ _ _ Hu') in Heq. subst o'.
    apply Ho. apply list_elem_of_fmap. by exists (o, op').
  - apply IH; [done |]. intros o' op' Hin. apply Hl. by right.
Qed.

Lemma deallocUsers_NoDup ir a : NoDup (deallocUsers ir a).
Proof.
  unfold deallocUsers, getOpUsers, getOpUses.
  apply NoDup_dealloc_owners.
  - apply NoDup_fst_map_to_list.
  - intros o op Hin. by apply elem_of_map_to_list.
Qed.

(** The tail of the loop body once a replacement value is there: replace
    the uses, erase the operation, erase the recorded deallocations. *)
Lemma replace_and_erase a op v deallocOps ir ip :
  ops ir !! a = Some op →
  getRegions (kind op) = [] →
  isDeallocOp (kind op) = false →
  NoDup deallocOps →
  (∀ d, d ∈ deallocOps →
        ∃ dop, ops ir !! d = Some dop ∧ isDeallocOp (kind dop) = true) →
  (replaceOp a [v];; forEach eraseOp deallocOps) (mkBuilder ir ip)
  = Some (tt, mkBuilder (eraseAll (a :: deallocOps)
                           (replaceAllUsesWith a [v] ir)) ip).
Proof.
  intros Ha Hr Hk Hnd Hd.
  rewrite (bind_Some _ _ _ _ _
             (replaceOp_leaf a op [v] (mkBuilder ir ip) Ha Hr)).
  cbn [payload insertionPoint].
  rewrite forEach_eraseOp.
  - cbn [payload insertionPoint]. by rewrite eraseAll_app.
  - done.
  - intros d Hin. destruct (Hd d Hin) as (dop & Hdop & Hdk).
    cbn [payload]. eexists. split.
    + rewrite lookup_eraseAll, decide_False.
      * rewrite lookup_replaceAllUsesWith, Hdop. done.
      * intros ?%list_elem_of_singleton. subst d. congruence.
    + simpl. rewrite getRegions_mapOperands.
      by apply isDeallocOp_no_regions.
Qed.

(** *** Creation of operations *)

Lemma create_spec k ir ip :
  create k (mkBuilder ir ip)
  = Some (fresh (dom (ops ir)),
          mkBuilder (insertOp (fresh (dom (ops ir))) k ip ir) ip).
Proof. reflexivity. Qed.

Lemma lookup_insertOp o k ip ir x :
  ops (insertOp o k ip ir) !! x
  = if decide (x = o) then Some (mkOperation k (ipBlock <$> ip))
    else ops ir !! x.
Proof.
  unfold insertOp. destruct ip as [ip |]; simpl; case_decide as Hx;
    subst; by rewrite ?lookup_insert_eq, ?lookup_insert_ne by done.
Qed.

(** A live operation is still there, unchanged, after a creation. *)
Lemma lookup_insertOp_live k ip ir x op :
  ops ir !! x = Some op →
  ops (insertOp (fresh (dom (ops ir))) k ip ir) !! x = Some op.
Proof.
  intros Hx. rewrite lookup_insertOp, decide_False; [done |].
  intros ->. by rewrite fresh_not_live in Hx.
Qed.

Lemma blockOps_insertOp o k ip ir b :
  blockOps (insertOp o k (Some ip) ir) b
  = if decide (b = ipBlock ip)
    then insertBefore (ipBefore ip) o (blockOps ir b)
    else blockOps ir b.
Proof.
  unfold blockOps, insertOp. simpl. case_decide as Hb.
  - subst. by rewrite lookup_insert_eq.
  - by rewrite lookup_insert_ne.
Qed.

Lemma frontBlock_insertOp k ip ir f b :
  frontBlock ir f = Some b →
  frontBlock (insertOp (fresh (dom (ops ir))) k ip ir) f = Some b.
Proof.
  unfold frontBlock. intros Hf.
  destruct (ops ir !! f) as [op |] eqn:Hop; [| done].
  by rewrite (lookup_insertOp_live _ _ _ _ _ Hop).
Qed.

Lemma last_insertBefore x n l :
  x ∈ l → last (insertBefore (Some x) n l) = last l.
Proof.
  induction l as [| y l IH]; intros Hx; [by apply elem_of_nil in Hx |].
  simpl. case_decide as Hy; [done |].
  apply elem_of_cons in Hx as [-> | Hx]; [done |].
  specialize (IH Hx). destruct l as [| z l]; [by apply elem_of_nil in Hx |].
  simpl in *. case_decide; simpl in *; done.
Qed.

(** The terminator of a block survives a creation elsewhere, at the start
    of the block, or before an operation of the block. *)
Lemma getTerminator_insertOp k ip ir b t :
  getTerminator ir b = Some t →
  ipBlock ip ≠ b ∨ ipBefore ip = head (blockOps ir b) ∨
    (∃ x, ipBefore ip = Some x ∧ x ∈ blockOps ir b) →
  getTerminator (insertOp (fresh (dom (ops ir))) k (Some ip) ir) b = Some t.
Proof.
  unfold getTerminator. intros Ht Hip.
  destruct (last (blockOps ir b)) as [t' |] eqn:Hlast; [| done].
  simpl in Ht. destruct (ops ir !! t') as [top |] eqn:Htop; [| done].
  assert (Hl : last (blockOps (insertOp (fresh (dom (ops ir))) k (Some ip) ir)
                       b) = Some t').
  { rewrite blockOps_insertOp. case_decide as Hb; [| done].
    destruct Hip as [Hne | [Hhd | (x & Hx & Hin)]]; [congruence | |].
    - rewrite Hhd, insertBefore_head.
      destruct (blockOps ir b); [done |]. done.
    - rewrite Hx. by rewrite last_insertBefore. }
  rewrite Hl. cbn [mbind option_bind].
  by rewrite (lookup_insertOp_live _ _ _ _ _ Htop).
Qed.

Lemma getTerminator_live ir b t :
  getTerminator ir b = Some t →
  t ∈ blockOps ir b ∧
  ∃ top, ops ir !! t = Some top ∧ hasTraitIsTerminator (kind top) = true.
Proof.
  unfold getTerminator. intros Ht.
  destruct (last (blockOps ir b)) as [t' |] eqn:Hlast; [| done].
  simpl in Ht. destruct (ops ir !! t') as [top |] eqn:Htop; [| done].
  simpl in Ht. destruct (hasTraitIsTerminator (kind top)) eqn:Htr; [| done].
  injection Ht as <-. split; [| by exists top].
  apply last_Some in Hlast as [l' ->]. set_solver.
Qed.

(** [createDeallocIfAllocOp] on a function whose entry block ends in a
    live terminator. *)
Lemma createDeallocIfAllocOp_spec K funcOp v ir ip entry t top bt :
  frontBlock ir funcOp = Some entry →
  getTerminator ir entry = Some t →
  ops ir !! t = Some top →
  getBlock top = Some bt →
  createDeallocIfAllocOp K funcOp v (mkBuilder ir ip)
  = Some (tt, mkBuilder (withDealloc K bt t v ir)
                (if decide (K = AllocOp)
                 then Some (mkInsertPoint bt (Some t)) else ip)).
Proof.
  intros Hf Ht Htop Hbt. unfold createDeallocIfAllocOp, withDealloc.
  case_decide; [| done].
  unfold mbind, M_bind, getPayload, liftOption, setInsertionPoint, deref.
  cbn [payload]. rewrite Hf, Ht. unfold mbind, M_bind, getPayload, liftOption.
  cbn [payload]. rewrite Htop, Hbt. reflexivity.
Qed.

End HoistAllocProps.

Module HoistOneProps.
Import IR Transform HoistAlloc IRFacts HoistAllocProps.

#[local] Arguments insertOp : simpl never.
#[local] Arguments eraseAll : simpl never.
#[local] Arguments replaceAllUsesWith : simpl never.
#[local] Arguments withDealloc : simpl never.
#[local] Arguments allocAtEntry : simpl never.
#[local] Arguments subViewBefore : simpl never.

Section hoistOne.
Variable getConstantUpperBoundForIndex : IR → Value → option Z.
Variable K : AllocLikeOpType.

Lemma EntryEndsIn_insertOp ir funcOp entry t bt k ip :
  EntryEndsIn ir funcOp entry t bt →
  ipBlock ip ≠ entry ∨ ipBefore ip = head (blockOps ir entry) ∨
    (∃ x, ipBefore ip = Some x ∧ x ∈ blockOps ir entry) →
  EntryEndsIn (insertOp (fresh (dom (ops ir))) k (Some ip) ir)
    funcOp entry t bt.
Proof.
  intros (Hf & Ht & top & Htop & Hbt) Hip. split_and!.
  - by apply frontBlock_insertOp.
  - by apply getTerminator_insertOp.
  - exists top. split; [| done]. by apply lookup_insertOp_live.
Qed.

Lemma createDealloc_entry funcOp v ir ip entry t bt :
  EntryEndsIn ir funcOp entry t bt →
  createDeallocIfAllocOp K funcOp v (mkBuilder ir ip)
  = Some (tt, mkBuilder (withDealloc K bt t v ir)
                (if decide (K = AllocOp)
                 then Some (mkInsertPoint bt (Some t)) else ip)).
Proof.
  intros (Hf & Ht & top & Htop & Hbt).
  by eapply createDeallocIfAllocOp_spec.
Qed.

(** The static case of the hoisting function in closed form. *)
Lemma hoistOneAt_static funcOp type alignment ir ip entry t bt :
  EntryEndsIn ir funcOp entry t bt →
  hoistOneStaticallyBoundAllocationAt getConstantUpperBoundForIndex K funcOp
    type [] alignment (mkBuilder ir ip)
  = Some (Some (OpResult (fresh (dom (ops ir))) 0),
          mkBuilder (withDealloc K bt t (OpResult (fresh (dom (ops ir))) 0)
                       (allocAtEntry K entry type alignment ir)) ip).
Proof.
  intros Hentry. pose proof Hentry as (Hf & _).
  unfold hoistOneStaticallyBoundAllocationAt. rewrite decide_True by done.
  unfold withInsertionGuard.
  unfold mbind at 1, M_bind at 1, getPayload at 1. cbn [payload].
  unfold mbind at 1, M_bind at 1, liftOption at 1. rewrite Hf.
  unfold mbind at 1, M_bind at 1, setInsertionPointToStart,
    setInsertionPointAt, getPayload.
  unfold mbind at 1, M_bind at 1. cbn [payload].
  unfold mbind at 1, M_bind at 1. rewrite create_spec.
  fold (allocAtEntry K entry type alignment ir).
  unfold mbind at 1, M_bind at 1.
  erewrite createDealloc_entry; [done |].
  apply EntryEndsIn_insertOp; [done |]. right. by left.
Qed.

Lemma lookup_withDealloc_live bt t v ir x op :
  ops ir !! x = Some op → ops (withDealloc K bt t v ir) !! x = Some op.
Proof.
  intros Hx. unfold withDealloc. case_decide; [| done].
  by apply lookup_insertOp_live.
Qed.

Lemma lookup_allocAtEntry_live entry type alignment ir x op :
  ops ir !! x = Some op →
  ops (allocAtEntry K entry type alignment ir) !! x = Some op.
Proof. apply lookup_insertOp_live. Qed.

Lemma lookup_subViewBefore_live b a source offsets sizes strides ir x op :
  ops ir !! x = Some op →
  ops (subViewBefore b a source offsets sizes strides ir) !! x = Some op.
Proof. apply lookup_insertOp_live. Qed.

(** The bounded dynamic case of the hoisting function in closed form, with
    the builder set before the allocation [a] of a block other than the
    entry block. *)
Lemma hoistOneAt_bounded funcOp type dynamicSizes alignment ir entry t bt
    pb a staticShape subviewSizes :
  dynamicSizes ≠ [] →
  boundShape getConstantUpperBoundForIndex ir (getShape type) dynamicSizes
    0 [] [] = Some (Some (staticShape, subviewSizes)) →
  EntryEndsIn ir funcOp entry t bt →
  pb ≠ entry →
  hoistOneStaticallyBoundAllocationAt getConstantUpperBoundForIndex K funcOp
    type dynamicSizes alignment
    (mkBuilder ir (Some (mkInsertPoint pb (Some a))))
  = Some (Some (OpResult (subViewId K entry type alignment staticShape ir) 0),
          mkBuilder (boundedHoist K entry t bt pb a type alignment staticShape
                       subviewSizes ir)
            (if decide (K = AllocOp) then Some (mkInsertPoint bt (Some t))
             else Some (mkInsertPoint pb (Some a)))).
Proof.
  intros Hdyn Hb Hentry Hpb. pose proof Hentry as (Hf & _).
  unfold hoistOneStaticallyBoundAllocationAt. rewrite decide_False by done.
  unfold mbind at 1, M_bind at 1, getPayload at 1. cbn [payload].
  unfold mbind at 1, M_bind at 1, liftOption at 1. rewrite Hb.
  unfold withInsertionGuard.
  unfold mbind at 1, M_bind at 1.
  unfold mbind at 1, M_bind at 1, getPayload at 1. cbn [payload].
  unfold mbind at 1, M_bind at 1, liftOption at 1. rewrite Hf.
  unfold mbind at 1, M_bind at 1, setInsertionPointToStart,
    setInsertionPointAt, getPayload.
  unfold mbind at 1, M_bind at 1. cbn [payload].
  rewrite create_spec. cbn [payload insertionPoint].
  fold (allocAtEntry K entry
          (MemRefType_get staticShape (getElementType type)) alignment ir).
  unfold mbind at 1, M_bind at 1. rewrite create_spec.
  fold (subViewId K entry type alignment staticShape ir).
  unfold mbind at 1, M_bind at 1.
  erewrite createDealloc_entry; [done |].
  apply EntryEndsIn_insertOp; [| left; done].
  apply EntryEndsIn_insertOp; [done |]. right. by left.
Qed.

(** The dynamic case without a bound: nothing is created. *)
Lemma hoistOneAt_unbounded funcOp type dynamicSizes alignment s :
  dynamicSizes ≠ [] →
  boundShape getConstantUpperBoundForIndex (payload s) (getShape type)
    dynamicSizes 0 [] [] = Some None →
  hoistOneStaticallyBoundAllocationAt getConstantUpperBoundForIndex K funcOp
    type dynamicSizes alignment s
  = Some (None, s).
Proof.
  intros Hdyn Hb.
  unfold hoistOneStaticallyBoundAllocationAt. rewrite decide_False by done.
  unfold mbind at 1, M_bind at 1, getPayload at 1.
  unfold mbind at 1, M_bind at 1, liftOption at 1. by rewrite Hb.
Qed.

(** The wrapper sets the builder before the allocation, under a guard. *)
Lemma hoistOne_unfold funcOp a type dynamicSizes alignment pb ir ip :
  ops ir !! a
  = Some (mkOperation (AllocLike K type dynamicSizes alignment) (Some pb)) →
  hoistOneStaticallyBoundAllocation getConstantUpperBoundForIndex K funcOp a
    (mkBuilder ir ip)
  = match hoistOneStaticallyBoundAllocationAt getConstantUpperBoundForIndex
            K funcOp type dynamicSizes alignment
            (mkBuilder ir (Some (mkInsertPoint pb (Some a)))) with
    | Some (r, s') => Some (r, mkBuilder (payload s') ip)
    | None => None
    end.
Proof.
  intros Ha. unfold hoistOneStaticallyBoundAllocation, withInsertionGuard.
  unfold mbind at 1, M_bind at 1, setInsertionPoint.
  rewrite (bind_Some _ _ _ _ _ (deref_live a _ (mkBuilder ir ip) Ha)).
  cbn [getBlock].
  unfold mbind at 1, M_bind at 1, liftOption at 1, setInsertionPointAt.
  cbn [payload].
  rewrite (bind_Some _ _ _ _ _
             (deref_live a _ (mkBuilder ir (Some (mkInsertPoint pb (Some a))))
                Ha)).
  cbn [kind]. rewrite decide_True by done. done.
Qed.

Lemma lookup_replaced a v dead ir x :
  ops (replaced a v dead ir) !! x
  = if decide (x ∈ dead) then None
    else (λ op, mkOperation (mapOperands (replaceResults a [v]) (kind op))
                            (getBlock op)) <$> ops ir !! x.
Proof.
  unfold replaced. by rewrite lookup_eraseAll, lookup_replaceAllUsesWith.
Qed.

Lemma blockOps_replaced a v dead ir b :
  blockOps (replaced a v dead ir) b = filter (λ o, o ∉ dead) (blockOps ir b).
Proof.
  unfold replaced, blockOps. rewrite blocks_eraseAll.
  unfold replaceAllUsesWith. cbn [blocks].
  by destruct (blocks ir !! b).
Qed.

(** No use of the replaced result is left. *)
Lemma replaced_no_use a v dead ir x op :
  getDefiningOp v ≠ Some a →
  ops (replaced a v dead ir) !! x = Some op →
  OpResult a 0 ∉ operands (kind op).
Proof.
  intros Hv. rewrite lookup_replaced. case_decide; [done |].
  destruct (ops ir !! x) as [op0 |]; [| done]. intros [= <-].
  cbn [kind]. rewrite operands_mapOperands.
  intros (w & Hw & _)%list_elem_of_fmap.
  by eapply replaceResults_fresh.
Qed.

Lemma hoistAndReplace_unfold funcOp a op ir ip :
  ops ir !! a = Some op →
  hoistAndReplace getConstantUpperBoundForIndex K funcOp a (mkBuilder ir ip)
  = match hoistOneStaticallyBoundAllocation getConstantUpperBoundForIndex K
            funcOp a (mkBuilder ir ip) with
    | Some (Some replacementVal, s') =>
        (replaceOp a [replacementVal];;
         forEach eraseOp (deallocUsers ir a)) s'
    | Some (None, s') => Some (tt, s')
    | None => None
    end.
Proof.
  intros Ha. unfold hoistAndReplace.
  rewrite (bind_Some _ _ _ _ _ (deref_live a _ (mkBuilder ir ip) Ha)).
  unfold mbind at 1, M_bind at 1, getPayload at 1. cbn [payload].
  unfold mbind at 1, M_bind at 1.
  destruct (hoistOneStaticallyBoundAllocation _ _ _ _ _) as [[[v |] s'] |];
    done.
Qed.

(** The loop body on a statically shaped allocation, in closed form. *)
Lemma hoistAndReplace_static funcOp a type alignment pb ir ip entry t bt :
  ops ir !! a = Some (mkOperation (AllocLike K type [] alignment) (Some pb)) →
  EntryEndsIn ir funcOp entry t bt →
  hoistAndReplace getConstantUpperBoundForIndex K funcOp a (mkBuilder ir ip)
  = Some (tt, mkBuilder
                (replaced a (OpResult (fresh (dom (ops ir))) 0)
                   (a :: deallocUsers ir a)
                   (staticHoist K entry t bt type alignment ir))
                ip).
Proof.
  intros Ha Hentry.
  rewrite (hoistAndReplace_unfold _ _ _ _ _ Ha).
  rewrite (hoistOne_unfold _ _ _ _ _ _ _ _ Ha).
  rewrite (hoistOneAt_static _ _ _ _ _ _ _ _ Hentry). cbn [payload].
  fold (staticHoist K entry t bt type alignment ir).
  eapply replace_and_erase.
  - apply lookup_withDealloc_live, lookup_allocAtEntry_live, Ha.
  - done.
  - done.
  - apply deallocUsers_NoDup.
  - intros d Hd. destruct (deallocUsers_live _ _ _ Hd) as (dop & Hdop & Hk).
    exists dop. split; [| done].
    by apply lookup_withDealloc_live, lookup_allocAtEntry_live.
Qed.

(** The loop body on a dynamically shaped allocation with bounds, in closed
    form. *)
Lemma hoistAndReplace_bounded funcOp a type dynamicSizes alignment pb ir ip
    entry t bt staticShape subviewSizes :
  ops ir !! a
  = Some (mkOperation (AllocLike K type dynamicSizes alignment) (Some pb)) →
  dynamicSizes ≠ [] →
  boundShape getConstantUpperBoundForIndex ir (getShape type) dynamicSizes
    0 [] [] = Some (Some (staticShape, subviewSizes)) →
  EntryEndsIn ir funcOp entry t bt →
  pb ≠ entry →
  hoistAndReplace getConstantUpperBoundForIndex K funcOp a (mkBuilder ir ip)
  = Some (tt, mkBuilder
                (replaced a
                   (OpResult (subViewId K entry type alignment staticShape ir) 0)
                   (a :: deallocUsers ir a)
                   (boundedHoist K entry t bt pb a type alignment staticShape
                      subviewSizes ir))
                ip).
Proof.
  intros Ha Hdyn Hb Hentry Hpb.
  rewrite (hoistAndReplace_unfold _ _ _ _ _ Ha).
  rewrite (hoistOne_unfold _ _ _ _ _ _ _ _ Ha).
  rewrite (hoistOneAt_bounded _ _ _ _ _ _ _ _ _ _ _ _ Hdyn Hb Hentry Hpb).
  cbn [payload].
  eapply replace_and_erase.
  - apply lookup_withDealloc_live, lookup_subViewBefore_live,
      lookup_allocAtEntry_live, Ha.
  - done.
  - done.
  - apply deallocUsers_NoDup.
  - intros d Hd. destruct (deallocUsers_live _ _ _ Hd) as (dop & Hdop & Hk).
    exists dop. split; [| done].
    by apply lookup_withDealloc_live, lookup_subViewBefore_live,
      lookup_allocAtEntry_live.
Qed.

(** The loop body on a dynamically shaped allocation without bound, in
    closed form: the payload and the builder are as before. *)
Lemma hoistAndReplace_unbounded funcOp a type dynamicSizes alignment pb ir ip :
  ops ir !! a
  = Some (mkOperation (AllocLike K type dynamicSizes alignment) (Some pb)) →
  dynamicSizes ≠ [] →
  boundShape getConstantUpperBoundForIndex ir (getShape type) dynamicSizes
    0 [] [] = Some None →
  hoistAndReplace getConstantUpperBoundForIndex K funcOp a (mkBuilder ir ip)
  = Some (tt, mkBuilder ir ip).
Proof.
  intros Ha Hdyn Hb.
  rewrite (hoistAndReplace_unfold _ _ _ _ _ Ha).
  rewrite (hoistOne_unfold _ _ _ _ _ _ _ _ Ha).
  by rewrite hoistOneAt_unbounded.
Qed.

End hoistOne.
End HoistOneProps.

Module HoistStaticProps.
Import IR Transform HoistAlloc IRFacts HoistAllocProps HoistOneProps.

#[local] Arguments insertOp : simpl never.
#[local] Arguments eraseAll : simpl never.
#[local] Arguments replaceAllUsesWith : simpl never.

Lemma erased_live ir a op x :
  ops ir !! a = Some op →
  x ∈ a :: deallocUsers ir a → is_Some (ops ir !! x).
Proof.
  intros Ha [-> | Hx]%elem_of_cons; [by eexists |].
  destruct (deallocUsers_live _ _ _ Hx) as (dop & -> & _). by eexists.
Qed.


(** An operation with the terminator trait is none of the erased ones. *)
Lemma terminator_not_erased ir a op t top :
  ops ir !! a = Some op → hasTraitIsTerminator (kind op) = false →
  ops ir !! t = Some top → hasTraitIsTerminator (kind top) = true →
  t ∉ a :: deallocUsers ir a.
Proof.
  intros Ha Hk Ht Htr [-> | Hin]%elem_of_cons; [congruence |].
  destruct (deallocUsers_live _ _ _ Hin) as (dop & Hdop & Hd).
  apply isDeallocOp_not_terminator in Hd. congruence.
Qed.

Section static.
Variable getConstantUpperBoundForIndex : IR → Value → option Z.
Variable K : AllocLikeOpType.


End static.
End HoistStaticProps.

Module BoundShapeProps.
Import IR Transform HoistAlloc.

Lemma dynamicIndex_0 shape : dynamicIndex shape 0 = 0.
Proof. by destruct shape. Qed.

Lemma dynamicIndex_S d shape i :
  dynamicIndex (d :: shape) (S i)
  = (if isDynamic d then 1 else 0) + dynamicIndex shape i.
Proof.
  unfold dynamicIndex. simpl. rewrite filter_cons.
  destruct (isDynamic d) eqn:Hd.
  - by rewrite decide_True.
  - by rewrite decide_False.
Qed.

(** In a shape with no more dynamic dimensions than there are size
    operands, every dynamic dimension has its size operand. *)
Lemma dynamicIndex_lt shape i d :
  shape !! i = Some d → isDynamic d = true →
  dynamicIndex shape i < numDynamicDims shape.
Proof.
  intros Hi Hd. unfold dynamicIndex, numDynamicDims.
  rewrite <- (take_drop_middle shape i d Hi) at 2.
  rewrite filter_app, filter_cons, decide_True by done.
  rewrite length_app. simpl. lia.
Qed.

Section boundShape.
Variable getConstantUpperBoundForIndex : IR → Value → option Z.
Variable ir : IR.
Variable dynamicSizes : list Value.

#[local] Abbreviation boundShape :=
  (boundShape getConstantUpperBoundForIndex ir).

#[local] Abbreviation Bounded :=
  (Bounded getConstantUpperBoundForIndex ir dynamicSizes).

Lemma Bounded_cons d shape index x staticShape y subviewSizes :
  (if isDynamic d then
     ∃ v ub, dynamicSizes !! index = Some v ∧
             getConstantUpperBoundForIndex ir v = Some ub ∧
             x = ub ∧ y = OfrValue v
   else x = d ∧ y = IndexAttr d) →
  Bounded shape ((if isDynamic d then 1 else 0) + index) staticShape
    subviewSizes →
  Bounded (d :: shape) index (x :: staticShape) (y :: subviewSizes).
Proof.
  intros Hhd (Hl1 & Hl2 & Htl). split_and!; [simpl; lia | simpl; lia |].
  intros [| i] d' Hi.
  - injection Hi as <-. rewrite dynamicIndex_0, Nat.add_0_r.
    destruct (isDynamic d).
    + destruct Hhd as (v & ub & ? & ? & -> & ->). by exists v, ub.
    + by destruct Hhd as [-> ->].
  - simpl in Hi. specialize (Htl i d' Hi). rewrite dynamicIndex_S. simpl.
    destruct (isDynamic d'); [| done].
    destruct Htl as (v & ub & Hv & ? & ? & ?). exists v, ub.
    split_and!; try done. rewrite <- Hv. f_equal. lia.
Qed.

(** When every dynamic dimension has a size operand with a bound, the loop
    ends with the shape and sizes described by [Bounded]. *)
Lemma boundShape_bounded shape : ∀ index staticShape subviewSizes,
  (∀ i d, shape !! i = Some d → isDynamic d = true →
     ∃ v ub, dynamicSizes !! (index + dynamicIndex shape i) = Some v ∧
             getConstantUpperBoundForIndex ir v = Some ub) →
  ∃ staticShape' subviewSizes',
    boundShape shape dynamicSizes index staticShape subviewSizes
    = Some (Some (staticShape ++ staticShape', subviewSizes ++ subviewSizes'))
    ∧ Bounded shape index staticShape' subviewSizes'.
Proof.
  induction shape as [| d shape IH]; intros index ss sv Hall; simpl.
  - exists [], []. rewrite !app_nil_r. split; [done |].
    split_and!; [done | done |]. intros i d Hi. by rewrite lookup_nil in Hi.
  - destruct (isDynamic d) eqn:Hd; simpl.
    + destruct (Hall 0 d eq_refl Hd) as (v & ub & Hv & Hub).
      rewrite dynamicIndex_0, Nat.add_0_r in Hv. rewrite Hv. simpl.
      rewrite Hub.
      destruct (IH (S index) (ss ++ [ub]) (sv ++ [OfrValue v]))
        as (ss' & sv' & Heq & Hb).
      { intros i d' Hi Hd'. destruct (Hall (S i) d' Hi Hd') as (w & u & Hw & ?).
        rewrite dynamicIndex_S, Hd in Hw. exists w, u. split; [| done].
        rewrite <- Hw. f_equal. lia. }
      exists (ub :: ss'), (OfrValue v :: sv').
      rewrite Heq, <- !app_assoc. split; [done |].
      apply Bounded_cons; rewrite Hd; [by exists v, ub | done].
    + destruct (IH index (ss ++ [d]) (sv ++ [IndexAttr d]))
        as (ss' & sv' & Heq & Hb).
      { intros i d' Hi Hd'. destruct (Hall (S i) d' Hi Hd') as (w & u & Hw & ?).
        rewrite dynamicIndex_S, Hd in Hw. by exists w, u. }
      exists (d :: ss'), (IndexAttr d :: sv').
      rewrite Heq, <- !app_assoc. split; [done |].
      apply Bounded_cons; rewrite Hd; done.
Qed.

(** When every dynamic dimension has a size operand, the loop reads within
    [dynamicSizes]. *)
Lemma boundShape_defined shape : ∀ index staticShape subviewSizes,
  (∀ i d, shape !! i = Some d → isDynamic d = true →
     is_Some (dynamicSizes !! (index + dynamicIndex shape i))) →
  is_Some (boundShape shape dynamicSizes index staticShape subviewSizes).
Proof.
  induction shape as [| d shape IH]; intros index ss sv Hall; simpl; [done |].
  destruct (isDynamic d) eqn:Hd; simpl.
  - destruct (Hall 0 d eq_refl Hd) as (v & Hv).
    rewrite dynamicIndex_0, Nat.add_0_r in Hv. rewrite Hv. simpl.
    destruct (getConstantUpperBoundForIndex ir v); [| done].
    apply IH. intros i d' Hi Hd'. destruct (Hall (S i) d' Hi Hd') as (w & Hw).
    rewrite dynamicIndex_S, Hd in Hw. exists w. rewrite <- Hw. f_equal. lia.
  - apply IH. intros i d' Hi Hd'. destruct (Hall (S i) d' Hi Hd') as (w & Hw).
    rewrite dynamicIndex_S, Hd in Hw. by exists w.
Qed.

(** When some dynamic dimension has a size operand without a bound, the
    loop ends with [std::nullopt]. *)
Lemma boundShape_unbounded shape : ∀ index staticShape subviewSizes,
  (∀ i d, shape !! i = Some d → isDynamic d = true →
     is_Some (dynamicSizes !! (index + dynamicIndex shape i))) →
  (∃ i d v, shape !! i = Some d ∧ isDynamic d = true ∧
            dynamicSizes !! (index + dynamicIndex shape i) = Some v ∧
            getConstantUpperBoundForIndex ir v = None) →
  boundShape shape dynamicSizes index staticShape subviewSizes = Some None.
Proof.
  induction shape as [| d shape IH]; intros index ss sv Hall Hex; simpl.
  - destruct Hex as (i & d & v & Hi & _). by rewrite lookup_nil in Hi.
  - assert (Htail : ∀ k, k = (if isDynamic d then 1 else 0) + index →
              (∀ i d', shape !! i = Some d' → isDynamic d' = true →
                 is_Some (dynamicSizes !! (k + dynamicIndex shape i)))).
    { intros k -> i d' Hi Hd'. destruct (Hall (S i) d' Hi Hd') as (w & Hw).
      rewrite dynamicIndex_S in Hw. exists w. rewrite <- Hw. f_equal. lia. }
    destruct Hex as ([| i] & d' & v & Hi & Hd' & Hv & Hub).
    + injection Hi as <-. rewrite Hd'. simpl.
      rewrite dynamicIndex_0, Nat.add_0_r in Hv. rewrite Hv. simpl.
      by rewrite Hub.
    + simpl in Hi. rewrite dynamicIndex_S in Hv.
      destruct (isDynamic d) eqn:Hd; simpl.
      * destruct (Hall 0 d eq_refl Hd) as (w & Hw).
        rewrite dynamicIndex_0, Nat.add_0_r in Hw. rewrite Hw. simpl.
        destruct (getConstantUpperBoundForIndex ir w); [| done].
        apply IH; [by apply Htail |].
        exists i, d', v. split_and!; try done. rewrite <- Hv. f_equal. lia.
      * apply IH; [by apply Htail |]. by exists i, d', v.
Qed.

End boundShape.
End BoundShapeProps.

Module HoistBoundedProps.
Import IR Transform HoistAlloc IRFacts HoistAllocProps HoistOneProps
  HoistStaticProps BoundShapeProps.

#[local] Arguments insertOp : simpl never.
#[local] Arguments eraseAll : simpl never.
#[local] Arguments replaceAllUsesWith : simpl never.

Lemma blockOps_withDealloc K bt t v ir b :
  blockOps (withDealloc K bt t v ir) b
  = if decide (K = AllocOp ∧ b = bt)
    then insertBefore (Some t) (fresh (dom (ops ir))) (blockOps ir b)
    else blockOps ir b.
Proof.
  unfold withDealloc. destruct (decide (K = AllocOp)) as [HK | HK].
  - rewrite blockOps_insertOp. cbn [ipBlock ipBefore].
    destruct (decide (b = bt)) as [Hb | Hb].
    + by rewrite decide_True.
    + rewrite decide_False; [done | tauto].
  - rewrite decide_False; [done | tauto].
Qed.

(** The recorded sizes mention no value but the size operands. *)
Lemma Bounded_sizes ub ir dynamicSizes shape index staticShape subviewSizes x :
  Bounded ub ir dynamicSizes shape index staticShape subviewSizes →
  x ∈ subviewSizes →
  match x with
  | OfrValue v => v ∈ dynamicSizes
  | IndexAttr _ => True
  end.
Proof.
  intros (_ & Hlen & Hb) (i & Hi)%list_elem_of_lookup.
  destruct (lookup_lt_is_Some_2 shape i) as [d Hd].
  { rewrite <- Hlen. by eapply lookup_lt_Some. }
  specialize (Hb i d Hd). destruct (isDynamic d).
  - destruct Hb as (v & u & Hv & _ & _ & Hx).
    assert (x = OfrValue v) as -> by congruence.
    by eapply list_elem_of_lookup_2.
  - destruct Hb as [_ Hx]. by assert (x = IndexAttr d) as -> by congruence.
Qed.

Lemma mapOfr_unused a newValues (sizes : list OpFoldResult) :
  (∀ x, x ∈ sizes → match x with
                     | OfrValue v => getDefiningOp v ≠ Some a
                     | IndexAttr _ => True
                     end) →
  mapOfr (replaceResults a newValues) <$> sizes = sizes.
Proof.
  induction sizes as [| x sizes IH]; intros Hall; csimpl; [done |].
  rewrite IH by (intros y Hy; apply Hall; by right). f_equal.
  specialize (Hall x (list_elem_of_here _ _)). destruct x as [z | v]; [done |].
  simpl. by rewrite replaceResults_other.
Qed.

Lemma mapOfr_replicate f n z :
  mapOfr f <$> replicate n (IndexAttr z) = replicate n (IndexAttr z).
Proof. by rewrite fmap_replicate. Qed.

Section bounded.
Variable getConstantUpperBoundForIndex : IR → Value → option Z.
Variable K : AllocLikeOpType.

(** One iteration of the hoisting loop on a dynamically shaped allocation
    with bounds.  Let [a] be a live allocation of the hoisted kind with
    dynamic sizes, in a block other than the entry block, every dynamic
    dimension of which has a size operand with a constant upper bound.  The
    loop body then runs to completion and: a new allocation [new] is the
    first operation of the entry block, its shape keeping each static
    dimension and holding the bound for each dynamic one ([Bounded]), with
    no dynamic sizes; a sub-view [subview] of [new] stands where [a] stood,
    with offsets all 0, strides all 1 and as sizes the static extents and
    the size operands of [a]; no operand anywhere is the result of [a], and
    each operand that was is now the result of [subview]; [a] and the
    deallocations that used it are gone; for [memref.alloc] a deallocation
    of [new] sits immediately before the terminator. *)
Lemma hoistAndReplace_bounded_effect funcOp a type dynamicSizes alignment pb
    entry body t pre post ir ip :
  ops ir !! a
  = Some (mkOperation (AllocLike K type dynamicSizes alignment) (Some pb)) →
  dynamicSizes ≠ [] →
  (∀ v, v ∈ dynamicSizes → getDefiningOp v ≠ Some a) →
  (∀ i d, getShape type !! i = Some d → isDynamic d = true →
     ∃ v ub, dynamicSizes !! dynamicIndex (getShape type) i = Some v ∧
             getConstantUpperBoundForIndex ir v = Some ub) →
  pb ≠ entry →
  EntryEndsIn ir funcOp entry t entry →
  blockOps ir entry = body ++ [t] →
  t ∉ body →
  blockOps ir pb = pre ++ a :: post →
  a ∉ pre →
  let new := fresh (dom (ops ir)) in
  let erased := a :: deallocUsers ir a in
  ∃ ir' subview dealloc staticShape subviewSizes,
    hoistAndReplace getConstantUpperBoundForIndex K funcOp a (mkBuilder ir ip)
    = Some (tt, mkBuilder ir' ip) ∧
    Bounded getConstantUpperBoundForIndex ir dynamicSizes (getShape type) 0
      staticShape subviewSizes ∧
    ops ir !! new = None ∧
    ops ir' !! new
    = Some (mkOperation
              (AllocLike K (MemRefType_get staticShape (getElementType type))
                 [] alignment)
              (Some entry)) ∧
    blockOps ir' entry
    = new :: filter (λ o, o ∉ erased) body
        ++ (if decide (K = AllocOp) then [dealloc] else []) ++ [t] ∧
    (K = AllocOp →
     ops ir !! dealloc = None ∧
     ops ir' !! dealloc
     = Some (mkOperation (Dealloc (OpResult new 0)) (Some entry))) ∧
    ops ir !! subview = None ∧
    ops ir' !! subview
    = Some (mkOperation
              (SubView (OpResult new 0)
                 (replicate (getRank type) (IndexAttr 0)) subviewSizes
                 (replicate (getRank type) (IndexAttr 1)))
              (Some pb)) ∧
    blockOps ir' pb
    = filter (λ o, o ∉ erased) pre ++ subview :: filter (λ o, o ∉ erased) post ∧
    (∀ x, x ∈ erased → ops ir' !! x = None) ∧
    (∀ x op, ops ir' !! x = Some op → OpResult a 0 ∉ operands (kind op)) ∧
    (∀ x op, ops ir !! x = Some op → x ∉ erased →
       ops ir' !! x
       = Some (mkOperation
                 (mapOperands (replaceResults a [OpResult subview 0]) (kind op))
                 (getBlock op))).
Proof.
  intros Ha Hdyn Hssa Hbounds Hpb Hentry Hblock Htbody Hpblock Hapre new erased.
  pose proof Hentry as (Hf & Hterm & top & Htop & Hbt).
  destruct (getTerminator_live _ _ _ Hterm) as (_ & top' & Htop' & Htrait).
  assert (top' = top) as -> by congruence.
  destruct (boundShape_bounded getConstantUpperBoundForIndex ir dynamicSizes
              (getShape type) 0 [] [] Hbounds)
    as (staticShape & subviewSizes & Hbs & Hbounded).
  simpl in Hbs.
  set (type' := MemRefType_get staticShape (getElementType type)).
  set (ir1 := allocAtEntry K entry type' alignment ir).
  set (sv := fresh (dom (ops ir1))).
  set (offsets := replicate (getRank type) (IndexAttr 0)).
  set (strides := replicate (getRank type) (IndexAttr 1)).
  set (ir2 := subViewBefore pb a (OpResult new 0) offsets subviewSizes strides
                ir1).
  set (d := fresh (dom (ops ir2))).
  set (ir3 := withDealloc K entry t (OpResult new 0) ir2).
  assert (Hir3 : boundedHoist K entry t entry pb a type alignment staticShape
                   subviewSizes ir = ir3) by reflexivity.
  assert (Hsvid : subViewId K entry type alignment staticShape ir = sv)
    by reflexivity.
  (* liveness and freshness *)
  assert (Hlive1 : ∀ x op, ops ir !! x = Some op → ops ir1 !! x = Some op)
    by (intros; by apply lookup_allocAtEntry_live).
  assert (Hlive2 : ∀ x op, ops ir1 !! x = Some op → ops ir2 !! x = Some op)
    by (intros; by apply lookup_subViewBefore_live).
  assert (Hlive3 : ∀ x op, ops ir2 !! x = Some op → ops ir3 !! x = Some op)
    by (intros; by apply lookup_withDealloc_live).
  assert (Hnew : ops ir !! new = None) by apply fresh_not_live.
  assert (Hsv1 : ops ir1 !! sv = None) by apply fresh_not_live.
  assert (Hd2 : ops ir2 !! d = None) by apply fresh_not_live.
  assert (Hnew1 : ops ir1 !! new
            = Some (mkOperation (AllocLike K type' [] alignment) (Some entry))).
  { unfold ir1, allocAtEntry. rewrite lookup_insertOp. by rewrite decide_True. }
  assert (Hsv2 : ops ir2 !! sv
            = Some (mkOperation
                      (SubView (OpResult new 0) offsets subviewSizes strides)
                      (Some pb))).
  { unfold ir2, subViewBefore. fold sv. rewrite lookup_insertOp.
    by rewrite decide_True. }
  assert (Hsv : ops ir !! sv = None).
  { destruct (ops ir !! sv) as [o |] eqn:Ho; [| done].
    apply Hlive1 in Ho. congruence. }
  assert (Hd : ops ir !! d = None).
  { destruct (ops ir !! d) as [o |] eqn:Ho; [| done].
    apply Hlive1, Hlive2 in Ho. congruence. }
  assert (Hna : fresh (dom (ops ir)) ≠ a).
  { intros Heq. pose proof (fresh_not_live ir) as Hfr. rewrite Heq in Hfr.
    congruence. }
  assert (Hsva : sv ≠ a) by congruence.
  assert (Hsvn : sv ≠ new) by congruence.
  assert (Hdn : d ≠ new).
  { intros Heq. apply Hlive2 in Hnew1. congruence. }
  assert (Hdsv : d ≠ sv) by congruence.
  assert (Hnt : new ≠ t) by congruence.
  assert (Hdt : d ≠ t) by congruence.
  assert (Hfresh_erased : ∀ x, ops ir !! x = None → x ∉ erased).
  { intros x Hx Hin. destruct (erased_live _ _ _ _ Ha Hin) as [? Hl].
    congruence. }
  assert (Ht_erased : t ∉ erased) by (by eapply terminator_not_erased).
  assert (Ha_erased : a ∈ erased) by left.
  (* blocks *)
  assert (Hb1 : blockOps ir1 entry = new :: body ++ [t]).
  { unfold ir1, allocAtEntry. rewrite blockOps_insertOp. cbn [ipBlock ipBefore].
    rewrite decide_True by done. by rewrite insertBefore_head, Hblock. }
  assert (Hp1 : blockOps ir1 pb = pre ++ a :: post).
  { unfold ir1, allocAtEntry. rewrite blockOps_insertOp. cbn [ipBlock ipBefore].
    by rewrite decide_False. }
  assert (Hb2 : blockOps ir2 entry = new :: body ++ [t]).
  { unfold ir2, subViewBefore. rewrite blockOps_insertOp.
    cbn [ipBlock ipBefore]. by rewrite decide_False. }
  assert (Hp2 : blockOps ir2 pb = pre ++ sv :: a :: post).
  { unfold ir2, subViewBefore. fold sv. rewrite blockOps_insertOp.
    cbn [ipBlock ipBefore]. rewrite decide_True by done. rewrite Hp1.
    by rewrite insertBefore_at. }
  assert (Hb3 : blockOps ir3 entry
            = new :: body ++ (if decide (K = AllocOp) then [d] else [])
                ++ [t]).
  { unfold ir3. rewrite blockOps_withDealloc. fold d.
    destruct (decide (K = AllocOp)) as [HK | HK].
    - rewrite decide_True by done. rewrite Hb2.
      change (new :: body ++ [t]) with ((new :: body) ++ [t]).
      rewrite insertBefore_at; [done |].
      intros [-> | ?]%elem_of_cons; done.
    - rewrite decide_False by tauto. done. }
  assert (Hp3 : blockOps ir3 pb = pre ++ sv :: a :: post).
  { unfold ir3. rewrite blockOps_withDealloc.
    rewrite decide_False; [done |]. intros [_ ?]. done. }
  exists (replaced a (OpResult sv 0) erased ir3), sv, d, staticShape,
    subviewSizes.
  split.
  { rewrite <- Hir3, <- Hsvid. by eapply hoistAndReplace_bounded. }
  split_and!.
  - done.
  - done.
  - rewrite lookup_replaced, decide_False by (by apply Hfresh_erased).
    by rewrite (Hlive3 _ _ (Hlive2 _ _ Hnew1)).
  - rewrite blockOps_replaced, Hb3.
    assert (Hft : filter (λ o, o ∉ erased) [t] = [t])
      by (by rewrite filter_cons, decide_True by done).
    assert (Hfd : filter (λ o, o ∉ erased)
                    (if decide (K = AllocOp) then [d] else [])
                  = if decide (K = AllocOp) then [d] else []).
    { case_decide; [| done].
      by rewrite filter_cons, decide_True by (by apply Hfresh_erased). }
    rewrite filter_cons, decide_True by (by apply Hfresh_erased).
    by rewrite !filter_app, Hft, Hfd.
  - intros HK. split; [done |].
    rewrite lookup_replaced, decide_False by (by apply Hfresh_erased).
    unfold ir3, withDealloc. fold d.
    rewrite decide_True by done. rewrite lookup_insertOp, decide_True by done.
    cbn. by rewrite decide_False.
  - done.
  - rewrite lookup_replaced, decide_False by (by apply Hfresh_erased).
    rewrite (Hlive3 _ _ Hsv2). cbn.
    rewrite decide_False by done.
    unfold offsets, strides. rewrite !mapOfr_replicate.
    rewrite mapOfr_unused; [done |].
    intros x Hx. pose proof (Bounded_sizes _ _ _ _ _ _ _ x Hbounded Hx) as Hin.
    destruct x as [z | v]; [done |]. by apply Hssa.
  - rewrite blockOps_replaced, Hp3.
    rewrite filter_app, filter_cons, decide_True by (by apply Hfresh_erased).
    by rewrite filter_cons, decide_False by tauto.
  - intros x Hx. by rewrite lookup_replaced, decide_True.
  - intros x op. apply replaced_no_use. cbn. congruence.
  - intros x op Hx Hne. rewrite lookup_replaced, decide_False by done.
    by rewrite (Hlive3 _ _ (Hlive2 _ _ (Hlive1 _ _ Hx))).
Qed.

End bounded.
End HoistBoundedProps.

Module HoistFuncProps.
Import IR Transform HoistAlloc IRFacts HoistAllocProps HoistOneProps
  HoistStaticProps BoundShapeProps HoistBoundedProps.

#[local] Arguments insertOp : simpl never.
#[local] Arguments eraseAll : simpl never.
#[local] Arguments replaceAllUsesWith : simpl never.
#[local] Arguments replaced : simpl never.

(** The walk visits live operations only. *)
Lemma walkFrom_live fuel : ∀ ir o o',
  o' ∈ walkFrom fuel ir o → is_Some (ops ir !! o').
Proof.
  induction fuel as [| fuel IH]; intros ir o o' Hin; simpl in Hin.
  - by apply elem_of_nil in Hin.
  - destruct (ops ir !! o) as [op |] eqn:Ho; [| by apply elem_of_nil in Hin].
    apply elem_of_app in Hin as [Hin | Hin].
    + apply list_elem_of_bind in Hin as (r & Hin & _).
      apply list_elem_of_bind in Hin as (b & Hin & _).
      apply list_elem_of_bind in Hin as (o'' & Hin & _).
      by eapply IH.
    + apply list_elem_of_singleton in Hin as ->. by rewrite Ho.
Qed.

Lemma walk_live ir o o' : o' ∈ walk ir o → is_Some (ops ir !! o').
Proof. apply walkFrom_live. Qed.

Lemma last_filter {A : Type} (P : A → Prop) `{∀ x, Decision (P x)}
    (l : list A) x :
  last l = Some x → P x → last (filter P l) = Some x.
Proof.
  intros [l' ->]%last_Some HP.
  rewrite filter_app, filter_cons, decide_True by done.
  rewrite filter_nil. by rewrite last_snoc.
Qed.

Lemma frontBlock_not_erased ir funcOp entry a op :
  frontBlock ir funcOp = Some entry →
  ops ir !! a = Some op → getRegions (kind op) = [] →
  funcOp ∉ a :: deallocUsers ir a.
Proof.
  unfold frontBlock. intros Hf Ha Hr.
  destruct (ops ir !! funcOp) as [fop |] eqn:Hfop; [| done]. simpl in Hf.
  intros [-> | Hin]%elem_of_cons.
  - assert (fop = op) as -> by congruence. by rewrite Hr in Hf.
  - destruct (deallocUsers_live _ _ _ Hin) as (dop & Hdop & Hd).
    assert (fop = dop) as -> by congruence.
    by rewrite (isDeallocOp_no_regions _ Hd) in Hf.
Qed.

(** Replacing the uses of [a] and erasing [a] and its deallocations keeps
    the entry block of the function and its terminator. *)
Lemma EntryEndsIn_replaced ir ir2 funcOp entry t bt a op v :
  ops ir !! a = Some op →
  getRegions (kind op) = [] →
  hasTraitIsTerminator (kind op) = false →
  EntryEndsIn ir funcOp entry t bt →
  EntryEndsIn ir2 funcOp entry t bt →
  (∀ x o, ops ir !! x = Some o → ops ir2 !! x = Some o) →
  EntryEndsIn (replaced a v (a :: deallocUsers ir a) ir2) funcOp entry t bt.
Proof.
  intros Ha Hr Hnt Hentry (Hf2 & Ht2 & top & Htop & Hbt) Hext.
  pose proof Hentry as (Hf & Ht & _).
  destruct (getTerminator_live _ _ _ Ht) as (_ & top0 & Htop0 & Htr).
  assert (top0 = top) as -> by (apply Hext in Htop0; congruence).
  assert (Hte : t ∉ a :: deallocUsers ir a)
    by (by eapply terminator_not_erased).
  assert (Hfe : funcOp ∉ a :: deallocUsers ir a)
    by (by eapply frontBlock_not_erased).
  split_and!.
  - unfold frontBlock in *. rewrite lookup_replaced, decide_False by done.
    destruct (ops ir2 !! funcOp) as [fop |]; [| done]. simpl in *.
    by rewrite getRegions_mapOperands.
  - unfold getTerminator in *. rewrite blockOps_replaced.
    destruct (last (blockOps ir2 entry)) as [t' |] eqn:Hlast; [| done].
    simpl in Ht2. destruct (ops ir2 !! t') as [top' |] eqn:Htop'; [| done].
    simpl in Ht2.
    destruct (hasTraitIsTerminator (kind top')) eqn:Htr'; [| done].
    injection Ht2 as ->.
    rewrite (last_filter _ _ _ Hlast Hte). cbn [mbind option_bind].
    rewrite lookup_replaced, decide_False by done. rewrite Htop'.
    cbn [fmap option_fmap option_map mbind option_bind kind].
    by rewrite hasTraitIsTerminator_mapOperands, Htr'.
  - eexists. split.
    + rewrite lookup_replaced, decide_False by done. by rewrite Htop.
    + done.
Qed.

Section func.
Variable getConstantUpperBoundForIndex : IR → Value → option Z.
Variable K : AllocLikeOpType.

Lemma EntryEndsIn_allocAtEntry ir funcOp entry t bt type alignment :
  EntryEndsIn ir funcOp entry t bt →
  EntryEndsIn (allocAtEntry K entry type alignment ir) funcOp entry t bt.
Proof. intros He. apply EntryEndsIn_insertOp; [done |]. right. by left. Qed.

Lemma EntryEndsIn_subViewBefore ir funcOp entry t bt pb a source offsets
    sizes strides :
  pb ≠ entry →
  EntryEndsIn ir funcOp entry t bt →
  EntryEndsIn (subViewBefore pb a source offsets sizes strides ir)
    funcOp entry t bt.
Proof. intros Hpb He. apply EntryEndsIn_insertOp; [done |]. by left. Qed.

Lemma EntryEndsIn_withDealloc ir funcOp entry t bt v :
  EntryEndsIn ir funcOp entry t bt →
  EntryEndsIn (withDealloc K bt t v ir) funcOp entry t bt.
Proof.
  intros He. unfold withDealloc. case_decide; [| done].
  apply EntryEndsIn_insertOp; [done |]. right. right. exists t.
  split; [done |]. destruct He as (_ & Ht & _).
  by destruct (getTerminator_live _ _ _ Ht) as [? _].
Qed.

Lemma Hoistable_replaced ir ir2 entry a op v a' :
  ops ir !! a = Some op →
  (∀ x o, ops ir !! x = Some o → ops ir2 !! x = Some o) →
  a' ≠ a →
  Hoistable K ir entry a' →
  Hoistable K (replaced a v (a :: deallocUsers ir a) ir2) entry a'.
Proof.
  intros Ha Hext Hne (type & dyn & al & pb & Ha' & Hpb & Hver).
  exists type, (replaceResults a [v] <$> dyn), al, pb. split_and!; [| done |].
  - rewrite lookup_replaced, decide_False.
    + by rewrite (Hext _ _ Ha').
    + intros [-> | Hin]%elem_of_cons; [done |].
      destruct (deallocUsers_live _ _ _ Hin) as (dop & Hdop & Hd).
      assert (dop = mkOperation (AllocLike K type dyn al) (Some pb)) as ->
        by congruence.
      done.
  - by rewrite length_fmap.
Qed.

Lemma Hoistable_sized ir entry a type dynamicSizes alignment pb :
  ops ir !! a
  = Some (mkOperation (AllocLike K type dynamicSizes alignment) (Some pb)) →
  Hoistable K ir entry a →
  ∀ i d, getShape type !! i = Some d → isDynamic d = true →
    is_Some (dynamicSizes !! (0 + dynamicIndex (getShape type) i)).
Proof.
  intros Ha (type' & dyn' & al' & pb' & Ha' & _ & Hver) i d Hi Hd.
  assert (type' = type ∧ dyn' = dynamicSizes) as [-> ->]
    by (split; congruence).
  apply lookup_lt_is_Some_2. simpl.
  pose proof (dynamicIndex_lt _ _ _ Hi Hd). lia.
Qed.

(** One iteration of the hoisting loop runs to completion and keeps what
    the remaining iterations need. *)
Lemma hoistAndReplace_preserves funcOp entry t bt a l ir ip :
  EntryEndsIn ir funcOp entry t bt →
  NoDup (a :: l) →
  Forall (Hoistable K ir entry) (a :: l) →
  ∃ ir',
    hoistAndReplace getConstantUpperBoundForIndex K funcOp a (mkBuilder ir ip)
    = Some (tt, mkBuilder ir' ip) ∧
    EntryEndsIn ir' funcOp entry t bt ∧
    Forall (Hoistable K ir' entry) l.
Proof.
  intros Hentry [Hal Hnd]%NoDup_cons [Hha Hhl]%Forall_cons.
  pose proof Hha as (type & dyn & al & pb & Ha & Hpb & Hver).
  assert (Hrest : ∀ ir2 v,
            EntryEndsIn ir2 funcOp entry t bt →
            (∀ x o, ops ir !! x = Some o → ops ir2 !! x = Some o) →
            EntryEndsIn (replaced a v (a :: deallocUsers ir a) ir2)
              funcOp entry t bt ∧
            Forall (Hoistable K (replaced a v (a :: deallocUsers ir a) ir2)
                      entry) l).
  { intros ir2 v He2 Hext. split.
    - by eapply EntryEndsIn_replaced.
    - apply Forall_forall. intros a' Hin.
      eapply Hoistable_replaced; [done | done | | ].
      + intros ->. done.
      + by eapply Forall_forall in Hhl. }
  destruct (decide (dyn = [])) as [-> | Hdyn].
  - eexists. split; [by eapply hoistAndReplace_static |].
    apply Hrest.
    + by apply EntryEndsIn_withDealloc, EntryEndsIn_allocAtEntry.
    + intros x o Hx.
      by apply lookup_withDealloc_live, lookup_allocAtEntry_live.
  - destruct (boundShape_defined getConstantUpperBoundForIndex ir dyn
                (getShape type) 0 [] [])
      as [[[ss sv] |] Hb]; [by eapply Hoistable_sized | |].
    + eexists. split; [by eapply hoistAndReplace_bounded |].
      apply Hrest.
      * by apply EntryEndsIn_withDealloc, EntryEndsIn_subViewBefore,
          EntryEndsIn_allocAtEntry.
      * intros x o Hx.
        by apply lookup_withDealloc_live, lookup_subViewBefore_live,
          lookup_allocAtEntry_live.
    + exists ir. split; [by eapply hoistAndReplace_unbounded |]. done.
Qed.

(** The hoisting loop runs to completion. *)
Lemma forEach_hoistAndReplace funcOp entry t bt l : ∀ ir ip,
  EntryEndsIn ir funcOp entry t bt →
  NoDup l →
  Forall (Hoistable K ir entry) l →
  ∃ ir',
    forEach (hoistAndReplace getConstantUpperBoundForIndex K funcOp) l
      (mkBuilder ir ip)
    = Some (tt, mkBuilder ir' ip).
Proof.
  induction l as [| a l IH]; intros ir ip Hentry Hnd Hall; simpl.
  - by eexists.
  - destruct (hoistAndReplace_preserves funcOp entry t bt a l ir ip
                Hentry Hnd Hall) as (ir1 & Hstep & Hentry1 & Hall1).
    rewrite (bind_Some _ _ _ _ _ Hstep).
    apply IH; [done | by apply NoDup_cons in Hnd as [_ ?] | done].
Qed.

(** An allocation with a dimension that has no bound stops the loop over
    its shape. *)
Lemma Unbounded_boundShape ir type dynamicSizes :
  numDynamicDims (getShape type) ≤ length dynamicSizes →
  Unbounded getConstantUpperBoundForIndex ir type dynamicSizes →
  dynamicSizes ≠ [] ∧
  boundShape getConstantUpperBoundForIndex ir (getShape type) dynamicSizes
    0 [] [] = Some None.
Proof.
  intros Hver (i & d & v & Hi & Hd & Hv & Hub). split.
  - intros ->. by rewrite lookup_nil in Hv.
  - apply boundShape_unbounded.
    + intros j d' Hj Hd'. apply lookup_lt_is_Some_2. simpl.
      pose proof (dynamicIndex_lt _ _ _ Hj Hd'). lia.
    + by exists i, d, v.
Qed.

(** The callback of the collecting walk answers on every live operation,
    and what it keeps is [Hoistable]. *)
Lemma isHoistable_spec ir funcOp entry o :
  frontBlock ir funcOp = Some entry →
  VerifiedAllocs K ir →
  is_Some (ops ir !! o) →
  ∃ keep, isHoistable K ir funcOp o = Some keep ∧
          (keep = true → Hoistable K ir entry o).
Proof.
  intros Hf Hver [[k b] Ho]. unfold isHoistable. rewrite Ho. simpl.
  destruct k; try (by exists false).
  case_decide as Hk; [| by exists false]. subst k.
  rewrite Hf. simpl.
  destruct (Hver _ _ _ _ _ Ho) as [[pb ->] Hsz].
  assert (Hh : pb ≠ entry → Hoistable K ir entry o)
    by (intros ?; by exists type, dynamicSizes, alignment, pb).
  case_decide as Hb; [by exists false |].
  assert (pb ≠ entry) by congruence.
  case_decide; eexists; (split; [done |]); intros _; by apply Hh.
Qed.

Lemma collectHoistable_spec ir funcOp entry visit :
  frontBlock ir funcOp = Some entry →
  VerifiedAllocs K ir →
  (∀ o, o ∈ visit → is_Some (ops ir !! o)) →
  ∃ l, collectHoistable K ir funcOp visit = Some l ∧
       l `sublist_of` visit ∧
       Forall (Hoistable K ir entry) l.
Proof.
  intros Hf Hver. induction visit as [| o visit IH]; intros Hlive; simpl.
  - exists []. by split_and!.
  - destruct (isHoistable_spec ir funcOp entry o Hf Hver) as (keep & -> & Hk);
      [apply Hlive; left |].
    destruct IH as (l & -> & Hsub & Hall);
      [intros o' Ho'; apply Hlive; by right |].
    simpl. destruct keep.
    + exists (o :: l). split_and!; [done | by constructor |].
      constructor; [by apply Hk | done].
    + exists l. split_and!; [done | by constructor | done].
Qed.

(** The allocations the hoister works on: those of kind [K] outside the
    entry block that have no dynamic sizes or only uses that a sub-view can
    take over. *)
Lemma isHoistable_true_iff ir funcOp o :
  isHoistable K ir funcOp o = Some true ↔
  ∃ type dynamicSizes alignment b entry,
    ops ir !! o
    = Some (mkOperation (AllocLike K type dynamicSizes alignment) b) ∧
    frontBlock ir funcOp = Some entry ∧
    b ≠ Some entry ∧
    (dynamicSizes = [] ∨
     forallb (isUseReplaceableWithSubview ir) (getOpUses ir o) = true).
Proof.
  unfold isHoistable. split.
  - destruct (ops ir !! o) as [[k b] |] eqn:Ho; [| done]. simpl.
    destruct k; try done. case_decide as Hk; [| done]. subst k.
    destruct (frontBlock ir funcOp) as [entry |] eqn:Hf; [| done]. simpl.
    case_decide as Hb; [done |]. intros Hkeep.
    exists type, dynamicSizes, alignment, b, entry.
    split_and!; [done | done | done |].
    case_decide; [by left |]. right. congruence.
  - intros (type & dyn & al & b & entry & -> & -> & Hb & Hq). simpl.
    rewrite decide_True by done. simpl. rewrite decide_False by done.
    case_decide as Hd; [done |]. destruct Hq as [? | ->]; done.
Qed.

Lemma collectHoistable_elem ir funcOp visit : ∀ l a,
  collectHoistable K ir funcOp visit = Some l →
  a ∈ l ↔ a ∈ visit ∧ isHoistable K ir funcOp a = Some true.
Proof.
  induction visit as [| o visit IH]; intros l a; simpl.
  - intros [= <-]. rewrite elem_of_nil. tauto.
  - destruct (isHoistable K ir funcOp o) as [keep |] eqn:Hk; [| done].
    destruct (collectHoistable K ir funcOp visit) as [l' |]; [| done].
    simpl. intros [= <-]. specialize (IH l' a eq_refl).
    destruct keep; rewrite ?elem_of_cons, IH, ?elem_of_cons.
    + split; [intros [-> | [? ?]]; tauto | intros [[-> | ?] ?]; tauto].
    + split; [tauto | intros [[-> | ?] ?]; [congruence | tauto]].
Qed.

Lemma hoistInFunc_unfold funcOp ir ip l :
  collectHoistable K ir funcOp (walk ir funcOp) = Some l →
  hoistStaticallyBoundAllocationsInFunc getConstantUpperBoundForIndex K funcOp
    (mkBuilder ir ip)
  = forEach (hoistAndReplace getConstantUpperBoundForIndex K funcOp) l
      (mkBuilder ir ip).
Proof.
  intros Hl. unfold hoistStaticallyBoundAllocationsInFunc.
  unfold mbind at 1, M_bind at 1, getPayload at 1. cbn [payload].
  unfold mbind at 1, M_bind at 1, liftOption at 1. by rewrite Hl.
Qed.

(** A loop over allocations none of which can be bounded leaves the
    payload as it is. *)
Lemma forEach_unbounded funcOp l ir ip :
  Forall (λ a, ∃ type dynamicSizes alignment pb,
            ops ir !! a
            = Some (mkOperation (AllocLike K type dynamicSizes alignment)
                                (Some pb)) ∧
            numDynamicDims (getShape type) ≤ length dynamicSizes ∧
            Unbounded getConstantUpperBoundForIndex ir type dynamicSizes) l →
  forEach (hoistAndReplace getConstantUpperBoundForIndex K funcOp) l
    (mkBuilder ir ip)
  = Some (tt, mkBuilder ir ip).
Proof.
  induction l as [| a l IH]; intros Hall; simpl; [done |].
  apply Forall_cons in Hall as [(type & dyn & al & pb & Ha & Hver & Hunb) Hall].
  destruct (Unbounded_boundShape ir type dyn Hver Hunb) as [Hdyn Hb].
  rewrite (bind_Some _ _ _ _ _
             (hoistAndReplace_unbounded getConstantUpperBoundForIndex K
                funcOp a type dyn al pb ir ip Ha Hdyn Hb)).
  by apply IH.
Qed.

End func.

(** C5.  For a function whose entry block ends in a live terminator, whose
    walk meets no operation twice, and whose [memref.alloc]s are verified:
    (1) the function-level op returns, and what it returns is success with
    the function as its single result; (2) on any payload, the loop body of
    the hoister (for either allocation kind) applied to a live allocation
    one of whose dynamic dimensions has a size operand without constant
    upper bound returns the payload and the builder exactly as they were;
    (3) when every [memref.alloc] outside the entry block is of that sort,
    the function-level op returns the payload it was given. *)
Theorem unbounded_allocation_is_skipped
    (getConstantUpperBoundForIndex : IR → Value → option Z)
    funcOp entry t bt ir :
  EntryEndsIn ir funcOp entry t bt →
  NoDup (walk ir funcOp) →
  VerifiedAllocs AllocOp ir →
  (∃ ir', applyToOne getConstantUpperBoundForIndex funcOp ir
          = Some (Success, [funcOp], ir')) ∧
  (∀ K a type dynamicSizes alignment pb ir0 ip,
     ops ir0 !! a
     = Some (mkOperation (AllocLike K type dynamicSizes alignment) (Some pb)) →
     numDynamicDims (getShape type) ≤ length dynamicSizes →
     Unbounded getConstantUpperBoundForIndex ir0 type dynamicSizes →
     hoistAndReplace getConstantUpperBoundForIndex K funcOp a
       (mkBuilder ir0 ip)
     = Some (tt, mkBuilder ir0 ip)) ∧
  ((∀ a type dynamicSizes alignment b,
      ops ir !! a
      = Some (mkOperation (AllocLike AllocOp type dynamicSizes alignment) b) →
      b ≠ Some entry →
      Unbounded getConstantUpperBoundForIndex ir type dynamicSizes) →
   applyToOne getConstantUpperBoundForIndex funcOp ir
   = Some (Success, [funcOp], ir)).
Proof.
  intros Hentry Hnd Hver. pose proof Hentry as (Hf & _).
  assert (Hfunc : is_Some (ops ir !! funcOp)).
  { unfold frontBlock in Hf. by destruct (ops ir !! funcOp). }
  destruct Hfunc as [fop Hfop].
  destruct (collectHoistable_spec AllocOp ir funcOp entry (walk ir funcOp)
              Hf Hver) as (l & Hl & Hsub & Hall);
    [intros o; apply walk_live |].
  assert (Hndl : NoDup l) by (by eapply sublist_NoDup).
  split_and!.
  - destruct (forEach_hoistAndReplace getConstantUpperBoundForIndex AllocOp
                funcOp entry t bt l ir None Hentry Hndl Hall) as (ir' & Hrun).
    exists ir'. unfold applyToOne. rewrite Hfop. simpl.
    by rewrite (hoistInFunc_unfold _ _ _ _ _ l Hl), Hrun.
  - intros K a type dyn al pb ir0 ip Ha Hsz Hunb.
    destruct (Unbounded_boundShape getConstantUpperBoundForIndex ir0 type dyn
                Hsz Hunb) as [Hdyn Hb].
    by eapply hoistAndReplace_unbounded.
  - intros Hunb. unfold applyToOne. rewrite Hfop. simpl.
    rewrite (hoistInFunc_unfold _ _ _ _ _ l Hl).
    rewrite forEach_unbounded; [done |].
    eapply Forall_impl; [exact Hall |].
    intros a (type & dyn & al & pb & Ha & Hpb & Hsz).
    exists type, dyn, al, pb. split_and!; [done | done |].
    eapply Hunb; [done |]. congruence.
Qed.

End HoistFuncProps.

Module HoistReachProps.
Import IR Transform HoistAlloc IRFacts HoistAllocProps HoistOneProps
  HoistStaticProps BoundShapeProps HoistBoundedProps HoistFuncProps.

#[local] Arguments insertOp : simpl never.
#[local] Arguments eraseAll : simpl never.
#[local] Arguments replaceAllUsesWith : simpl never.
#[local] Arguments replaced : simpl never.

Section reach.
Variable getConstantUpperBoundForIndex : IR → Value → option Z.
Variable K : AllocLikeOpType.

Lemma EndsOnce_insertOp ir entry t k ip :
  is_Some (ops ir !! t) →
  EndsOnce ir entry t →
  ipBlock ip ≠ entry ∨ ipBefore ip = head (blockOps ir entry) ∨
    ipBefore ip = Some t →
  EndsOnce (insertOp (fresh (dom (ops ir))) k (Some ip) ir) entry t.
Proof.
  intros [top Htop] (body & Hb & Ht) Hip.
  assert (Hne : fresh (dom (ops ir)) ≠ t).
  { intros Heq. pose proof (fresh_not_live ir) as Hf. rewrite Heq in Hf.
    congruence. }
  unfold EndsOnce. rewrite blockOps_insertOp.
  case_decide as Hentry; [| by exists body].
  destruct Hip as [? | [-> | ->]]; [done | |].
  - rewrite insertBefore_head, Hb.
    exists (fresh (dom (ops ir)) :: body). split; [done |].
    intros [? | ?]%elem_of_cons; done.
  - rewrite Hb, insertBefore_at by done.
    exists (body ++ [fresh (dom (ops ir))]).
    split; [by rewrite <- app_assoc |].
    intros [? | ?%list_elem_of_singleton]%elem_of_app; done.
Qed.

Lemma EndsOnce_replaced ir2 entry t a v dead :
  t ∉ dead →
  EndsOnce ir2 entry t →
  EndsOnce (replaced a v dead ir2) entry t.
Proof.
  intros Ht (body & Hb & Hin). unfold EndsOnce.
  rewrite blockOps_replaced, Hb.
  exists (filter (λ o, o ∉ dead) body). split.
  - by rewrite filter_app, filter_cons, decide_True by done.
  - intros [_ ?]%list_elem_of_filter. done.
Qed.

Lemma terminator_live ir funcOp entry t bt :
  EntryEndsIn ir funcOp entry t bt → is_Some (ops ir !! t).
Proof. intros (_ & _ & top & -> & _). by eexists. Qed.

Lemma EndsOnce_withDealloc ir funcOp entry t v :
  EntryEndsIn ir funcOp entry t entry →
  EndsOnce ir entry t →
  EndsOnce (withDealloc K entry t v ir) entry t.
Proof.
  intros He Ho. unfold withDealloc. case_decide; [| done].
  apply EndsOnce_insertOp; [by eapply terminator_live | done |].
  right. by right.
Qed.

Lemma EndsOnce_allocAtEntry ir funcOp entry t type alignment :
  EntryEndsIn ir funcOp entry t entry →
  EndsOnce ir entry t →
  EndsOnce (allocAtEntry K entry type alignment ir) entry t.
Proof.
  intros He Ho.
  apply EndsOnce_insertOp; [by eapply terminator_live | done |].
  right. by left.
Qed.

Lemma EndsOnce_subViewBefore ir funcOp entry t pb a source offsets sizes
    strides :
  pb ≠ entry →
  EntryEndsIn ir funcOp entry t entry →
  EndsOnce ir entry t →
  EndsOnce (subViewBefore pb a source offsets sizes strides ir) entry t.
Proof.
  intros Hpb He Ho.
  apply EndsOnce_insertOp; [by eapply terminator_live | done |]. by left.
Qed.

Lemma SameAlloc_refl ir a : SameAlloc K ir ir a.
Proof. intros type dyn al pb Ha. by exists dyn. Qed.

Lemma SameAlloc_trans ir1 ir2 ir3 a :
  SameAlloc K ir1 ir2 a → SameAlloc K ir2 ir3 a → SameAlloc K ir1 ir3 a.
Proof.
  intros H12 H23 type dyn al pb Ha.
  destruct (H12 _ _ _ _ Ha) as (dyn2 & Ha2 & Hl2).
  destruct (H23 _ _ _ _ Ha2) as (dyn3 & Ha3 & Hl3).
  exists dyn3. split; [done | congruence].
Qed.

Lemma SameAlloc_replaced ir ir2 a v a' :
  (∀ x o, ops ir !! x = Some o → ops ir2 !! x = Some o) →
  a' ≠ a →
  SameAlloc K ir (replaced a v (a :: deallocUsers ir a) ir2) a'.
Proof.
  intros Hext Hne type dyn al pb Ha'.
  exists (replaceResults a [v] <$> dyn). split; [| by rewrite length_fmap].
  rewrite lookup_replaced, decide_False.
  - by rewrite (Hext _ _ Ha').
  - intros [-> | Hin]%elem_of_cons; [done |].
    destruct (deallocUsers_live _ _ _ Hin) as (dop & Hdop & Hd).
    assert (dop = mkOperation (AllocLike K type dyn al) (Some pb)) as ->
      by congruence.
    done.
Qed.

(** One iteration of the hoisting loop keeps, besides what the remaining
    iterations need, the shape of the entry block and the identity of the
    remaining allocations. *)
Lemma hoistAndReplace_keeps funcOp entry t a l ir ip :
  EntryEndsIn ir funcOp entry t entry →
  EndsOnce ir entry t →
  NoDup (a :: l) →
  Forall (Hoistable K ir entry) (a :: l) →
  ∃ ir',
    hoistAndReplace getConstantUpperBoundForIndex K funcOp a (mkBuilder ir ip)
    = Some (tt, mkBuilder ir' ip) ∧
    EntryEndsIn ir' funcOp entry t entry ∧
    EndsOnce ir' entry t ∧
    Forall (Hoistable K ir' entry) l ∧
    Forall (SameAlloc K ir ir') l.
Proof.
  intros Hentry Honce Hnd Hall.
  pose proof Hnd as [Hal _]%NoDup_cons.
  pose proof Hall as [Hha Hhl]%Forall_cons.
  pose proof Hha as (type & dyn & al & pb & Ha & Hpb & Hver).
  pose proof Hentry as (_ & Hterm & _).
  destruct (getTerminator_live _ _ _ Hterm) as (_ & top & Htop & Htrait).
  assert (Hte : t ∉ a :: deallocUsers ir a)
    by (by eapply terminator_not_erased).
  assert (Hrest : ∀ ir2 v,
            EntryEndsIn ir2 funcOp entry t entry →
            EndsOnce ir2 entry t →
            (∀ x o, ops ir !! x = Some o → ops ir2 !! x = Some o) →
            let ir' := replaced a v (a :: deallocUsers ir a) ir2 in
            EntryEndsIn ir' funcOp entry t entry ∧ EndsOnce ir' entry t ∧
            Forall (Hoistable K ir' entry) l ∧ Forall (SameAlloc K ir ir') l).
  { intros ir2 v He2 Ho2 Hext ir'. split_and!.
    - by eapply EntryEndsIn_replaced.
    - by apply EndsOnce_replaced.
    - apply Forall_forall. intros a' Hin.
      eapply Hoistable_replaced; [done | done | | ].
      + intros ->. done.
      + by eapply Forall_forall in Hhl.
    - apply Forall_forall. intros a' Hin.
      apply SameAlloc_replaced; [done |]. intros ->. done. }
  destruct (decide (dyn = [])) as [-> | Hdyn].
  - eexists. split; [by eapply hoistAndReplace_static |].
    apply Hrest.
    + by apply EntryEndsIn_withDealloc, EntryEndsIn_allocAtEntry.
    + eapply EndsOnce_withDealloc;
        [by apply EntryEndsIn_allocAtEntry |].
      by eapply EndsOnce_allocAtEntry.
    + intros x o Hx.
      by apply lookup_withDealloc_live, lookup_allocAtEntry_live.
  - destruct (boundShape_defined getConstantUpperBoundForIndex ir dyn
                (getShape type) 0 [] [])
      as [[[ss sv] |] Hb]; [by eapply Hoistable_sized | |].
    + eexists. split; [by eapply hoistAndReplace_bounded |].
      apply Hrest.
      * by apply EntryEndsIn_withDealloc, EntryEndsIn_subViewBefore,
          EntryEndsIn_allocAtEntry.
      * eapply EndsOnce_withDealloc;
          [by apply EntryEndsIn_subViewBefore, EntryEndsIn_allocAtEntry |].
        eapply EndsOnce_subViewBefore;
          [done | by apply EntryEndsIn_allocAtEntry |].
        by eapply EndsOnce_allocAtEntry.
      * intros x o Hx.
        by apply lookup_withDealloc_live, lookup_subViewBefore_live,
          lookup_allocAtEntry_live.
    + exists ir. split; [by eapply hoistAndReplace_unbounded |].
      split_and!; try done.
      apply Forall_forall. intros a' _. apply SameAlloc_refl.
Qed.

End reach.
End HoistReachProps.

(** ** The hoister on a function *)

Module HoistInFuncProps.
Import IR Transform HoistAlloc IRFacts HoistAllocProps HoistOneProps
  HoistStaticProps BoundShapeProps HoistBoundedProps HoistFuncProps
  HoistReachProps.

#[local] Arguments insertOp : simpl never.
#[local] Arguments eraseAll : simpl never.
#[local] Arguments replaceAllUsesWith : simpl never.
#[local] Arguments replaced : simpl never.

(** *** Users and deallocations *)

Lemma slotsOf_elim P o op u :
  u ∈ slotsOf P o op →
  ∃ w, operands (kind op) !! getOperandNumber u = Some w ∧ P w = true.
Proof.
  unfold slotsOf. intros ([i w] & Hin & Hu)%list_elem_of_omap.
  apply list_elem_of_lookup in Hin as [n Hn].
  rewrite list_lookup_imap in Hn.
  destruct (operands (kind op) !! n) as [w' |] eqn:Hw; [| done].
  simpl in Hn. injection Hn as <- <-.
  destruct (P w') eqn:HP; [| done]. injection Hu as <-. by exists w'.
Qed.

(** The users of [a] are the live operations with an operand that is a
    result of [a]. *)
Lemma elem_of_getOpUsers ir a x :
  x ∈ getOpUsers ir a ↔
  ∃ op v, ops ir !! x = Some op ∧ v ∈ operands (kind op) ∧
          getDefiningOp v = Some a.
Proof.
  unfold getOpUsers, getOpUses. split.
  - intros (u & -> & Hu)%list_elem_of_fmap.
    apply list_elem_of_bind in Hu as ([o op] & Hslot & Hin).
    apply elem_of_map_to_list in Hin.
    rewrite (slotsOf_owner _ _ _ _ Hslot).
    destruct (slotsOf_elim _ _ _ _ Hslot) as (w & Hw & HP).
    exists op, w. split_and!; [done | by eapply list_elem_of_lookup_2 |].
    by apply bool_decide_eq_true in HP.
  - intros (op & v & Hx & [i Hi]%list_elem_of_lookup & Hd).
    apply list_elem_of_fmap. exists (mkOpOperand x i). split; [done |].
    apply list_elem_of_bind. exists (x, op).
    split; [| by apply elem_of_map_to_list].
    unfold slotsOf. apply list_elem_of_omap. exists (i, v). split.
    + apply list_elem_of_lookup. exists i. by rewrite list_lookup_imap, Hi.
    + by rewrite bool_decide_eq_true_2.
Qed.

(** The deallocations the loop records are the live deallocations of a
    result of the allocation. *)
Lemma deallocUsers_iff ir a d :
  d ∈ deallocUsers ir a ↔ isDeallocOf ir a d = true.
Proof.
  unfold deallocUsers, isDeallocOf, isDealloc.
  rewrite list_elem_of_filter, elem_of_getOpUsers. split.
  - intros [Hd (op & v & Hop & Hv & Hdef)]. rewrite Hop in *.
    destruct (kind op) as [| m | | | | | | | | | | |]; try done.
    simpl in Hv. apply list_elem_of_singleton in Hv as ->.
    destruct m as [a' i |]; [| done]. injection Hdef as ->.
    by apply bool_decide_eq_true.
  - destruct (ops ir !! d) as [op |] eqn:Hop; [| done].
    destruct (kind op) as [| m | | | | | | | | | | |] eqn:Hk; try done.
    destruct m as [a' i |]; [| done].
    intros ->%bool_decide_eq_true. split; [done |].
    exists op, (OpResult a i). rewrite Hk. split_and!; [done | | done].
    simpl. apply list_elem_of_here.
Qed.

Lemma Survives_iff ir a o : Survives ir a o ↔ o ∉ a :: deallocUsers ir a.
Proof.
  unfold Survives. rewrite not_elem_of_cons, deallocUsers_iff.
  by rewrite not_true_iff_false.
Qed.

(** *** Rewriting operands *)

Lemma fmap_ext_all {A B : Type} (f g : A → B) (l : list A) :
  (∀ x, f x = g x) → f <$> l = g <$> l.
Proof.
  intros Hfg. induction l as [| x l IH]; csimpl; [done |].
  by rewrite Hfg, IH.
Qed.

Lemma mapOperands_ext f g k :
  (∀ w, f w = g w) → mapOperands f k = mapOperands g k.
Proof.
  intros Hfg.
  assert (Hofr : ∀ x, mapOfr f x = mapOfr g x)
    by (intros [z | v]; simpl; by rewrite ?Hfg).
  destruct k; simpl;
    rewrite ?Hfg, ?(fmap_ext_all (mapOfr f) (mapOfr g) _ Hofr),
      ?(fmap_ext_all f g _ Hfg); reflexivity.
Qed.

Lemma replaceResults_replaceUse a v w :
  replaceResults a [v] w = replaceUse a v w.
Proof.
  unfold replaceUse. destruct w as [o i | b i]; simpl.
  - destruct (decide (o = a)) as [-> | Ho].
    + destruct i as [| i]; simpl.
      * by rewrite decide_True.
      * by rewrite decide_False.
    + rewrite decide_False; [done | congruence].
  - done.
Qed.

Lemma mapOperands_replaceUse a v k :
  mapOperands (replaceResults a [v]) k = mapOperands (replaceUse a v) k.
Proof. apply mapOperands_ext, replaceResults_replaceUse. Qed.

Lemma fmap_fixed {A : Type} (f : A → A) (l : list A) :
  (∀ x, x ∈ l → f x = x) → f <$> l = l.
Proof.
  induction l as [| x l IH]; intros Hf; csimpl; [done |].
  rewrite (Hf x) by left. rewrite IH; [done |].
  intros y Hy. apply Hf. by right.
Qed.

Lemma mapOfr_fixed f (l : list OpFoldResult) :
  (∀ v, v ∈ ofrValues l → f v = v) → mapOfr f <$> l = l.
Proof.
  unfold ofrValues.
  induction l as [| [z | v] l IH]; intros Hf; csimpl; csimpl in Hf.
  - done.
  - by rewrite IH.
  - rewrite (Hf v) by left. rewrite IH; [done |].
    intros w Hw. apply Hf. by right.
Qed.

(** An operation none of whose operands [f] changes is left as it is. *)
Lemma mapOperands_fixed f k :
  (∀ w, w ∈ operands k → f w = w) → mapOperands f k = k.
Proof.
  intros Hf. destruct k; simpl in *;
    rewrite ?Hf by set_solver;
    rewrite ?fmap_fixed by (intros; apply Hf; set_solver);
    rewrite ?mapOfr_fixed by (intros; apply Hf; set_solver);
    reflexivity.
Qed.

(** *** The hoisting loop *)

Lemma forEach_app {A : Type} (body : A → M unit) l1 : ∀ l2 s s1,
  forEach body l1 s = Some (tt, s1) →
  forEach body (l1 ++ l2) s = forEach body l2 s1.
Proof.
  induction l1 as [| x l1 IH]; intros l2 s s1 Hrun; simpl in *.
  - by injection Hrun as <-.
  - unfold mbind, M_bind in *.
    destruct (body x s) as [[[] s'] |]; [| done]. by apply IH.
Qed.

Section inFunc.
Variable getConstantUpperBoundForIndex : IR → Value → option Z.
Variable K : AllocLikeOpType.

#[local] Abbreviation hoistAndReplace :=
  (hoistAndReplace getConstantUpperBoundForIndex K).
#[local] Abbreviation hoistStaticallyBoundAllocationsInFunc :=
  (hoistStaticallyBoundAllocationsInFunc getConstantUpperBoundForIndex K).

(** The iterations on the allocations [l1] run to completion and leave the
    remaining ones, and the entry block, as the next iterations need
    them. *)
Lemma hoisting_loop_split funcOp entry t l1 : ∀ rest ir ip,
  EntryEndsIn ir funcOp entry t entry →
  EndsOnce ir entry t →
  NoDup (l1 ++ rest) →
  Forall (Hoistable K ir entry) (l1 ++ rest) →
  ∃ ir1,
    forEach (hoistAndReplace funcOp) l1 (mkBuilder ir ip)
    = Some (tt, mkBuilder ir1 ip) ∧
    EntryEndsIn ir1 funcOp entry t entry ∧
    EndsOnce ir1 entry t ∧
    Forall (Hoistable K ir1 entry) rest ∧
    Forall (SameAlloc K ir ir1) rest.
Proof.
  induction l1 as [| a1 l1 IH]; intros rest ir ip Hentry Honce Hnd Hall.
  - exists ir. simpl in *. split_and!; try done.
    apply Forall_forall. intros x _. apply SameAlloc_refl.
  - simpl in Hnd, Hall.
    destruct (hoistAndReplace_keeps getConstantUpperBoundForIndex K funcOp
                entry t a1 (l1 ++ rest) ir ip Hentry Honce Hnd Hall)
      as (ir' & Hstep & Hentry' & Honce' & Hall' & Hsame').
    apply NoDup_cons in Hnd as [_ Hnd].
    destruct (IH rest ir' ip Hentry' Honce' Hnd Hall')
      as (ir1 & Hrun & Hentry1 & Honce1 & Hall1 & Hsame1).
    exists ir1. split_and!; try done.
    + simpl. by rewrite (bind_Some _ _ _ _ _ Hstep).
    + apply Forall_forall. intros x Hx.
      eapply SameAlloc_trans.
      * eapply Forall_forall in Hsame'; [exact Hsame' |].
        apply elem_of_app. by right.
      * by eapply Forall_forall in Hsame1.
Qed.

(** An operation that is not a user of [a] is none of the deallocations
    the loop records for [a]. *)
Lemma unused_not_erased ir a x op :
  ops ir !! x = Some op →
  x ≠ a →
  (∀ v, v ∈ operands (kind op) → getDefiningOp v ≠ Some a) →
  x ∉ a :: deallocUsers ir a.
Proof.
  intros Hx Hne Hunused [-> | Hin]%elem_of_cons; [done |].
  unfold deallocUsers in Hin. apply list_elem_of_filter in Hin as [_ Hin].
  apply elem_of_getOpUsers in Hin as (op' & v & Hop' & Hv & Hd).
  assert (op' = op) as -> by congruence. by eapply Hunused.
Qed.

Lemma lookup_replaced_unused ir ir2 a v x op :
  ops ir !! x = Some op →
  ops ir2 !! x = Some op →
  x ≠ a →
  (∀ w, w ∈ operands (kind op) → getDefiningOp w ≠ Some a) →
  ops (replaced a v (a :: deallocUsers ir a) ir2) !! x = Some op.
Proof.
  intros Hx Hx2 Hne Hunused.
  rewrite lookup_replaced, decide_False by (by eapply unused_not_erased).
  rewrite Hx2. cbn [fmap option_fmap option_map].
  rewrite mapOperands_fixed; [by destruct op |].
  intros w Hw. apply replaceResults_other. by apply Hunused.
Qed.

(** One iteration leaves alone every operation other than the allocation
    it works on that uses no result of it. *)
Lemma hoistAndReplace_keeps_op funcOp entry t a ir ip ir' x op :
  EntryEndsIn ir funcOp entry t entry →
  Hoistable K ir entry a →
  hoistAndReplace funcOp a (mkBuilder ir ip) = Some (tt, mkBuilder ir' ip) →
  ops ir !! x = Some op →
  x ≠ a →
  (∀ v, v ∈ operands (kind op) → getDefiningOp v ≠ Some a) →
  ops ir' !! x = Some op.
Proof.
  intros Hentry Hha Hstep Hx Hne Hunused.
  pose proof Hha as (type & dyn & al & pb & Ha & Hpb & Hver).
  destruct (decide (dyn = [])) as [-> | Hdyn].
  - rewrite (hoistAndReplace_static getConstantUpperBoundForIndex K funcOp a
               type al pb ir ip entry t entry Ha Hentry) in Hstep.
    injection Hstep as <-.
    apply lookup_replaced_unused; try done.
    by apply lookup_withDealloc_live, lookup_allocAtEntry_live.
  - destruct (boundShape_defined getConstantUpperBoundForIndex ir dyn
                (getShape type) 0 [] [])
      as [[[ss sv] |] Hb]; [by eapply Hoistable_sized | |].
    + rewrite (hoistAndReplace_bounded getConstantUpperBoundForIndex K funcOp
                 a type dyn al pb ir ip entry t entry ss sv Ha Hdyn Hb Hentry
                 Hpb) in Hstep.
      injection Hstep as <-.
      apply lookup_replaced_unused; try done.
      by apply lookup_withDealloc_live, lookup_subViewBefore_live,
        lookup_allocAtEntry_live.
    + rewrite (hoistAndReplace_unbounded getConstantUpperBoundForIndex K
                 funcOp a type dyn al pb ir ip Ha Hdyn Hb) in Hstep.
      by injection Hstep as <-.
Qed.

(** The iterations on the allocations [l] leave alone every operation that
    is none of them and uses no result of theirs. *)
Lemma forEach_keeps_op funcOp entry t l : ∀ ir ip ir' x op,
  EntryEndsIn ir funcOp entry t entry →
  NoDup l →
  Forall (Hoistable K ir entry) l →
  forEach (hoistAndReplace funcOp) l (mkBuilder ir ip)
  = Some (tt, mkBuilder ir' ip) →
  ops ir !! x = Some op →
  x ∉ l →
  (∀ v a, v ∈ operands (kind op) → a ∈ l → getDefiningOp v ≠ Some a) →
  ops ir' !! x = Some op.
Proof.
  induction l as [| a l IH]; intros ir ip ir' x op Hentry Hnd Hall Hrun Hx
    Hnl Hunused.
  - simpl in Hrun. by injection Hrun as <-.
  - destruct (hoistAndReplace_preserves getConstantUpperBoundForIndex K
                funcOp entry t entry a l ir ip Hentry Hnd Hall)
      as (ir1 & Hstep & Hentry1 & Hall1).
    simpl in Hrun. rewrite (bind_Some _ _ _ _ _ Hstep) in Hrun.
    apply not_elem_of_cons in Hnl as [Hne Hnl].
    apply Forall_cons in Hall as [Hha _].
    apply NoDup_cons in Hnd as [_ Hnd].
    assert (ops ir1 !! x = Some op) as Hx1.
    { apply (hoistAndReplace_keeps_op funcOp entry t a ir ip ir1 x op Hentry
               Hha Hstep Hx Hne).
      intros v Hv. apply (Hunused v a Hv). by left. }
    apply (IH ir1 ip ir' x op Hentry1 Hnd Hall1 Hrun Hx1 Hnl).
    intros v a' Hv Ha'. apply (Hunused v a' Hv). by right.
Qed.

(** The function-level hoister is its loop, cut at a collected
    allocation: the iterations before it, its own, and those after it. *)
Lemma hoistInFunc_split funcOp entry t a ir ip :
  EntryEndsIn ir funcOp entry t entry →
  EndsOnce ir entry t →
  NoDup (walk ir funcOp) →
  VerifiedAllocs K ir →
  a ∈ walk ir funcOp →
  isHoistable K ir funcOp a = Some true →
  ∃ before after ir1 ir2 ir',
    hoistStaticallyBoundAllocationsInFunc funcOp (mkBuilder ir ip)
    = Some (tt, mkBuilder ir' ip) ∧
    collectHoistable K ir funcOp (walk ir funcOp)
    = Some (before ++ a :: after) ∧
    forEach (hoistAndReplace funcOp) before (mkBuilder ir ip)
    = Some (tt, mkBuilder ir1 ip) ∧
    hoistAndReplace funcOp a (mkBuilder ir1 ip)
    = Some (tt, mkBuilder ir2 ip) ∧
    forEach (hoistAndReplace funcOp) after (mkBuilder ir2 ip)
    = Some (tt, mkBuilder ir' ip) ∧
    NoDup (before ++ a :: after) ∧
    Forall (Hoistable K ir entry) before ∧
    EntryEndsIn ir1 funcOp entry t entry ∧
    EndsOnce ir1 entry t ∧
    Forall (Hoistable K ir1 entry) (a :: after) ∧
    SameAlloc K ir ir1 a ∧
    EntryEndsIn ir2 funcOp entry t entry ∧
    Forall (Hoistable K ir2 entry) after.
Proof.
  intros Hentry Honce Hnd Hver Hwalk Hkeep. pose proof Hentry as (Hf & _).
  destruct (collectHoistable_spec K ir funcOp entry (walk ir funcOp) Hf Hver)
    as (l & Hl & Hsub & Hall); [intros o; apply walk_live |].
  assert (Hndl : NoDup l) by (by eapply sublist_NoDup).
  assert (Hal : a ∈ l)
    by (by apply (collectHoistable_elem getConstantUpperBoundForIndex K ir
                    funcOp _ l a Hl)).
  apply list_elem_of_split in Hal as (before & after & ->).
  destruct (hoisting_loop_split funcOp entry t before (a :: after) ir ip
              Hentry Honce Hndl Hall)
    as (ir1 & Hrun1 & Hentry1 & Honce1 & Hall1 & Hsame1).
  assert (Hnd1 : NoDup (a :: after)) by (by apply NoDup_app in Hndl as (_ & _ & ?)).
  destruct (hoistAndReplace_keeps getConstantUpperBoundForIndex K funcOp
              entry t a after ir1 ip Hentry1 Honce1 Hnd1 Hall1)
    as (ir2 & Hstep & Hentry2 & Honce2 & Hall2 & _).
  destruct (forEach_hoistAndReplace getConstantUpperBoundForIndex K funcOp
              entry t entry after ir2 ip Hentry2) as (ir' & Hrun2);
    [by apply NoDup_cons in Hnd1 as [_ ?] | done |].
  exists before, after, ir1, ir2, ir'. split_and!; try done.
  - rewrite (hoistInFunc_unfold _ _ _ _ _ _ Hl).
    rewrite (forEach_app _ _ _ _ _ Hrun1). simpl.
    by rewrite (bind_Some _ _ _ _ _ Hstep).
  - by apply Forall_app in Hall as [? _].
  - by apply Forall_cons in Hsame1 as [? _].
Qed.

(** What one iteration created stays as it is through the remaining
    iterations when it is none of the allocations they work on and uses no
    result of theirs. *)
Lemma created_stays funcOp entry t after ir1 ir2 ir' ip x op :
  EntryEndsIn ir2 funcOp entry t entry →
  NoDup after →
  Forall (Hoistable K ir1 entry) after →
  Forall (Hoistable K ir2 entry) after →
  forEach (hoistAndReplace funcOp) after (mkBuilder ir2 ip)
  = Some (tt, mkBuilder ir' ip) →
  ops ir1 !! x = None →
  ops ir2 !! x = Some op →
  (∀ v, v ∈ operands (kind op) →
        ∃ y, getDefiningOp v = Some y ∧ ops ir1 !! y = None) →
  ops ir' !! x = Some op.
Proof.
  intros Hentry2 Hnd Hall1 Hall2 Hrun Hx1 Hx2 Hoper.
  assert (Hlive : ∀ o, o ∈ after → is_Some (ops ir1 !! o)).
  { intros o Ho. eapply Forall_forall in Hall1; [| exact Ho].
    destruct Hall1 as (? & ? & ? & ? & -> & _). done. }
  eapply (forEach_keeps_op funcOp entry t after ir2 ip ir' x op); try done.
  - intros Hin. destruct (Hlive _ Hin) as [? ?]. congruence.
  - intros v o Hv Ho Hdef. destruct (Hoper v Hv) as (y & Hy & Hnone).
    assert (y = o) as -> by congruence.
    destruct (Hlive _ Ho) as [? ?]. congruence.
Qed.

End inFunc.


(** C4.  Let [funcOp] be a function whose entry block [entry] ends, once,
    in its terminator [t], whose walk meets no operation twice and whose
    allocations of the hoisted kind [K] are verified, and let [a] be an
    allocation of kind [K] under it, in a block other than [entry], with
    dynamic sizes and with uses that a sub-view can take over only.  Then
    [hoistStaticallyBoundAllocationsInFunc] returns, and so does
    [transform::HoistStaticAllocOp::applyToOne]; the walk collects [a]; and
    the loop reaches [a] with a payload [ir1] in which [a] is the
    allocation it was, with as many size operands [sizes1] (the very same
    when none of them is a result of an allocation hoisted before).  If in
    [ir1] every dynamic dimension has a size operand with a constant upper
    bound, no size operand is a result of [a] itself, and [a] stands in its
    block after [pre] and before [post], then the iteration on [a] does the
    following.  It creates one allocation [new] as the first operation of
    the entry block, with no dynamic sizes, the alignment of [a], and a
    shape that keeps each static dimension and holds the bound for each
    dynamic one ([Bounded]).  It creates a sub-view [subview] of [new]
    where [a] stood, with offsets all 0, strides all 1 and as sizes the
    static extents and the size operands of [a].  For [memref.alloc] it
    creates a deallocation of [new] immediately before the terminator of
    the entry block.  It erases [a] and every deallocation of a result of
    [a].  No operand is the result of [a] any more: every other operation
    is as it was, with each operand that was the result of [a] now the
    result of [subview].  The new allocation and deallocation are in the
    payload the function returns, and so is the sub-view when none of its
    sizes is a result of an allocation hoisted after. *)
Theorem bounded_allocation_is_hoisted
    (getConstantUpperBoundForIndex : IR → Value → option Z)
    (K : AllocLikeOpType) funcOp entry t a type dynamicSizes alignment pb
    ir ip :
  EntryEndsIn ir funcOp entry t entry →
  EndsOnce ir entry t →
  NoDup (walk ir funcOp) →
  VerifiedAllocs K ir →
  a ∈ walk ir funcOp →
  ops ir !! a
  = Some (mkOperation (AllocLike K type dynamicSizes alignment) (Some pb)) →
  dynamicSizes ≠ [] →
  pb ≠ entry →
  (∀ use, use ∈ getOpUses ir a → isUseReplaceableWithSubview ir use = true) →
  ∃ before after ir1 ir2 ir' sizes1,
    hoistStaticallyBoundAllocationsInFunc getConstantUpperBoundForIndex K
      funcOp (mkBuilder ir ip)
    = Some (tt, mkBuilder ir' ip) ∧
    (K = AllocOp → ip = None →
     applyToOne getConstantUpperBoundForIndex funcOp ir
     = Some (Success, [funcOp], ir')) ∧
    collectHoistable K ir funcOp (walk ir funcOp)
    = Some (before ++ a :: after) ∧
    forEach (hoistAndReplace getConstantUpperBoundForIndex K funcOp) before
      (mkBuilder ir ip)
    = Some (tt, mkBuilder ir1 ip) ∧
    hoistAndReplace getConstantUpperBoundForIndex K funcOp a
      (mkBuilder ir1 ip)
    = Some (tt, mkBuilder ir2 ip) ∧
    forEach (hoistAndReplace getConstantUpperBoundForIndex K funcOp) after
      (mkBuilder ir2 ip)
    = Some (tt, mkBuilder ir' ip) ∧
    ops ir1 !! a
    = Some (mkOperation (AllocLike K type sizes1 alignment) (Some pb)) ∧
    length sizes1 = length dynamicSizes ∧
    ((∀ v o, v ∈ dynamicSizes → o ∈ before → getDefiningOp v ≠ Some o) →
     sizes1 = dynamicSizes) ∧
    ((∀ i d, getShape type !! i = Some d → isDynamic d = true →
        ∃ v ub, sizes1 !! dynamicIndex (getShape type) i = Some v ∧
                getConstantUpperBoundForIndex ir1 v = Some ub) →
     (∀ v, v ∈ sizes1 → getDefiningOp v ≠ Some a) →
     ∀ pre post,
       blockOps ir1 pb = pre ++ a :: post →
       a ∉ pre →
       ∃ new subview dealloc staticShape subviewSizes body,
         Bounded getConstantUpperBoundForIndex ir1 sizes1 (getShape type) 0
           staticShape subviewSizes ∧
         blockOps ir1 entry = body ++ [t] ∧
         new = fresh (dom (ops ir1)) ∧
         ops ir1 !! new = None ∧
         ops ir2 !! new
         = Some (mkOperation
                   (AllocLike K
                      (MemRefType_get staticShape (getElementType type)) []
                      alignment)
                   (Some entry)) ∧
         blockOps ir2 entry
         = new :: filter (Survives ir1 a) body
             ++ (if decide (K = AllocOp) then [dealloc] else []) ++ [t] ∧
         (K = AllocOp →
          ops ir1 !! dealloc = None ∧
          ops ir2 !! dealloc
          = Some (mkOperation (Dealloc (OpResult new 0)) (Some entry))) ∧
         ops ir1 !! subview = None ∧
         ops ir2 !! subview
         = Some (mkOperation
                   (SubView (OpResult new 0)
                      (replicate (getRank type) (IndexAttr 0)) subviewSizes
                      (replicate (getRank type) (IndexAttr 1)))
                   (Some pb)) ∧
         blockOps ir2 pb
         = filter (Survives ir1 a) pre
             ++ subview :: filter (Survives ir1 a) post ∧
         ops ir2 !! a = None ∧
         (∀ d, isDeallocOf ir1 a d = true → ops ir2 !! d = None) ∧
         (∀ x op, ops ir2 !! x = Some op →
                  OpResult a 0 ∉ operands (kind op)) ∧
         (∀ x op, ops ir1 !! x = Some op → Survives ir1 a x →
            ops ir2 !! x
            = Some (mkOperation
                      (mapOperands (replaceUse a (OpResult subview 0))
                         (kind op))
                      (getBlock op))) ∧
         ops ir' !! new
         = Some (mkOperation
                   (AllocLike K
                      (MemRefType_get staticShape (getElementType type)) []
                      alignment)
                   (Some entry)) ∧
         (K = AllocOp →
          ops ir' !! dealloc
          = Some (mkOperation (Dealloc (OpResult new 0)) (Some entry))) ∧
         ((∀ v o, v ∈ sizes1 → o ∈ after → getDefiningOp v ≠ Some o) →
          ops ir' !! subview
          = Some (mkOperation
                    (SubView (OpResult new 0)
                       (replicate (getRank type) (IndexAttr 0)) subviewSizes
                       (replicate (getRank type) (IndexAttr 1)))
                    (Some pb)))).
Proof.
  intros Hentry Honce Hnd Hver Hwalk Ha Hdyn Hpb Huses.
  pose proof Hentry as (Hf & _).
  assert (Hkeep : isHoistable K ir funcOp a = Some true).
  { apply isHoistable_true_iff.
    exists type, dynamicSizes, alignment, (Some pb), entry.
    split_and!; [done | done | congruence |]. right.
    apply forallb_forall. intros use Hin. by apply Huses, list_elem_of_In. }
  destruct (hoistInFunc_split getConstantUpperBoundForIndex K funcOp entry t
              a ir ip Hentry Honce Hnd Hver Hwalk Hkeep)
    as (before & after & ir1 & ir2 & ir' & Hrun & Hl & Hrun1 & Hstep & Hrun2
        & Hndl & Hallb & Hentry1 & Honce1 & Hall1 & Hsame & Hentry2 & Hall2).
  destruct (Hsame _ _ _ _ Ha) as (sizes1 & Ha1 & Hlen).
  assert (Hdyn1 : sizes1 ≠ []).
  { intros ->. destruct dynamicSizes; [done | discriminate Hlen]. }
  assert (Hnda : NoDup after).
  { apply NoDup_app in Hndl as (_ & _ & Hnda).
    by apply NoDup_cons in Hnda as [_ ?]. }
  apply Forall_cons in Hall1 as [_ Hall1].
  assert (Hlive : ∀ o, o ∈ after → is_Some (ops ir1 !! o)).
  { intros o Ho. eapply Forall_forall in Hall1; [| exact Ho].
    destruct Hall1 as (? & ? & ? & ? & -> & _). done. }
  exists before, after, ir1, ir2, ir', sizes1.
  split_and!; try done.
  - intros -> ->. unfold applyToOne.
    assert (is_Some (ops ir !! funcOp)) as [fop ->].
    { unfold frontBlock in Hf. by destruct (ops ir !! funcOp). }
    simpl. by rewrite Hrun.
  - intros Hsizes.
    assert (Hkept : ops ir1 !! a
                    = Some (mkOperation
                              (AllocLike K type dynamicSizes alignment)
                              (Some pb))).
    { apply NoDup_app in Hndl as (Hndb & Hdisj & _).
      assert (Hab : a ∉ before)
        by (intros Hin; apply (Hdisj _ Hin); left).
      apply (forEach_keeps_op getConstantUpperBoundForIndex K funcOp entry t
               before ir ip ir1 a _ Hentry Hndb Hallb Hrun1 Ha Hab).
      simpl. intros v o Hv Ho. by apply Hsizes. }
    congruence.
  - intros Hbounds Hssa pre post Hpblock Hapre.
    destruct Honce1 as (body & Hbody & Htbody).
    destruct (hoistAndReplace_bounded_effect getConstantUpperBoundForIndex K
                funcOp a type sizes1 alignment pb entry body t pre post ir1
                ip Ha1 Hdyn1 Hssa Hbounds Hpb Hentry1 Hbody Htbody Hpblock
                Hapre)
      as (ir2' & subview & dealloc & staticShape & subviewSizes & Hstep'
          & Hbounded & Hnew1 & Hnew2 & Hblock & Hdealloc & Hsub1 & Hsub2
          & Hpb2 & Herased & Hnouse & Hothers).
    assert (ir2' = ir2) as -> by congruence.
    exists (fresh (dom (ops ir1))), subview, dealloc, staticShape,
      subviewSizes, body.
    split_and!; try done.
    + rewrite Hblock. do 2 f_equal. apply list_filter_iff.
      intros o. by rewrite Survives_iff.
    + rewrite Hpb2.
      rewrite (list_filter_iff (Survives ir1 a)
                 (λ o, o ∉ a :: deallocUsers ir1 a) pre)
        by (intros o; apply Survives_iff).
      rewrite (list_filter_iff (Survives ir1 a)
                 (λ o, o ∉ a :: deallocUsers ir1 a) post)
        by (intros o; apply Survives_iff).
      done.
    + apply Herased. left.
    + intros d Hd. apply Herased. right. by apply deallocUsers_iff.
    + intros x op Hx Hsurv. rewrite <- mapOperands_replaceUse.
      apply Hothers; [done |]. by apply Survives_iff.
    + eapply (created_stays getConstantUpperBoundForIndex K funcOp entry t
                after ir1 ir2 ir' ip); try done.
      simpl. intros v Hv. by apply elem_of_nil in Hv.
    + intros HK. destruct (Hdealloc HK) as [Hd1 Hd2].
      eapply (created_stays getConstantUpperBoundForIndex K funcOp entry t
                after ir1 ir2 ir' ip); try done.
      simpl. intros v ->%list_elem_of_singleton.
      by exists (fresh (dom (ops ir1))).
    + intros Hafter.
      assert (Hsa : subview ∉ after).
      { intros Hin. destruct (Hlive _ Hin) as [? ?]. congruence. }
      apply (forEach_keeps_op getConstantUpperBoundForIndex K funcOp entry t
               after ir2 ip ir' subview _ Hentry2 Hnda Hall2 Hrun2 Hsub2 Hsa).
      simpl. intros v o Hv Ho Hdef.
      apply elem_of_cons in Hv as [-> | Hv].
      { injection Hdef as <-. destruct (Hlive _ Ho) as [? ?]. congruence. }
      unfold ofrValues in Hv. rewrite !elem_of_app in Hv.
      destruct Hv as [Hv | [Hv | Hv]].
      * apply list_elem_of_omap in Hv as (x & Hx & Hxv).
        apply elem_of_replicate in Hx as [-> _]. done.
      * apply list_elem_of_omap in Hv as (x & Hx & Hxv).
        pose proof (Bounded_sizes _ _ _ _ _ _ _ x Hbounded Hx) as Hin.
        destruct x as [z | v']; [done |]. injection Hxv as ->.
        by apply (Hafter v o).
      * apply list_elem_of_omap in Hv as (x & Hx & Hxv).
        apply elem_of_replicate in Hx as [-> _]. done.
Qed.

End HoistInFuncProps.

(** ** [transform::ShareForallOperandsOp] *)

Module ShareForallProps.
Import IR Transform ShareForall.

(** C10.  On a live [scf.forall] and an empty index list the op succeeds,
    returns the target as its single result and leaves the payload as it
    was: the loop runs over the (empty) attribute, not over the local list
    that was filled with every output index. *)
Theorem empty_share_operands_is_noop ir forallOp op rank bounds outputs body :
  ops ir !! forallOp = Some op →
  kind op = ScfForall rank bounds outputs body →
  applyToOne [] forallOp ir = Some (Success, [forallOp], ir).
Proof.
  intros Hlive Hkind. unfold applyToOne, getOutputs.
  rewrite Hlive. simpl. rewrite Hkind. reflexivity.
Qed.

End ShareForallProps.

(** ** [transform::ApplyPatternsOp]: attributes, outcome and loop motion *)

Module ApplyOutcomeProps.
Import IR Transform ApplyPatterns ApplyAttributes ApplyPatternsProps.

(** A traversal that meets no operation of the requested type runs its
    callback on none. *)
Lemma walkWith_no_match {S : Type} (payload : S → IR) OpTy
    (callback : positive → S → S) root s :
  (∀ o op, o ∈ walk (payload s) root → ops (payload s) !! o = Some op →
           OpTy (kind op) = false) →
  walkWith payload OpTy callback root s = s.
Proof.
  unfold walkWith. generalize (walk (payload s) root) as visit.
  induction visit as [| o visit IH]; intros Hno; simpl; [done |].
  assert (Hstep : match ops (payload s) !! o with
                  | Some op => if OpTy (kind op) then callback o s else s
                  | None => s
                  end = s).
  { destruct (ops (payload s) !! o) as [op |] eqn:Ho; [| done].
    by rewrite (Hno o op) by (done || left). }
  rewrite Hstep. apply IH. intros o' op' Ho'. apply Hno. by right.
Qed.



Section host.
Variable applyOpPatternsAndFold :
  list positive → list Pattern → IR → LogicalResult * IR.
Variable moveLoopInvariantCode : positive → IR → IR.
Variable promoteIfSingleIteration : positive → IR → LogicalResult * IR.

#[local] Abbreviation applyToOne :=
  (applyToOne applyOpPatternsAndFold moveLoopInvariantCode
              promoteIfSingleIteration).
#[local] Abbreviation licmPhase :=
  (licmPhase moveLoopInvariantCode promoteIfSingleIteration).

(** The op on a live isolated target, by the verdict of the driver. *)
Lemma applyToOne_unfold self target targetOp ir result ir1 :
  ops ir !! target = Some targetOp →
  hasTraitIsIsolatedFromAbove (kind targetOp) = true →
  applyOpPatternsAndFold (nestedOps ir target) (populatePatterns self) ir
  = (result, ir1) →
  applyToOne self target ir
  = if failed result
    then Some (DefiniteFailure target "greedy patterns failed", [], ir1)
    else Some (Success, [target],
               if getLicm self then licmPhase target ir1 else ir1).
Proof.
  intros Hlive Hiso Hdriver. unfold ApplyPatterns.applyToOne.
  rewrite Hlive. simpl. rewrite Hiso. simpl. rewrite Hdriver.
  destruct (failed result); [done |].
  destruct (getCse self); [| done]. by rewrite csePhase_noop.
Qed.

(** X1.  The op reads neither [rank_reducing_linalg],
    [rank_reducing_linalg_via_reshapes], [unroll_vectors_gpu_mma_sync] nor
    [unroll_vectors_gpu_wmma], and reads [swap_padding_elide_conditional]
    only under [swapping_patterns]: with these attributes cleared it
    returns the same diagnostic, results and payload, on every target and
    payload and for every host engine. *)
Theorem unread_attributes_have_no_effect (self : ApplyPatternsOp) target ir :
  populatePatterns (effectiveAttributes self) = populatePatterns self ∧
  applyToOne (effectiveAttributes self) target ir = applyToOne self target ir.
Proof.
  assert (Hp : populatePatterns (effectiveAttributes self)
               = populatePatterns self).
  { destruct self. unfold populatePatterns. cbn -[addIf].
    by destruct getSwappingPatterns0. }
  split; [done |].
  unfold ApplyPatterns.applyToOne. rewrite Hp. by destruct self.
Qed.

(** X2.  On a live isolated target the verdict of the greedy driver decides
    the outcome.  When the driver fails, the op fails definitely on the
    target with no result and the payload as the driver left it, and the
    loop utilities are not run.  When it succeeds, the op succeeds with the
    target as its single result, whatever single-iteration promotion
    reports, and the payload is the driver's, moved through the
    loop-invariant code motion phase when [licm] is set. *)
Theorem outcome_follows_driver (self : ApplyPatternsOp) target targetOp ir
    result ir1 :
  ops ir !! target = Some targetOp →
  hasTraitIsIsolatedFromAbove (kind targetOp) = true →
  applyOpPatternsAndFold (nestedOps ir target) (populatePatterns self) ir
  = (result, ir1) →
  (result = failure →
   applyToOne self target ir
   = Some (DefiniteFailure target "greedy patterns failed", [], ir1)) ∧
  (result = success →
   applyToOne self target ir
   = Some (Success, [target],
           if getLicm self then licmPhase target ir1 else ir1)).
Proof.
  intros Hlive Hiso Hdriver.
  rewrite (applyToOne_unfold self target targetOp ir result ir1
             Hlive Hiso Hdriver).
  split; intros ->; done.
Qed.

(** X3.  Loop-invariant code motion and single-iteration promotion run on
    the loops under the [func.func] operations of the target only: when no
    operation under the target (the target included) is a [func.func], the
    op with [licm] set returns the payload the driver produced. *)
Theorem licm_needs_a_function (self : ApplyPatternsOp) target targetOp ir
    ir1 :
  ops ir !! target = Some targetOp →
  hasTraitIsIsolatedFromAbove (kind targetOp) = true →
  applyOpPatternsAndFold (nestedOps ir target) (populatePatterns self) ir
  = (success, ir1) →
  (∀ o op, o ∈ walk ir1 target → ops ir1 !! o = Some op →
           isFuncOp (kind op) = false) →
  licmPhase target ir1 = ir1 ∧
  applyToOne self target ir = Some (Success, [target], ir1).
Proof.
  intros Hlive Hiso Hdriver Hnofunc.
  assert (Hl : licmPhase target ir1 = ir1)
    by (by apply (walkWith_no_match id)).
  split; [done |].
  rewrite (applyToOne_unfold self target targetOp ir success ir1
             Hlive Hiso Hdriver).
  simpl. rewrite Hl. by destruct (getLicm self).
Qed.

End host.


End ApplyOutcomeProps.

(** ** [transform::HoistStaticAllocOp]: candidates, fixpoint, insertion
    point *)

Module HoistCandidatesProps.
Import IR Transform HoistAlloc HoistVocabulary IRFacts HoistAllocProps
  HoistOneProps HoistStaticProps HoistFuncProps HoistReachProps.

#[local] Arguments insertOp : simpl never.
#[local] Arguments eraseAll : simpl never.
#[local] Arguments replaceAllUsesWith : simpl never.
#[local] Arguments replaced : simpl never.
#[local] Arguments withDealloc : simpl never.
#[local] Arguments allocAtEntry : simpl never.

Section candidates.
Variable getConstantUpperBoundForIndex : IR → Value → option Z.
Variable K : AllocLikeOpType.

(** The test of the collecting walk answers on every live operation of a
    function with a body. *)
Lemma isHoistable_total ir funcOp entry o :
  frontBlock ir funcOp = Some entry →
  is_Some (ops ir !! o) →
  is_Some (isHoistable K ir funcOp o).
Proof.
  intros Hf [[k b] Ho]. unfold isHoistable. rewrite Ho. simpl.
  destruct k; try by eexists.
  case_decide; [| by eexists]. rewrite Hf. simpl.
  repeat case_decide; by eexists.
Qed.

(** What keeps an operation out of the collection: it is no allocation of
    kind [K], or it sits in the entry block, or it has dynamic sizes and a
    use that a sub-view cannot replace. *)
Lemma isHoistable_false ir funcOp entry o :
  frontBlock ir funcOp = Some entry →
  is_Some (ops ir !! o) →
  (∀ type dynamicSizes alignment b,
     ops ir !! o
     = Some (mkOperation (AllocLike K type dynamicSizes alignment) b) →
     b = Some entry ∨
     (dynamicSizes ≠ [] ∧
      ∃ use, use ∈ getOpUses ir o ∧
             isUseReplaceableWithSubview ir use = false)) →
  isHoistable K ir funcOp o = Some false.
Proof.
  intros Hf Ho Hnot.
  destruct (isHoistable_total ir funcOp entry o Hf Ho) as [[|] Hk]; [| done].
  exfalso. pose proof Hk as Hk'.
  apply isHoistable_true_iff in Hk'
    as (type & dyn & al & b & entry' & Hop & Hf' & Hb & Hc).
  assert (entry' = entry) as -> by congruence.
  destruct (Hnot _ _ _ _ Hop) as [-> | (Hdyn & use & Huse & Hrep)]; [done |].
  destruct Hc as [-> | Hall]; [done |].
  rewrite forallb_forall in Hall.
  rewrite (Hall use) in Hrep; [done |]. by apply list_elem_of_In.
Qed.

Lemma collectHoistable_nil ir funcOp visit :
  (∀ o, o ∈ visit → isHoistable K ir funcOp o = Some false) →
  collectHoistable K ir funcOp visit = Some [].
Proof.
  induction visit as [| o visit IH]; intros Hno; simpl; [done |].
  rewrite (Hno o) by left. simpl.
  rewrite IH; [done |]. intros o' Ho'. apply Hno. by right.
Qed.

Lemma collectHoistable_total ir funcOp entry visit :
  frontBlock ir funcOp = Some entry →
  (∀ o, o ∈ visit → is_Some (ops ir !! o)) →
  ∃ l, collectHoistable K ir funcOp visit = Some l ∧ l `sublist_of` visit.
Proof.
  intros Hf. induction visit as [| o visit IH]; intros Hlive; simpl.
  - by exists [].
  - destruct (isHoistable_total ir funcOp entry o Hf) as [keep ->];
      [apply Hlive; left |].
    destruct IH as (l & -> & Hsub); [intros o' Ho'; apply Hlive; by right |].
    simpl. destruct keep; eexists; split; try done.
    + by apply sublist_skip.
    + by apply sublist_cons.
Qed.

(** A function without candidates goes through the hoister unchanged. *)
Lemma hoister_without_candidates funcOp entry ir ip :
  frontBlock ir funcOp = Some entry →
  (∀ a type dynamicSizes alignment b,
     a ∈ walk ir funcOp →
     ops ir !! a
     = Some (mkOperation (AllocLike K type dynamicSizes alignment) b) →
     b = Some entry ∨
     (dynamicSizes ≠ [] ∧
      ∃ use, use ∈ getOpUses ir a ∧
             isUseReplaceableWithSubview ir use = false)) →
  hoistStaticallyBoundAllocationsInFunc getConstantUpperBoundForIndex K funcOp
    (mkBuilder ir ip)
  = Some (tt, mkBuilder ir ip).
Proof.
  intros Hf Hnot.
  rewrite (hoistInFunc_unfold _ _ _ _ _ []); [done |].
  apply collectHoistable_nil. intros o Ho.
  apply (isHoistable_false ir funcOp entry o Hf); [by eapply walk_live |].
  intros type dyn al b Hop. by eapply Hnot.
Qed.

(** *** A function whose allocations outside the entry block are static *)

#[local] Abbreviation Covered := (Covered K).
#[local] Abbreviation StaticAlloc := (StaticAlloc K).

Lemma lookup_staticHoist entry t bt type alignment ir x op :
  ops (staticHoist K entry t bt type alignment ir) !! x = Some op →
  (x = fresh (dom (ops ir)) ∧
   op = mkOperation (AllocLike K type [] alignment) (Some entry)) ∨
  isDeallocOp (kind op) = true ∨
  ops ir !! x = Some op.
Proof.
  unfold staticHoist, withDealloc, allocAtEntry.
  case_decide.
  - rewrite lookup_insertOp. case_decide; [intros [= <-]; by right; left |].
    rewrite lookup_insertOp. case_decide; [intros [= <-]; by left |].
    intros ?. by right; right.
  - rewrite lookup_insertOp. case_decide; [intros [= <-]; by left |].
    intros ?. by right; right.
Qed.

Lemma mapOperands_AllocLike f k k0 type dynamicSizes alignment :
  mapOperands f k = AllocLike k0 type dynamicSizes alignment →
  ∃ dynamicSizes0,
    k = AllocLike k0 type dynamicSizes0 alignment ∧
    dynamicSizes = f <$> dynamicSizes0.
Proof. destruct k; try done. simpl. intros [= <- <- <- <-]. by eexists. Qed.

Lemma hoistAndReplace_static_step funcOp entry t a l ir ip :
  EntryEndsIn ir funcOp entry t entry →
  NoDup (a :: l) →
  Forall (StaticAlloc ir) (a :: l) →
  Covered ir entry (a :: l) →
  ∃ ir',
    hoistAndReplace getConstantUpperBoundForIndex K funcOp a (mkBuilder ir ip)
    = Some (tt, mkBuilder ir' ip) ∧
    EntryEndsIn ir' funcOp entry t entry ∧
    Forall (StaticAlloc ir') l ∧
    Covered ir' entry l.
Proof.
  intros Hentry [Hal Hnd]%NoDup_cons [(type & al & pb & Ha) Hl]%Forall_cons
    Hcov.
  eexists. split; [by eapply hoistAndReplace_static |].
  assert (Hext : ∀ x o, ops ir !! x = Some o →
                        ops (staticHoist K entry t entry type al ir) !! x
                        = Some o).
  { intros x o Hx.
    by apply lookup_withDealloc_live, lookup_allocAtEntry_live. }
  split_and!.
  - eapply EntryEndsIn_replaced; [exact Ha | done | done | done | | done].
    by apply EntryEndsIn_withDealloc, EntryEndsIn_allocAtEntry.
  - apply Forall_forall. intros a' Hin.
    eapply Forall_forall in Hl as (type' & al' & pb' & Ha'); [| exact Hin].
    destruct (SameAlloc_replaced K ir _ a
                (OpResult (fresh (dom (ops ir))) 0) a' Hext
                ltac:(intros ->; done) _ _ _ _ Ha')
      as (dyn' & Hop' & Hlen).
    destruct dyn'; [| done]. by exists type', al', pb'.
  - intros x type' dyn' al' b Hx.
    rewrite lookup_replaced in Hx. case_decide as Hdead; [done |].
    destruct (ops (staticHoist K entry t entry type al ir) !! x)
      as [op0 |] eqn:Hop0; [| done].
    simpl in Hx. injection Hx as Hk Hb.
    apply mapOperands_AllocLike in Hk as (dyn0 & Hk & _).
    destruct (lookup_staticHoist _ _ _ _ _ _ _ _ Hop0)
      as [[_ ->] | [Hd | Hold]].
    + left. by rewrite <- Hb.
    + by rewrite Hk in Hd.
    + destruct op0 as [k0 b0]. simpl in *. subst k0 b0.
      destruct (Hcov _ _ _ _ _ Hold) as [-> | Hin]; [by left |].
      right. apply elem_of_cons in Hin as [-> | Hin]; [| done].
      exfalso. apply Hdead. left.
Qed.

Lemma forEach_static funcOp entry t l : ∀ ir ip,
  EntryEndsIn ir funcOp entry t entry →
  NoDup l →
  Forall (StaticAlloc ir) l →
  Covered ir entry l →
  ∃ ir',
    forEach (hoistAndReplace getConstantUpperBoundForIndex K funcOp) l
      (mkBuilder ir ip)
    = Some (tt, mkBuilder ir' ip) ∧
    EntryEndsIn ir' funcOp entry t entry ∧
    Covered ir' entry [].
Proof.
  induction l as [| a l IH]; intros ir ip Hentry Hnd Hall Hcov; simpl.
  - by exists ir.
  - destruct (hoistAndReplace_static_step funcOp entry t a l ir ip
                Hentry Hnd Hall Hcov)
      as (ir1 & Hstep & Hentry1 & Hall1 & Hcov1).
    apply NoDup_cons in Hnd as [_ Hnd].
    destruct (IH ir1 ip Hentry1 Hnd Hall1 Hcov1)
      as (ir' & Hrun & Hentry' & Hcov').
    exists ir'. split_and!; try done.
    by rewrite (bind_Some _ _ _ _ _ Hstep).
Qed.

End candidates.

(** X5.  What the hoisting op leaves alone.  On a function with a body in
    which every [memref.alloc] sits in the entry block or has dynamic sizes
    and a use by an operation that is neither a structured op, a
    deallocation, a store nor a sub-view, the op succeeds and returns the
    payload unchanged.  Nothing is asked of the [memref.alloca]s: the op
    instantiates the hoister at [memref.alloc] only. *)
Theorem nothing_to_hoist
    (getConstantUpperBoundForIndex : IR → Value → option Z)
    funcOp entry ir :
  frontBlock ir funcOp = Some entry →
  (∀ a type dynamicSizes alignment b,
     a ∈ walk ir funcOp →
     ops ir !! a
     = Some (mkOperation (AllocLike AllocOp type dynamicSizes alignment) b) →
     b = Some entry ∨
     (dynamicSizes ≠ [] ∧
      ∃ use, use ∈ getOpUses ir a ∧
             isUseReplaceableWithSubview ir use = false)) →
  applyToOne getConstantUpperBoundForIndex funcOp ir
  = Some (Success, [funcOp], ir).
Proof.
  intros Hf Hnot. unfold applyToOne.
  assert (Hfunc : is_Some (ops ir !! funcOp)).
  { unfold frontBlock in Hf. by destruct (ops ir !! funcOp). }
  destruct Hfunc as [fop ->]. simpl.
  by rewrite (hoister_without_candidates getConstantUpperBoundForIndex
                AllocOp funcOp entry ir None Hf Hnot).
Qed.

(** X6.  All static allocations end in the entry block, and the op is then
    at a fixpoint.  On a function whose entry block ends in its terminator,
    whose walk meets no operation twice, and in which every [memref.alloc]
    outside the entry block is under the function, in a block, and has no
    dynamic size: the op succeeds; in the payload it returns every live
    [memref.alloc] sits in the entry block; and run on that payload again
    the op returns it unchanged. *)
Theorem static_allocations_reach_entry
    (getConstantUpperBoundForIndex : IR → Value → option Z)
    funcOp entry t ir :
  EntryEndsIn ir funcOp entry t entry →
  NoDup (walk ir funcOp) →
  (∀ a type dynamicSizes alignment b,
     ops ir !! a
     = Some (mkOperation (AllocLike AllocOp type dynamicSizes alignment) b) →
     b = Some entry ∨
     (a ∈ walk ir funcOp ∧ dynamicSizes = [] ∧ is_Some b)) →
  ∃ ir',
    applyToOne getConstantUpperBoundForIndex funcOp ir
    = Some (Success, [funcOp], ir') ∧
    (∀ a type dynamicSizes alignment b,
       ops ir' !! a
       = Some (mkOperation (AllocLike AllocOp type dynamicSizes alignment) b) →
       b = Some entry) ∧
    applyToOne getConstantUpperBoundForIndex funcOp ir'
    = Some (Success, [funcOp], ir').
Proof.
  intros Hentry Hnd Hstatic. pose proof Hentry as (Hf & _).
  assert (Hfunc : is_Some (ops ir !! funcOp)).
  { unfold frontBlock in Hf. by destruct (ops ir !! funcOp). }
  destruct Hfunc as [fop Hfop].
  destruct (collectHoistable_total AllocOp ir funcOp entry (walk ir funcOp)
              Hf) as (l & Hl & Hsub); [intros o; apply walk_live |].
  assert (Hndl : NoDup l) by (by eapply sublist_NoDup).
  assert (Hall : Forall (HoistVocabulary.StaticAlloc AllocOp ir) l).
  { apply Forall_forall. intros a Ha.
    apply (collectHoistable_elem getConstantUpperBoundForIndex _ _ _ _ _ a
             Hl) in Ha as [_ Hk].
    apply isHoistable_true_iff in Hk
      as (type & dyn & al & b & entry' & Hop & Hf' & Hb & _).
    assert (entry' = entry) as -> by congruence.
    destruct (Hstatic _ _ _ _ _ Hop) as [-> | (_ & -> & [pb ->])]; [done |].
    by exists type, al, pb. }
  assert (Hcov : HoistVocabulary.Covered AllocOp ir entry l).
  { intros x type dyn al b Hx.
    destruct (decide (b = Some entry)) as [-> | Hb]; [by left |]. right.
    destruct (Hstatic _ _ _ _ _ Hx) as [-> | (Hw & -> & _)]; [done |].
    apply (collectHoistable_elem getConstantUpperBoundForIndex _ _ _ _ _ x
             Hl). split; [done |].
    apply isHoistable_true_iff. exists type, [], al, b, entry.
    split_and!; try done. by left. }
  destruct (forEach_static getConstantUpperBoundForIndex AllocOp funcOp entry
              t l ir None Hentry Hndl Hall Hcov)
    as (ir' & Hrun & Hentry' & Hcov').
  assert (Hin : ∀ a type dynamicSizes alignment b,
            ops ir' !! a
            = Some (mkOperation (AllocLike AllocOp type dynamicSizes alignment)
                                b) →
            b = Some entry).
  { intros a type dyn al b Ha.
    destruct (Hcov' _ _ _ _ _ Ha) as [-> | Hnil]; [done |].
    by apply elem_of_nil in Hnil. }
  exists ir'. split_and!.
  - unfold applyToOne. rewrite Hfop. simpl.
    by rewrite (hoistInFunc_unfold _ _ _ _ _ l Hl), Hrun.
  - exact Hin.
  - pose proof Hentry' as (Hf' & _). unfold applyToOne.
    assert (Hfunc' : is_Some (ops ir' !! funcOp)).
    { unfold frontBlock in Hf'. by destruct (ops ir' !! funcOp). }
    destruct Hfunc' as [fop' ->]. simpl.
    rewrite (hoister_without_candidates getConstantUpperBoundForIndex
               AllocOp funcOp entry ir' None Hf'); [done |].
    intros a type dyn al b _ Ha. left. by eapply Hin.
Qed.

(** X7.  Where the hoisting function leaves the builder.  With the builder
    set before an allocation [a] outside the entry block of a function
    whose entry block ends in a terminator [t] of block [bt]: the
    six-argument function returns with the insertion point as it found it
    in the static case and in the dynamic case without a bound; in the
    bounded dynamic case it returns with the insertion point before [t]
    when instantiated at [memref.alloc] (the deallocation is created outside
    the guard), and as it found it when instantiated at [memref.alloca].
    The three-argument overload restores the caller's insertion point. *)
Theorem insertion_point_after_hoist
    (getConstantUpperBoundForIndex : IR → Value → option Z)
    (K : AllocLikeOpType) funcOp entry t bt pb a type dynamicSizes alignment
    ir bounds :
  EntryEndsIn ir funcOp entry t bt →
  pb ≠ entry →
  ops ir !! a
  = Some (mkOperation (AllocLike K type dynamicSizes alignment) (Some pb)) →
  boundShape getConstantUpperBoundForIndex ir (getShape type) dynamicSizes
    0 [] [] = Some bounds →
  let before := Some (mkInsertPoint pb (Some a)) in
  (∃ r ir',
     hoistOneStaticallyBoundAllocationAt getConstantUpperBoundForIndex K
       funcOp type dynamicSizes alignment (mkBuilder ir before)
     = Some (r, mkBuilder ir'
                  (if decide (dynamicSizes ≠ [] ∧ is_Some bounds ∧
                              K = AllocOp)
                   then Some (mkInsertPoint bt (Some t))
                   else before))) ∧
  (∀ ip, ∃ r ir',
     hoistOneStaticallyBoundAllocation getConstantUpperBoundForIndex K
       funcOp a (mkBuilder ir ip)
     = Some (r, mkBuilder ir' ip)).
Proof.
  intros Hentry Hpb Ha Hb before. subst before.
  assert (Hat : ∃ r ir',
     hoistOneStaticallyBoundAllocationAt getConstantUpperBoundForIndex K
       funcOp type dynamicSizes alignment
       (mkBuilder ir (Some (mkInsertPoint pb (Some a))))
     = Some (r, mkBuilder ir'
                  (if decide (dynamicSizes ≠ [] ∧ is_Some bounds ∧
                              K = AllocOp)
                   then Some (mkInsertPoint bt (Some t))
                   else Some (mkInsertPoint pb (Some a))))).
  { destruct (decide (dynamicSizes = [])) as [-> | Hdyn].
    - rewrite decide_False by (intros [? _]; done).
      do 2 eexists. by eapply hoistOneAt_static.
    - destruct bounds as [[staticShape subviewSizes] |].
      + do 2 eexists.
        rewrite (hoistOneAt_bounded getConstantUpperBoundForIndex K funcOp
                   type dynamicSizes alignment ir entry t bt pb a staticShape
                   subviewSizes Hdyn Hb Hentry Hpb).
        do 2 f_equal. destruct (decide (K = AllocOp)) as [HK | HK].
        * by rewrite decide_True.
        * rewrite decide_False; [done |]. intros (_ & _ & ?). done.
      + rewrite decide_False by (intros (_ & [? ?] & _); done).
        do 2 eexists. by apply hoistOneAt_unbounded. }
  split; [exact Hat |].
  intros ip. destruct Hat as (r & ir' & Hat).
  exists r, ir'.
  rewrite (hoistOne_unfold getConstantUpperBoundForIndex K funcOp a type
             dynamicSizes alignment pb ir ip Ha).
  by rewrite Hat.
Qed.

End HoistCandidatesProps.

(** ** [transform::ShareForallOperandsOp]: outcome, effect and frame *)

Module ShareOutcomeProps.
Import IR Transform ShareForall ShareVocabulary.

#[local] Abbreviation retarget bbArg :=
  (λ op, match kind op with
         | ExtractSlice _ offsets sizes strides =>
             mkOperation (ExtractSlice bbArg offsets sizes strides)
                         (getBlock op)
         | _ => op
         end).

Lemma lookup_assignSource e bbArg ir x :
  ops (assignSource e bbArg ir) !! x
  = if decide (x = e) then retarget bbArg <$> ops ir !! x else ops ir !! x.
Proof.
  unfold assignSource. cbn [ops]. case_decide as Hx.
  - subst. by rewrite lookup_alter_eq.
  - by rewrite lookup_alter_ne.
Qed.

(** The assignment keeps what the traversal of regions and the traits
    read. *)
Lemma retarget_regions bbArg op :
  getRegions (kind (retarget bbArg op)) = getRegions (kind op).
Proof. destruct op as [k b]. by destruct k. Qed.

Lemma retarget_terminator bbArg op :
  hasTraitIsTerminator (kind (retarget bbArg op))
  = hasTraitIsTerminator (kind op).
Proof. destruct op as [k b]. by destruct k. Qed.

Lemma frontBlock_assignSource e bbArg ir o :
  frontBlock (assignSource e bbArg ir) o = frontBlock ir o.
Proof.
  unfold frontBlock. rewrite lookup_assignSource. case_decide; [| done].
  destruct (ops ir !! o) as [op |]; [| done]. simpl.
  by rewrite retarget_regions.
Qed.

Lemma getTerminator_assignSource e bbArg ir b :
  getTerminator (assignSource e bbArg ir) b = getTerminator ir b.
Proof.
  unfold getTerminator, blockOps.
  change (blocks (assignSource e bbArg ir)) with (blocks ir).
  destruct (last (default [] (blocks ir !! b))) as [t |]; [| done].
  cbn [mbind option_bind].
  rewrite lookup_assignSource. case_decide; [| done].
  destruct (ops ir !! t) as [op |]; [| done]. simpl.
  by rewrite retarget_terminator.
Qed.

Lemma getYieldingOps_assignSource e bbArg ir f :
  getYieldingOps (assignSource e bbArg ir) f = getYieldingOps ir f.
Proof.
  unfold getYieldingOps. rewrite frontBlock_assignSource.
  destruct (frontBlock ir f) as [body |]; [| done]. cbn [mbind option_bind].
  rewrite getTerminator_assignSource.
  destruct (getTerminator ir body) as [t |]; [| done]. cbn [mbind option_bind].
  rewrite frontBlock_assignSource.
  by destruct (frontBlock ir t).
Qed.

Lemma getOutputs_assignSource e bbArg ir f :
  getOutputs (assignSource e bbArg ir) f = getOutputs ir f.
Proof.
  unfold getOutputs. rewrite lookup_assignSource. case_decide; [| done].
  destruct (ops ir !! f) as [[k b] |]; [| done]. simpl. by destruct k.
Qed.

Lemma ForallWithTerminator_assignSource e bbArg ir f outputs :
  ForallWithTerminator ir f outputs →
  ForallWithTerminator (assignSource e bbArg ir) f outputs.
Proof.
  intros [Ho Hy]. split.
  - by rewrite getOutputs_assignSource.
  - by rewrite getYieldingOps_assignSource.
Qed.

Lemma SliceSourcesOnly_refl ir : SliceSourcesOnly ir ir.
Proof.
  split; [done |]. intros x. destruct (ops ir !! x); [| done]. by split; [| left].
Qed.

Lemma SliceSourcesOnly_trans ir1 ir2 ir3 :
  SliceSourcesOnly ir1 ir2 → SliceSourcesOnly ir2 ir3 →
  SliceSourcesOnly ir1 ir3.
Proof.
  intros [Hb12 H12] [Hb23 H23]. split; [congruence |]. intros x.
  specialize (H12 x). specialize (H23 x).
  destruct (ops ir1 !! x) as [op1 |], (ops ir2 !! x) as [op2 |],
    (ops ir3 !! x) as [op3 |]; try done.
  destruct H12 as [Hg12 Hk12], H23 as [Hg23 Hk23]. split; [congruence |].
  destruct Hk12 as [Hk12 | (s1 & s1' & o & sz & st & Hk1 & Hk2)],
    Hk23 as [Hk23 | (s2 & s2' & o' & sz' & st' & Hk2' & Hk3)].
  - left. congruence.
  - right. exists s2, s2', o', sz', st'. split; congruence.
  - right. exists s1, s1', o, sz, st. split; congruence.
  - right. exists s1, s2', o, sz, st. split; [done |]. congruence.
Qed.

Lemma SliceSourcesOnly_assignSource e bbArg ir :
  SliceSourcesOnly ir (assignSource e bbArg ir).
Proof.
  split; [done |]. intros x. rewrite lookup_assignSource.
  case_decide; destruct (ops ir !! x) as [[k b] |]; try done.
  - simpl. destruct k; try (by split; [| left]).
    split; [done |]. right. by do 5 eexists.
  - by split; [| left].
Qed.

(** One iteration: it returns; it fails exactly on an index out of range;
    otherwise it hands on a payload that differs in slice sources at
    most. *)
Lemma shareOperand_spec forallOp outputIdx ir outputs :
  ForallWithTerminator ir forallOp outputs →
  if decide (inRange (length outputs) outputIdx)
  then ∃ ir', shareOperand forallOp outputIdx ir = Some (Continue ir') ∧
              ForallWithTerminator ir' forallOp outputs ∧
              SliceSourcesOnly ir ir'
  else shareOperand forallOp outputIdx ir
       = Some (Return (DefiniteFailure forallOp "operand idx overflow")).
Proof.
  intros [Ho Hy]. unfold shareOperand. rewrite Ho. simpl.
  unfold inRange. case_decide as Hr.
  - rewrite orb_false_intro by (apply bool_decide_eq_false; lia).
    assert (Hlt : Z.to_nat outputIdx < length outputs) by lia.
    destruct (lookup_lt_is_Some_2 _ _ Hlt) as [toShare ->]. simpl.
    assert (Hsame : ∃ ir', Some (Continue ir) = Some (Continue ir') ∧
                           ForallWithTerminator ir' forallOp outputs ∧
                           SliceSourcesOnly ir ir').
    { exists ir. split_and!; [done | by split | apply SliceSourcesOnly_refl]. }
    case_bool_decide; [done |].
    destruct (list_find _ _) as [[? e] |]; [| done].
    assert (Hbb : is_Some (getOutputBlockArgument ir forallOp
                             (Z.to_nat outputIdx))).
    { destruct Hy as [ys Hy]. unfold getYieldingOps in Hy.
      destruct (frontBlock ir forallOp) as [body |] eqn:Hfb; [| done].
      unfold getOutputBlockArgument. unfold getOutputs in Ho.
      destruct (ops ir !! forallOp) as [[k b] |]; [| done].
      cbn [mbind option_bind kind] in *.
      destruct k; try done. injection Ho as ->. rewrite Hfb.
      cbn [mbind option_bind]. rewrite decide_True by done. by eexists. }
    destruct Hbb as [bbArg ->]. destruct Hy as [yielding Hy]. rewrite Hy.
    simpl. destruct (existsb _ _); simpl; [| done].
    eexists. split_and!; [done | |].
    + apply ForallWithTerminator_assignSource. by split.
    + apply SliceSourcesOnly_assignSource.
  - assert (Hor : bool_decide (outputIdx < 0)%Z
                  || bool_decide (Z.of_nat (length outputs) ≤ outputIdx)%Z
                  = true).
    { apply orb_true_intro.
      destruct (decide (outputIdx < 0)%Z).
      - left. by apply bool_decide_eq_true.
      - right. apply bool_decide_eq_true. lia. }
    by rewrite Hor.
Qed.

(** The loop over a list of indices that are all in range. *)
Lemma forEachOutputIdx_in_range forallOp outputs indices : ∀ ir,
  ForallWithTerminator ir forallOp outputs →
  Forall (inRange (length outputs)) indices →
  ∃ ir', forEachOutputIdx forallOp indices ir
         = Some (Success, [forallOp], ir') ∧
         ForallWithTerminator ir' forallOp outputs ∧
         SliceSourcesOnly ir ir'.
Proof.
  induction indices as [| i indices IH]; intros ir Hwf Hall; simpl.
  - exists ir. split_and!; [done | done | apply SliceSourcesOnly_refl].
  - apply Forall_cons in Hall as [Hi Hall].
    pose proof (shareOperand_spec forallOp i ir outputs Hwf) as Hstep.
    rewrite decide_True in Hstep by done.
    destruct Hstep as (ir1 & -> & Hwf1 & Hs1). simpl.
    destruct (IH ir1 Hwf1 Hall) as (ir' & Hrun & Hwf' & Hs').
    exists ir'. split_and!; [done | done |].
    by eapply SliceSourcesOnly_trans.
Qed.

(** The loop up to and including the first index out of range. *)
Lemma forEachOutputIdx_overflow forallOp outputs pre i post : ∀ ir,
  ForallWithTerminator ir forallOp outputs →
  Forall (inRange (length outputs)) pre →
  ¬ inRange (length outputs) i →
  ∃ ir', forEachOutputIdx forallOp pre ir = Some (Success, [forallOp], ir') ∧
         forEachOutputIdx forallOp (pre ++ i :: post) ir
         = Some (DefiniteFailure forallOp "operand idx overflow", [], ir') ∧
         SliceSourcesOnly ir ir'.
Proof.
  induction pre as [| j pre IH]; intros ir Hwf Hall Hi; simpl.
  - exists ir. split_and!; [done | | apply SliceSourcesOnly_refl].
    pose proof (shareOperand_spec forallOp i ir outputs Hwf) as Hstep.
    rewrite decide_False in Hstep by done. by rewrite Hstep.
  - apply Forall_cons in Hall as [Hj Hall].
    pose proof (shareOperand_spec forallOp j ir outputs Hwf) as Hstep.
    rewrite decide_True in Hstep by done.
    destruct Hstep as (ir1 & -> & Hwf1 & Hs1). simpl.
    destruct (IH ir1 Hwf1 Hall Hi) as (ir' & Hrun & Hfail & Hs').
    exists ir'. split_and!; [done | done |].
    by eapply SliceSourcesOnly_trans.
Qed.

(** A list of indices is all in range, or splits at its first index out of
    range. *)
Lemma first_out_of_range n (indices : list Z) :
  Forall (inRange n) indices ∨
  ∃ pre i post, indices = pre ++ i :: post ∧ Forall (inRange n) pre ∧
                ¬ inRange n i.
Proof.
  induction indices as [| j indices IH]; [by left |].
  destruct (decide (inRange n j)) as [Hj | Hj].
  - destruct IH as [Hall | (pre & i & post & -> & Hpre & Hi)].
    + left. by constructor.
    + right. exists (j :: pre), i, post. split_and!; [done | | done].
      by constructor.
  - right. exists [], j, indices. by split_and!.
Qed.

Lemma shareForall_unfold indices forallOp ir outputs :
  getOutputs ir forallOp = Some outputs →
  applyToOne indices forallOp ir = forEachOutputIdx forallOp indices ir.
Proof.
  intros Ho. unfold applyToOne. rewrite Ho. by case_decide.
Qed.

(** *** Running the op again *)

Lemma elem_of_slotsOf (P : Value → bool) o op u :
  u ∈ slotsOf P o op ↔
  getOwner u = o ∧
  ∃ w, operands (kind op) !! getOperandNumber u = Some w ∧ P w = true.
Proof.
  unfold slotsOf. rewrite list_elem_of_omap. split.
  - intros ([i w] & Hin & Hu).
    apply list_elem_of_lookup in Hin as [n Hn].
    rewrite list_lookup_imap in Hn.
    destruct (operands (kind op) !! n) as [w' |] eqn:Hw; [| done].
    simpl in Hn. injection Hn as <- <-.
    destruct (P w') eqn:HP; [| done]. injection Hu as <-. simpl.
    split; [done |]. by exists w'.
  - intros (<- & w & Hw & HP). exists (getOperandNumber u, w). split.
    + apply list_elem_of_lookup. exists (getOperandNumber u).
      by rewrite list_lookup_imap, Hw.
    + rewrite HP. by destruct u.
Qed.

Lemma elem_of_getUses ir v u :
  u ∈ getUses ir v ↔
  ∃ op, ops ir !! getOwner u = Some op ∧
        operands (kind op) !! getOperandNumber u = Some v.
Proof.
  unfold getUses. rewrite list_elem_of_bind. split.
  - intros ([o op] & Hu & Hin). apply elem_of_map_to_list in Hin.
    apply elem_of_slotsOf in Hu as (<- & w & Hw & HP).
    apply bool_decide_eq_true in HP as ->. by exists op.
  - intros (op & Hop & Hv). exists (getOwner u, op). split.
    + apply elem_of_slotsOf. split; [done |]. exists v.
      split; [done |]. by apply bool_decide_eq_true.
    + by apply elem_of_map_to_list.
Qed.

Lemma three_in_list {A : Type} (x y z : A) (l : list A) :
  x ∈ l → y ∈ l → z ∈ l → x ≠ y → x ≠ z → y ≠ z → 3 ≤ length l.
Proof.
  intros Hx Hy Hz Hxy Hxz Hyz.
  apply list_elem_of_split in Hx as (l1 & l2 & ->).
  assert (Hy' : y ∈ l1 ++ l2).
  { rewrite elem_of_app, elem_of_cons in Hy. rewrite elem_of_app.
    destruct Hy as [? | [? | ?]]; [by left | congruence | by right]. }
  assert (Hz' : z ∈ l1 ++ l2).
  { rewrite elem_of_app, elem_of_cons in Hz. rewrite elem_of_app.
    destruct Hz as [? | [? | ?]]; [by left | congruence | by right]. }
  apply list_elem_of_split in Hy' as (l3 & l4 & Heq).
  assert (Hz'' : z ∈ l3 ++ l4).
  { rewrite Heq, elem_of_app, elem_of_cons in Hz'. rewrite elem_of_app.
    destruct Hz' as [? | [? | ?]]; [by left | congruence | by right]. }
  assert (Hlen : length (l1 ++ l2) = length (l3 ++ y :: l4)) by (by f_equal).
  rewrite !length_app in *. cbn [length] in *.
  destruct (l3 ++ l4) as [| ? ?] eqn:Hl34; [by apply elem_of_nil in Hz'' |].
  apply (f_equal length) in Hl34. rewrite length_app in Hl34.
  cbn [length] in Hl34. lia.
Qed.

Lemma assignSource_idemp e bbArg ir :
  assignSource e bbArg (assignSource e bbArg ir) = assignSource e bbArg ir.
Proof.
  apply IRFacts.IR_eq; [| done]. intros x.
  rewrite !lookup_assignSource. case_decide; [| done].
  destruct (ops ir !! x) as [[k b] |]; [| done]. simpl. by destruct k.
Qed.

Lemma getOutputBlockArgument_assignSource e bbArg ir f n :
  getOutputBlockArgument (assignSource e bbArg ir) f n
  = getOutputBlockArgument ir f n.
Proof.
  unfold getOutputBlockArgument. rewrite frontBlock_assignSource.
  rewrite lookup_assignSource. case_decide; [| done].
  destruct (ops ir !! f) as [[k b] |]; [| done]. simpl. by destruct k.
Qed.

Lemma isExtractSlice_assignSource e bbArg ir x :
  isExtractSlice (assignSource e bbArg ir) x = isExtractSlice ir x.
Proof.
  unfold isExtractSlice. rewrite lookup_assignSource. case_decide; [| done].
  destruct (ops ir !! x) as [[k b] |]; [| done]. simpl. by destruct k.
Qed.

(** The iteration that has retargeted a slice finds nothing more to do. *)
Lemma shareOperand_again forallOp outputIdx ir ir1 :
  shareOperand forallOp outputIdx ir = Some (Continue ir1) →
  shareOperand forallOp outputIdx ir1 = Some (Continue ir1).
Proof.
  unfold shareOperand at 1.
  destruct (getOutputs ir forallOp) as [outputs |] eqn:Ho; [| done].
  cbn [mbind option_bind].
  destruct (bool_decide (outputIdx < 0)%Z
            || bool_decide (Z.of_nat (length outputs) ≤ outputIdx)%Z)
    eqn:Hrange; [done |].
  destruct (outputs !! Z.to_nat outputIdx) as [toShare |] eqn:Hi; [| done].
  cbn [mbind option_bind].
  assert (Hsame : shareOperand forallOp outputIdx ir = Some (Continue ir) →
                  shareOperand forallOp outputIdx ir = Some (Continue ir))
    by done.
  pose proof (eq_refl (shareOperand forallOp outputIdx ir)) as Hfirst.
  unfold shareOperand at 2 in Hfirst. rewrite Ho in Hfirst.
  cbn [mbind option_bind] in Hfirst. rewrite Hrange, Hi in Hfirst.
  cbn [mbind option_bind] in Hfirst.
  case_bool_decide as Hlen; [intros [= <-]; by rewrite Hfirst |].
  destruct (list_find _ (getUsers ir toShare)) as [[n e] |] eqn:Hfind;
    [| intros [= <-]; by rewrite Hfirst].
  destruct (getOutputBlockArgument ir forallOp (Z.to_nat outputIdx))
    as [bbArg |] eqn:Hbb; [| done].
  cbn [mbind option_bind] in *.
  destruct (getYieldingOps ir forallOp) as [yielding |] eqn:Hy; [| done].
  cbn [mbind option_bind] in *.
  destruct (existsb _ yielding) eqn:Hex; cbn [negb] in *;
    [| intros [= <-]; by rewrite Hfirst].
  intros [= <-]. clear Hfirst Hsame.
  (* the second run, on the payload with the slice retargeted *)
  unfold shareOperand. rewrite getOutputs_assignSource, Ho.
  cbn [mbind option_bind]. rewrite Hrange, Hi. cbn [mbind option_bind].
  destruct (bool_decide (length (getUses (assignSource e bbArg ir) toShare)
                         ≠ 2)); [done |].
  destruct (list_find _ (getUsers (assignSource e bbArg ir) toShare))
    as [[n2 e2] |] eqn:Hfind2; [| done].
  rewrite getOutputBlockArgument_assignSource, Hbb.
  cbn [mbind option_bind]. rewrite getYieldingOps_assignSource, Hy.
  cbn [mbind option_bind].
  destruct (existsb (isMatchingParallelInsertSlice (assignSource e bbArg ir)
                      bbArg e2) yielding); cbn [negb]; [| done].
  destruct (decide (e2 = e)) as [-> | Hne]; [by rewrite assignSource_idemp |].
  exfalso.
  apply list_find_Some in Hfind as (Hn & He & _).
  apply list_find_Some in Hfind2 as (Hn2 & He2 & _).
  rewrite isExtractSlice_assignSource in He2.
  unfold getUsers in Hn, Hn2. rewrite list_lookup_fmap in Hn, Hn2.
  destruct (getUses ir toShare !! n) as [u |] eqn:Hu; [| done].
  destruct (getUses (assignSource e bbArg ir) toShare !! n2) as [u2 |]
    eqn:Hu2; [| done].
  simpl in Hn, Hn2. injection Hn as <-. injection Hn2 as <-.
  apply list_elem_of_lookup_2 in Hu, Hu2.
  apply elem_of_getUses in Hu2 as (op2 & Hop2 & Hv2).
  rewrite lookup_assignSource, decide_False in Hop2 by done.
  assert (Hu2' : u2 ∈ getUses ir toShare)
    by (apply elem_of_getUses; by exists op2).
  (* the loop itself uses the output *)
  unfold getOutputs in Ho.
  destruct (ops ir !! forallOp) as [[k fb] |] eqn:Hf; [| done].
  cbn [mbind option_bind kind] in Ho. destruct k; try done.
  injection Ho as ->.
  assert (Huf : mkOpOperand forallOp (length bounds + Z.to_nat outputIdx)
                ∈ getUses ir toShare).
  { apply elem_of_getUses. eexists. split; [exact Hf |]. cbn.
    by rewrite lookup_app_r, Nat.add_sub' by lia. }
  assert (Hfe : isExtractSlice ir forallOp = false)
    by (unfold isExtractSlice; by rewrite Hf).
  pose proof (three_in_list _ _ _ _ Huf Hu Hu2') as Hthree.
  assert (3 ≤ length (getUses ir toShare)); [| lia].
  apply Hthree.
  - intros Heq. rewrite <- Heq in He. cbn in He. congruence.
  - intros Heq. rewrite <- Heq in He2. cbn in He2. congruence.
  - intros Heq. apply Hne. by rewrite Heq.
Qed.

(** X8.  The outcome of the op on a live [scf.forall] whose terminator
    holds a block.  With every index of the list in range the op succeeds
    with the target as its single result.  Otherwise it fails definitely on
    the target ("operand idx overflow") with no result, at the first index
    that is negative or not below the number of outputs; the payload it
    leaves is the one the loop reached on the indices before that one: the
    rewrites already made are kept. *)
Theorem share_outcome indices forallOp ir outputs :
  ForallWithTerminator ir forallOp outputs →
  (Forall (inRange (length outputs)) indices →
   ∃ ir', applyToOne indices forallOp ir
          = Some (Success, [forallOp], ir')) ∧
  (∀ pre i post,
     indices = pre ++ i :: post →
     Forall (inRange (length outputs)) pre →
     ¬ inRange (length outputs) i →
     ∃ ir', forEachOutputIdx forallOp pre ir
            = Some (Success, [forallOp], ir') ∧
            applyToOne indices forallOp ir
            = Some (DefiniteFailure forallOp "operand idx overflow", [],
                    ir')).
Proof.
  intros Hwf. pose proof Hwf as [Ho _].
  rewrite (shareForall_unfold indices forallOp ir outputs Ho). split.
  - intros Hall.
    destruct (forEachOutputIdx_in_range forallOp outputs indices ir Hwf Hall)
      as (ir' & Hrun & _). by exists ir'.
  - intros pre i post -> Hpre Hi.
    destruct (forEachOutputIdx_overflow forallOp outputs pre i post ir
                Hwf Hpre Hi) as (ir' & Hrun & Hfail & _).
    by exists ir'.
Qed.

(** X9.  The effect of sharing one output.  Let output [i] of a live
    [scf.forall] have exactly two uses, one by the loop itself and one by a
    [tensor.extract_slice] [e], and let some operation yielded by the
    terminator of the loop be a [tensor.parallel_insert_slice] into the
    [i]-th output block argument with the offsets, sizes and strides of
    [e].  Then the op on the index list [[i]] succeeds, makes that block
    argument the source of [e], and changes nothing else: every other
    operation and every block is as before. *)
Theorem share_retargets_extract_slice forallOp ir rank bounds outputs regions
    fb body i toShare k e j source offsets sizes strides eb yielding y
    ysource yb :
  ops ir !! forallOp
  = Some (mkOperation (ScfForall rank bounds outputs regions) fb) →
  frontBlock ir forallOp = Some body →
  outputs !! i = Some toShare →
  getUses ir toShare ≡ₚ [mkOpOperand forallOp k; mkOpOperand e j] →
  ops ir !! e
  = Some (mkOperation (ExtractSlice source offsets sizes strides) eb) →
  getYieldingOps ir forallOp = Some yielding →
  y ∈ yielding →
  ops ir !! y
  = Some (mkOperation
            (ParallelInsertSlice ysource (BlockArgument body (rank + i))
               offsets sizes strides) yb) →
  ∃ ir',
    applyToOne [Z.of_nat i] forallOp ir = Some (Success, [forallOp], ir') ∧
    ops ir' !! e
    = Some (mkOperation
              (ExtractSlice (BlockArgument body (rank + i)) offsets sizes
                 strides) eb) ∧
    (∀ x, x ≠ e → ops ir' !! x = ops ir !! x) ∧
    blocks ir' = blocks ir.
Proof.
  intros Hf Hfb Hi Huses He Hy Hin Hyop.
  assert (Ho : getOutputs ir forallOp = Some outputs)
    by (unfold getOutputs; by rewrite Hf).
  exists (assignSource e (BlockArgument body (rank + i)) ir). split_and!.
  - rewrite (shareForall_unfold _ forallOp ir outputs Ho).
    cbn [forEachOutputIdx]. unfold shareOperand. rewrite Ho.
    cbn [mbind option_bind].
    pose proof (lookup_lt_Some _ _ _ Hi) as Hlt.
    rewrite orb_false_intro by (apply bool_decide_eq_false; lia).
    rewrite Nat2Z.id, Hi. cbn [mbind option_bind].
    rewrite bool_decide_eq_false_2
      by (rewrite (Permutation_length Huses); simpl; lia).
    assert (Hfind : ∃ n,
              list_find (λ user, isExtractSlice ir user = true)
                (getUsers ir toShare) = Some (n, e)).
    { assert (Hnf : isExtractSlice ir forallOp = false)
        by (unfold isExtractSlice; by rewrite Hf).
      assert (Hye : isExtractSlice ir e = true)
        by (unfold isExtractSlice; by rewrite He).
      unfold getUsers. symmetry in Huses.
      apply Permutation_length_2_inv in Huses as [-> | ->];
        cbn [fmap list_fmap getOwner list_find].
      - rewrite decide_False by (rewrite Hnf; done).
        rewrite decide_True by done. by eexists.
      - rewrite decide_True by done. by eexists. }
    destruct Hfind as [n ->].
    unfold getOutputBlockArgument. rewrite Hf. cbn [mbind option_bind kind].
    rewrite Hfb. cbn [mbind option_bind]. rewrite decide_True by done.
    rewrite Hy. cbn [mbind option_bind].
    assert (Hex : existsb (isMatchingParallelInsertSlice ir
                             (BlockArgument body (rank + i)) e) yielding
                  = true).
    { apply existsb_exists. exists y. split; [by apply list_elem_of_In |].
      unfold isMatchingParallelInsertSlice. rewrite Hyop, He. cbn [kind].
      by rewrite !bool_decide_eq_true_2. }
    rewrite Hex. done.
  - rewrite lookup_assignSource, decide_True by done. by rewrite He.
  - intros x Hx. by rewrite lookup_assignSource, decide_False.
  - done.
Qed.

(** X10.  What the op never does.  On a live [scf.forall] whose terminator
    holds a block and for every list of indices, the op returns, and the
    payload it returns has the operations and blocks it was given: no
    operation is created, erased or moved, and none changes but for the
    source operand of [tensor.extract_slice] operations. *)
Theorem share_changes_slice_sources_only indices forallOp ir outputs :
  ForallWithTerminator ir forallOp outputs →
  ∃ diag results ir',
    applyToOne indices forallOp ir = Some (diag, results, ir') ∧
    SliceSourcesOnly ir ir'.
Proof.
  intros Hwf. pose proof Hwf as [Ho _].
  rewrite (shareForall_unfold indices forallOp ir outputs Ho).
  destruct (first_out_of_range (length outputs) indices)
    as [Hall | (pre & i & post & -> & Hpre & Hi)].
  - destruct (forEachOutputIdx_in_range forallOp outputs indices ir Hwf Hall)
      as (ir' & Hrun & _ & Hs). by do 3 eexists.
  - destruct (forEachOutputIdx_overflow forallOp outputs pre i post ir
                Hwf Hpre Hi) as (ir' & _ & Hfail & Hs).
    by do 3 eexists.
Qed.

(** X11.  Sharing one output is idempotent.  On a live [scf.forall] whose
    terminator holds a block the op on a list of one index returns; and run
    again with the same index on the payload it has returned, it returns
    the same diagnostic, the same results and that payload unchanged. *)
Theorem sharing_one_output_is_idempotent outputIdx forallOp ir outputs :
  ForallWithTerminator ir forallOp outputs →
  ∃ diag results ir',
    applyToOne [outputIdx] forallOp ir = Some (diag, results, ir') ∧
    applyToOne [outputIdx] forallOp ir' = Some (diag, results, ir').
Proof.
  intros Hwf. pose proof Hwf as [Ho _].
  rewrite (shareForall_unfold [outputIdx] forallOp ir outputs Ho).
  cbn [forEachOutputIdx].
  pose proof (shareOperand_spec forallOp outputIdx ir outputs Hwf) as Hstep.
  case_decide as Hr.
  - destruct Hstep as (ir1 & Hrun & [Ho1 _] & _). rewrite Hrun.
    cbn [mbind option_bind]. do 3 eexists. split; [done |].
    rewrite (shareForall_unfold [outputIdx] forallOp ir1 outputs Ho1).
    cbn [forEachOutputIdx].
    by rewrite (shareOperand_again forallOp outputIdx ir ir1 Hrun).
  - rewrite Hstep. cbn [mbind option_bind]. do 3 eexists. split; [done |].
    rewrite (shareForall_unfold [outputIdx] forallOp ir outputs Ho).
    cbn [forEachOutputIdx]. by rewrite Hstep.
Qed.

End ShareOutcomeProps.

(** ** The fusion legality gate counts distinct values *)

Module FusionGateSetProps.
Import IR FusionGate FusionGateProps.

(** X12.  The gate counts distinct values.  Its answer on a candidate
    whose consumer and producer are live depends on the operands only
    through the set of the consumer's input operands and the set of the
    producer's input operands (and on the number of results of the
    producer): two candidates with the same producer identity whose
    consumers have the same inputs as sets, and whose producers have the
    same inputs as sets and as many results, get the same answer, whatever
    the order of the operands and however often a value is repeated among
    them. *)
Theorem gate_counts_distinct_values (limit : Z) ir ir' u u' v v' producer
    p p' c c' :
  get ir u = Some v →
  get ir' u' = Some v' →
  getDefiningOp v = Some producer →
  getDefiningOp v' = Some producer →
  ops ir !! producer = Some p →
  ops ir' !! producer = Some p' →
  ops ir !! getOwner u = Some c →
  ops ir' !! getOwner u' = Some c' →
  getNumResults (kind p) = getNumResults (kind p') →
  inputOperandSet (kind p) = inputOperandSet (kind p') →
  inputOperandSet (kind c) = inputOperandSet (kind c') →
  setFusedOpOperandLimit limit ir u = setFusedOpOperandLimit limit ir' u'.
Proof.
  intros Hv Hv' Hd Hd' Hp Hp' Hc Hc' Hres Hps Hcs.
  rewrite (gate_unfold limit ir u v producer p c Hv Hd Hp Hc).
  rewrite (gate_unfold limit ir' u' v' producer p' c' Hv' Hd' Hp' Hc').
  unfold fusedOperandSet. by rewrite Hres, Hps, Hcs.
Qed.

End FusionGateSetProps.

(** ** [transform::ApplyBufferOptimizationsOp] *)

Module BufferOptimizationsProps.
Import IR Transform BufferOptimizations IRFacts HoistAllocProps.

#[local] Arguments eraseAll : simpl never.

(** *** Uses *)

Lemma getOpUses_live ir o use :
  use ∈ getOpUses ir o → is_Some (ops ir !! getOwner use).
Proof.
  unfold getOpUses. intros ([o' op] & Hslot & Hin)%list_elem_of_bind.
  rewrite (slotsOf_owner _ _ _ _ Hslot).
  apply elem_of_map_to_list in Hin. by eexists.
Qed.

Lemma slotsOf_intro (P : Value → bool) o op v :
  v ∈ operands (kind op) → P v = true →
  ∃ i, mkOpOperand o i ∈ slotsOf P o op.
Proof.
  intros [i Hi]%list_elem_of_lookup HP. exists i. unfold slotsOf.
  apply list_elem_of_omap. exists (i, v). split.
  - apply list_elem_of_lookup. exists i. by rewrite list_lookup_imap, Hi.
  - by rewrite HP.
Qed.

(** A live operation with an operand that is a result of [d] is a user of
    [d]. *)
Lemma getOpUsers_intro ir x op d i :
  ops ir !! x = Some op → OpResult d i ∈ operands (kind op) →
  x ∈ getOpUsers ir d.
Proof.
  intros Hx Hv. unfold getOpUsers, getOpUses.
  destruct (slotsOf_intro (λ w, bool_decide (getDefiningOp w = Some d))
              x op (OpResult d i) Hv) as [n Hn];
    [by apply bool_decide_eq_true |].
  apply list_elem_of_fmap. exists (mkOpOperand x n). split; [done |].
  apply list_elem_of_bind. exists (x, op). split; [done |].
  by apply elem_of_map_to_list.
Qed.

(** *** The kinds the function tells apart *)

Lemma storeLike_not_subView k :
  isDeallocOp k || isTransferWriteOp k || isStoreOp k = true →
  isSubViewOp k = false.
Proof. by destruct k. Qed.

(** *** Lists up to order *)

Lemma forallb_Permutation {A : Type} (f : A → bool) (l l' : list A) :
  l ≡ₚ l' → forallb f l = forallb f l'.
Proof.
  induction 1 as [| x l l' _ IH | x y l | l1 l2 l3 _ IH1 _ IH2]; simpl.
  - done.
  - by rewrite IH.
  - by rewrite !andb_assoc, (andb_comm (f y)).
  - congruence.
Qed.

Lemma bind_Permutation_ext {A B : Type} (f g : A → list B) (l : list A) :
  (∀ x, x ∈ l → f x ≡ₚ g x) → l ≫= f ≡ₚ l ≫= g.
Proof.
  induction l as [| x l IH]; intros Hfg; csimpl; [done |].
  apply Permutation_app.
  - apply Hfg. left.
  - apply IH. intros y Hy. apply Hfg. by right.
Qed.

(** What is erased depends on which operations are listed, not on their
    order. *)
Lemma eraseAll_Permutation l l' ir : l ≡ₚ l' → eraseAll l ir = eraseAll l' ir.
Proof.
  intros Hp. apply IR_eq.
  - intros x. rewrite !lookup_eraseAll.
    destruct (decide (x ∈ l)) as [Hx | Hx].
    + by rewrite decide_True by (by rewrite <- Hp).
    + by rewrite decide_False by (by rewrite <- Hp).
  - intros b. rewrite !blocks_eraseAll.
    destruct (blocks ir !! b) as [ol |]; simpl; [| done]. f_equal.
    apply list_filter_iff. intros o. by rewrite Hp.
Qed.

(** *** [allUsesAreStores] as a traversal *)

(** The enumeration of the store is one order the use lists may have: what
    is shown below of every such order holds of it. *)
Lemma store_order_is_a_use_list_order ir : UseListsOf getOpUses ir.
Proof. by intros op. Qed.

Section useLists.
Variable getUseList : IR → positive → list OpOperand.

#[local] Abbreviation UseListsOf := (UseListsOf getUseList).
#[local] Abbreviation usersInOrderFrom := (usersInOrderFrom getUseList).
#[local] Abbreviation usersInOrder := (usersInOrder getUseList).
#[local] Abbreviation allUsesAreStoresFrom :=
  (allUsesAreStoresFrom getUseList).
#[local] Abbreviation allUsesAreStores := (allUsesAreStores getUseList).
#[local] Abbreviation collectDeadOps := (collectDeadOps getUseList).
#[local] Abbreviation eraseDeadAllocAndStores :=
  (eraseDeadAllocAndStores getUseList).

Lemma useList_users ir op :
  UseListsOf ir → getOwner <$> getUseList ir op ≡ₚ getOpUsers ir op.
Proof. intros Hul. unfold getOpUsers. by rewrite (Hul op). Qed.

Lemma useList_live ir o use :
  UseListsOf ir → use ∈ getUseList ir o → is_Some (ops ir !! getOwner use).
Proof.
  intros Hul Hin. rewrite (Hul o) in Hin. by eapply getOpUses_live.
Qed.

#[local] Abbreviation usersOf ir n us :=
  (u ← us;
   (if isSubView ir u then usersInOrderFrom n ir u else []) ++ [u]).

Lemma usesLoop_spec n self ir :
  (∀ u uses, isSubView ir u = true → subViewsWithin n ir u = true →
     self u uses
     = Some (if forallb (isWrite ir) (usersInOrderFrom n ir u)
             then (true, uses ++ usersInOrderFrom n ir u)
             else (false, uses))) →
  ∀ theUses opUses,
    (∀ use, use ∈ theUses → is_Some (ops ir !! getOwner use)) →
    forallb (λ u, if isSubView ir u then subViewsWithin n ir u else true)
            (getOwner <$> theUses) = true →
    usesLoop self ir theUses opUses
    = Some (if forallb (isWrite ir) (usersOf ir n (getOwner <$> theUses))
            then Some (opUses ++ usersOf ir n (getOwner <$> theUses))
            else None).
Proof.
  intros Hself. induction theUses as [| use theUses IH];
    intros opUses Hlive Hdepth.
  - csimpl. by rewrite app_nil_r.
  - csimpl. csimpl in Hdepth. apply andb_true_iff in Hdepth as [Hd Hdepth].
    destruct (Hlive use) as [user Huser]; [left |].
    assert (Hrest : ∀ use', use' ∈ theUses →
                            is_Some (ops ir !! getOwner use'))
      by (intros use' Hin; apply Hlive; by right).
    rewrite Huser. cbn [mbind option_bind].
    assert (Hsv : isSubView ir (getOwner use) = isSubViewOp (kind user))
      by (unfold isSubView; by rewrite Huser).
    assert (Hw : isWrite ir (getOwner use)
                 = isDeallocOp (kind user) || isTransferWriteOp (kind user)
                   || isStoreOp (kind user) || isSubViewOp (kind user))
      by (unfold isWrite; by rewrite Huser).
    rewrite Hsv in Hd. rewrite !forallb_app, Hsv. cbn [forallb]. rewrite Hw.
    destruct (isDeallocOp (kind user) || isTransferWriteOp (kind user)
              || isStoreOp (kind user)) eqn:Hstore.
    + rewrite (storeLike_not_subView _ Hstore). cbn [forallb andb orb].
      rewrite (IH _ Hrest Hdepth). rewrite <- !app_assoc. done.
    + cbn [orb]. destruct (isSubViewOp (kind user)) eqn:Hsub.
      * rewrite (Hself (getOwner use) opUses) by (done || congruence).
        cbn [mbind option_bind].
        destruct (forallb _ (usersInOrderFrom n ir (getOwner use)));
          cbn [andb]; [| done].
        rewrite (IH _ Hrest Hdepth). rewrite <- !app_assoc. done.
      * cbn [andb app forallb]. done.
Qed.

(** With fuel for the depth of the sub-views, the function returns; it
    answers [true] exactly when every operation it reaches is a
    deallocation, a transfer write, a store or a sub-view, and then it has
    appended these operations to [uses] in the order in which it reached
    them; when it answers [false], [uses] is as it was. *)
Lemma allUsesAreStoresFrom_spec n : ∀ ir op uses,
  UseListsOf ir →
  subViewsWithin n ir op = true →
  allUsesAreStoresFrom n ir op uses
  = Some (if forallb (isWrite ir) (usersInOrderFrom n ir op)
          then (true, uses ++ usersInOrderFrom n ir op)
          else (false, uses)).
Proof.
  induction n as [| n IH]; intros ir op uses Hul Hdepth; [done |].
  cbn [BufferOptimizations.allUsesAreStoresFrom
       BufferOptimizations.usersInOrderFrom].
  rewrite (usesLoop_spec n (allUsesAreStoresFrom n ir) ir).
  - cbn [mbind option_bind]. by destruct (forallb _ _).
  - intros u uses' _ Hu. by apply IH.
  - intros use. by apply useList_live.
  - cbn [subViewsWithin] in Hdepth.
    by rewrite (forallb_Permutation _ _ _ (useList_users ir op Hul)).
Qed.

(** The operations reached along the use lists are those reached along the
    uses the store shows. *)
Lemma usersInOrderFrom_Permutation n : ∀ ir op,
  UseListsOf ir →
  usersInOrderFrom n ir op ≡ₚ usersThroughSubViewsFrom n ir op.
Proof.
  induction n as [| n IH]; intros ir op Hul; [done |].
  cbn [BufferOptimizations.usersInOrderFrom usersThroughSubViewsFrom].
  rewrite (useList_users ir op Hul).
  apply bind_Permutation_ext. intros u _.
  apply Permutation_app; [| done].
  destruct (isSubView ir u); [by apply IH | done].
Qed.

Lemma usersInOrder_Permutation ir op :
  UseListsOf ir → usersInOrder ir op ≡ₚ usersThroughSubViews ir op.
Proof. apply usersInOrderFrom_Permutation. Qed.

Lemma allUsesAreStores_spec ir op uses :
  UseListsOf ir →
  subViewsWithin (S (size (ops ir))) ir op = true →
  allUsesAreStores ir op uses
  = Some (if writeOnly ir op
          then (true, uses ++ usersInOrder ir op)
          else (false, uses)).
Proof.
  intros Hul Hdepth. unfold BufferOptimizations.allUsesAreStores.
  rewrite (allUsesAreStoresFrom_spec _ ir op uses Hul Hdepth).
  unfold writeOnly.
  by rewrite (forallb_Permutation _ _ _ (usersInOrder_Permutation ir op Hul)).
Qed.

(** *** The collecting walk *)

#[local] Abbreviation collectStep :=
  (λ (s : IR * option (list positive)) (o : positive),
     match ops s.1 !! o with
     | Some op =>
         if isAllocOp (kind op)
         then (λ '(ir, opToErase),
                 (ir,
                  opToErase ← opToErase;
                  '(allStores, opToErase) ← allUsesAreStores ir o opToErase;
                  Some (if allStores : bool then opToErase ++ [o]
                        else opToErase))) s
         else s
     | None => s
     end).

(** The vector [opToErase] after the walk over [visit]. *)
#[local] Abbreviation collected ir visit :=
  (a ← filter (λ o, isAlloc ir o = true) visit;
   if writeOnly ir a then usersInOrder ir a ++ [a] else []).

Lemma collect_fold ir visit : ∀ acc,
  UseListsOf ir →
  (∀ a, a ∈ visit → isAlloc ir a = true →
        subViewsWithin (S (size (ops ir))) ir a = true) →
  foldl collectStep (ir, Some acc) visit
  = (ir, Some (acc ++ collected ir visit)).
Proof.
  induction visit as [| o visit IH]; intros acc Hul Hdepth.
  - csimpl. by rewrite app_nil_r.
  - cbn [foldl fst]. rewrite filter_cons.
    assert (Hrest : ∀ a, a ∈ visit → isAlloc ir a = true →
                         subViewsWithin (S (size (ops ir))) ir a = true)
      by (intros a Ha; apply Hdepth; by right).
    destruct (decide (isAlloc ir o = true)) as [Ha | Ha].
    + pose proof Ha as Ha'. unfold isAlloc in Ha'.
      destruct (ops ir !! o) as [op |]; [| done]. rewrite Ha'.
      cbn [mbind option_bind].
      rewrite (allUsesAreStores_spec ir o acc Hul)
        by (apply Hdepth; [left | done]).
      csimpl. destruct (writeOnly ir o); cbn [mbind option_bind].
      * rewrite (IH _ Hul Hrest). by rewrite <- !app_assoc.
      * by rewrite (IH _ Hul Hrest).
    + unfold isAlloc in Ha.
      destruct (ops ir !! o) as [op |]; [| by apply IH].
      destruct (isAllocOp (kind op)); [done | by apply IH].
Qed.

Lemma collectDeadOps_spec ir parentOp :
  UseListsOf ir →
  (∀ a, a ∈ walk ir parentOp → isAlloc ir a = true →
        subViewsWithin (S (size (ops ir))) ir a = true) →
  collectDeadOps ir parentOp = Some (collected ir (walk ir parentOp)).
Proof.
  intros Hul Hdepth.
  unfold BufferOptimizations.collectDeadOps, walkWith. cbn [fst].
  by rewrite (collect_fold ir (walk ir parentOp) [] Hul Hdepth).
Qed.

Lemma collected_Permutation ir parentOp :
  UseListsOf ir → collected ir (walk ir parentOp) ≡ₚ deadOps ir parentOp.
Proof.
  intros Hul. unfold deadOps. apply bind_Permutation_ext. intros a _.
  destruct (writeOnly ir a); [| done].
  apply Permutation_app; [| done]. by apply usersInOrder_Permutation.
Qed.

End useLists.

(** *** The erasing loop *)

Lemma eraseEach_leaves l : ∀ ir,
  NoDup l →
  (∀ o, o ∈ l → ∃ op, ops ir !! o = Some op ∧ getRegions (kind op) = []) →
  eraseEach l ir = Some (eraseAll l ir).
Proof.
  induction l as [| o l IH]; intros ir Hnd Hlive; simpl.
  - by rewrite eraseAll_nil.
  - apply NoDup_cons in Hnd as [Ho Hnd].
    destruct (Hlive o) as (op & Hop & Hr); [left |].
    rewrite Hop. cbn [mbind option_bind].
    unfold erase. rewrite (walk_leaf _ _ _ Hop Hr).
    rewrite IH.
    + by rewrite eraseAll_app.
    + done.
    + intros o' Ho'. destruct (Hlive o') as (op' & Hop' & Hr'); [by right |].
      exists op'. split; [| done].
      rewrite lookup_eraseAll, decide_False; [done |].
      intros ?%list_elem_of_singleton. by subst.
Qed.

(** *** What is erased *)

Lemma deadOps_elem ir parentOp x :
  x ∈ deadOps ir parentOp ↔
  ∃ a, a ∈ walk ir parentOp ∧ isAlloc ir a = true ∧ writeOnly ir a = true ∧
       (x = a ∨ x ∈ usersThroughSubViews ir a).
Proof.
  unfold deadOps. rewrite list_elem_of_bind. split.
  - intros (a & Hx & [Ha Hw]%list_elem_of_filter). exists a.
    destruct (writeOnly ir a); [| by apply elem_of_nil in Hx].
    split_and!; try done.
    apply elem_of_app in Hx as [Hx | ->%list_elem_of_singleton]; tauto.
  - intros (a & Hw & Ha & Hwo & Hx). exists a. rewrite Hwo. split.
    + rewrite elem_of_app, list_elem_of_singleton. tauto.
    + by apply list_elem_of_filter.
Qed.

Lemma deadOps_kind ir parentOp x :
  x ∈ deadOps ir parentOp → isAlloc ir x = true ∨ isWrite ir x = true.
Proof.
  intros (a & _ & Ha & Hwo & [-> | Hx])%deadOps_elem; [by left |]. right.
  unfold writeOnly in Hwo. rewrite forallb_forall in Hwo.
  apply Hwo. by apply list_elem_of_In.
Qed.

Lemma deadOps_leaf ir parentOp x :
  TransferWritesVerified ir →
  x ∈ deadOps ir parentOp →
  ∃ op, ops ir !! x = Some op ∧ getRegions (kind op) = [].
Proof.
  intros Hver Hx. unfold isAlloc, isWrite in *.
  destruct (deadOps_kind _ _ _ Hx) as [Hk | Hk];
    unfold isAlloc, isWrite in Hk;
    destruct (ops ir !! x) as [op |] eqn:Hop; try done;
    exists op; (split; [done |]).
  - by destruct (kind op).
  - destruct (isTransferWriteOp (kind op)) eqn:Htw.
    + by destruct (Hver x op Hop Htw).
    + by destruct (kind op).
Qed.

Section closedForm.
Variable getUseList : IR → positive → list OpOperand.

(** The function in closed form. *)
Lemma eraseDead_closed_form parentOp ir :
  UseListsOf getUseList ir →
  is_Some (ops ir !! parentOp) →
  (∀ a, a ∈ walk ir parentOp → isAlloc ir a = true →
        subViewsWithin (S (size (ops ir))) ir a = true) →
  NoDup (deadOps ir parentOp) →
  TransferWritesVerified ir →
  eraseDeadAllocAndStores getUseList parentOp ir
  = Some (eraseAll (deadOps ir parentOp) ir).
Proof.
  intros Hul [pop Hp] Hdepth Hnd Hver.
  unfold BufferOptimizations.eraseDeadAllocAndStores.
  rewrite Hp. cbn [mbind option_bind].
  rewrite (collectDeadOps_spec getUseList ir parentOp Hul Hdepth).
  cbn [mbind option_bind].
  pose proof (collected_Permutation getUseList ir parentOp Hul) as Hperm.
  rewrite <- (eraseAll_Permutation _ _ ir Hperm).
  apply eraseEach_leaves; [by rewrite Hperm |].
  intros o Ho. rewrite Hperm in Ho. by eapply deadOps_leaf.
Qed.

End closedForm.

(** *** The operations reached are closed under use *)

Lemma direct_users_reached n ir op u :
  u ∈ getOpUsers ir op → u ∈ usersThroughSubViewsFrom (S n) ir op.
Proof.
  intros Hu. cbn [usersThroughSubViewsFrom]. apply list_elem_of_bind.
  exists u. split; [| done]. apply elem_of_app. right. by left.
Qed.

Lemma users_of_subViews_reached n : ∀ ir a x u,
  subViewsWithin n ir a = true →
  x ∈ usersThroughSubViewsFrom n ir a →
  isSubView ir x = true →
  u ∈ getOpUsers ir x →
  u ∈ usersThroughSubViewsFrom n ir a.
Proof.
  induction n as [| n IH]; intros ir a x u Hdepth Hx Hsv Hu; [done |].
  cbn [usersThroughSubViewsFrom subViewsWithin] in *.
  apply list_elem_of_bind in Hx as (u0 & Hx & Hu0).
  rewrite forallb_forall in Hdepth.
  specialize (Hdepth u0 (proj1 (list_elem_of_In _ _) Hu0)).
  apply list_elem_of_bind. exists u0. split; [| done].
  apply elem_of_app. left.
  apply elem_of_app in Hx as [Hx | ->%list_elem_of_singleton].
  - destruct (isSubView ir u0); [| by apply elem_of_nil in Hx].
    by eapply IH.
  - rewrite Hsv in *. destruct n as [| n]; [done |].
    by apply direct_users_reached.
Qed.

(** An operation with a result that is used is not a deallocation, a
    store or a verified transfer write. *)
Lemma isWrite_with_result ir x op :
  TransferWritesVerified ir →
  ops ir !! x = Some op →
  isWrite ir x = true →
  0 < getNumResults (kind op) →
  isSubView ir x = true.
Proof.
  intros Hver Hx Hw Hres. unfold isWrite, isSubView in *. rewrite Hx in *.
  destruct (isTransferWriteOp (kind op)) eqn:Htw.
  - destruct (Hver x op Hx Htw) as [_ H0]. lia.
  - destruct (kind op); simpl in *; try done; lia.
Qed.

(** The users of an erased operation are erased with it. *)
Lemma deadOps_closed ir parentOp d dop u :
  TransferWritesVerified ir →
  (∀ a, a ∈ walk ir parentOp → isAlloc ir a = true →
        subViewsWithin (S (size (ops ir))) ir a = true) →
  d ∈ deadOps ir parentOp →
  ops ir !! d = Some dop →
  0 < getNumResults (kind dop) →
  u ∈ getOpUsers ir d →
  u ∈ deadOps ir parentOp.
Proof.
  intros Hver Hdepth Hd Hdop Hres Hu.
  apply deadOps_elem in Hd as (a & Ha & Hal & Hwo & Hd).
  apply deadOps_elem. exists a. split_and!; try done. right.
  destruct Hd as [-> | Hd]; [by apply direct_users_reached |].
  eapply users_of_subViews_reached; [by apply Hdepth | exact Hd | | done].
  eapply isWrite_with_result; try done.
  unfold writeOnly in Hwo. rewrite forallb_forall in Hwo.
  apply Hwo. by apply list_elem_of_In.
Qed.

Section host.

(** The use lists and the forwarding of the host. *)
Variable getUseList : IR → positive → list OpOperand.
Variable transferOpflowOpt : positive → IR → IR.

#[local] Abbreviation UseListsOf := (UseListsOf getUseList).
#[local] Abbreviation usersInOrder := (usersInOrder getUseList).
#[local] Abbreviation allUsesAreStores := (allUsesAreStores getUseList).
#[local] Abbreviation applyToOne :=
  (applyToOne getUseList transferOpflowOpt).

(** X13.  The contract of [allUsesAreStores].  Let the use lists of the
    host hold the uses the store shows, and let the sub-views of sub-views
    of [op] be no deeper than the store is large.  Then the function
    returns.  It answers [true] exactly when every operation it can reach
    from [op] (the users of [op] and, through each sub-view among those
    reached, the users of the sub-view) is a deallocation, a transfer
    write, a store or a sub-view, and has then appended these operations to
    [uses] in the order of the use lists: the users of [op] as its use list
    has them, each sub-view preceded by its own users in the same manner.
    When it answers [false], [uses] is as it was given. *)
Theorem all_uses_are_stores_contract ir op uses :
  UseListsOf ir →
  subViewsWithin (S (size (ops ir))) ir op = true →
  ∃ allStores uses',
    allUsesAreStores ir op uses = Some (allStores, uses') ∧
    (allStores = true ↔
     ∀ u, u ∈ usersThroughSubViews ir op → isWrite ir u = true) ∧
    (allStores = false → uses' = uses) ∧
    (allStores = true → uses' = uses ++ usersInOrder ir op) ∧
    usersInOrder ir op ≡ₚ usersThroughSubViews ir op ∧
    (∀ u, u ∈ getOpUsers ir op → u ∈ usersThroughSubViews ir op) ∧
    (∀ x u, x ∈ usersThroughSubViews ir op → isSubView ir x = true →
            u ∈ getOpUsers ir x → u ∈ usersThroughSubViews ir op).
Proof.
  intros Hul Hdepth.
  rewrite (allUsesAreStores_spec getUseList ir op uses Hul Hdepth).
  assert (Hiff : writeOnly ir op = true ↔
                 ∀ u, u ∈ usersThroughSubViews ir op → isWrite ir u = true).
  { unfold writeOnly. rewrite forallb_forall. split.
    - intros H u Hu. apply H. by apply list_elem_of_In.
    - intros H u Hu. apply H. by apply list_elem_of_In. }
  exists (writeOnly ir op),
    (if writeOnly ir op then uses ++ usersInOrder ir op else uses).
  split_and!.
  - by destruct (writeOnly ir op).
  - exact Hiff.
  - by intros ->.
  - by intros ->.
  - by apply usersInOrder_Permutation.
  - intros u. apply direct_users_reached.
  - intros x u. by apply users_of_subViews_reached.
Qed.

Lemma applyToOne_closed_form target ir :
  is_Some (ops ir !! target) →
  is_Some (ops (transferOpflowOpt target ir) !! target) →
  UseListsOf (transferOpflowOpt target ir) →
  (∀ a, a ∈ walk (transferOpflowOpt target ir) target →
        isAlloc (transferOpflowOpt target ir) a = true →
        subViewsWithin (S (size (ops (transferOpflowOpt target ir))))
          (transferOpflowOpt target ir) a = true) →
  NoDup (deadOps (transferOpflowOpt target ir) target) →
  TransferWritesVerified (transferOpflowOpt target ir) →
  applyToOne target ir
  = Some (Success, [target],
          eraseAll (deadOps (transferOpflowOpt target ir) target)
            (transferOpflowOpt target ir)).
Proof.
  intros [top Ht] Ht1 Hul Hdepth Hnd Hver.
  unfold BufferOptimizations.applyToOne.
  rewrite Ht. cbn [mbind option_bind].
  by rewrite (eraseDead_closed_form getUseList target _ Hul Ht1 Hdepth Hnd
                Hver).
Qed.

(** X14.  Buffers that are written only are erased with their writes.
    After the host's forwarding, let the use lists hold the uses the store
    shows, let the [memref.alloc]s under the target have sub-views of
    sub-views no deeper than the store is large, let no operation be
    reached twice from the written-only ones, and let the transfer writes
    be verified.  Then the op succeeds with the target as its single
    result, and in the payload it returns every [memref.alloc] under the
    target that only deallocations, transfer writes, stores and sub-views
    reach is gone, together with every operation that reaches it. *)
Theorem write_only_allocations_are_erased target ir :
  let ir1 := transferOpflowOpt target ir in
  is_Some (ops ir !! target) →
  is_Some (ops ir1 !! target) →
  UseListsOf ir1 →
  (∀ a, a ∈ walk ir1 target → isAlloc ir1 a = true →
        subViewsWithin (S (size (ops ir1))) ir1 a = true) →
  NoDup (deadOps ir1 target) →
  TransferWritesVerified ir1 →
  ∃ ir',
    applyToOne target ir = Some (Success, [target], ir') ∧
    ∀ a, a ∈ walk ir1 target → isAlloc ir1 a = true →
         writeOnly ir1 a = true →
         ops ir' !! a = None ∧
         (∀ u, u ∈ usersThroughSubViews ir1 a → ops ir' !! u = None) ∧
         (∀ b, a ∉ blockOps ir' b).
Proof.
  intros ir1 Ht Ht1 Hul Hdepth Hnd Hver. subst ir1.
  eexists. split; [by apply applyToOne_closed_form |].
  intros a Ha Hal Hwo.
  assert (Hin : ∀ x, x = a ∨ x ∈ usersThroughSubViews
                                   (transferOpflowOpt target ir) a →
                     x ∈ deadOps (transferOpflowOpt target ir) target).
  { intros x Hx. apply deadOps_elem. by exists a. }
  split_and!.
  - rewrite lookup_eraseAll, decide_True; [done |]. apply Hin. by left.
  - intros u Hu. rewrite lookup_eraseAll, decide_True; [done |].
    apply Hin. by right.
  - intros b. unfold blockOps. rewrite blocks_eraseAll.
    destruct (blocks (transferOpflowOpt target ir) !! b) as [l |]; simpl.
    + intros [Hn _]%list_elem_of_filter. apply Hn, Hin. by left.
    + apply not_elem_of_nil.
Qed.

(** X15.  No use of an erased operation remains.  After the host's
    forwarding, let the use lists hold the uses the store shows, let the
    [memref.alloc]s under the target have sub-views of sub-views no deeper
    than the store is large, let no operation be reached twice from the
    written-only ones, and let the transfer writes be verified.  If in that
    payload every operand that is a result of an operation is a result that
    exists, the same holds in the payload the op returns: no operation is
    left with an operand defined by an operation that was erased. *)
Theorem erasure_leaves_no_dangling_use target ir :
  let ir1 := transferOpflowOpt target ir in
  is_Some (ops ir !! target) →
  is_Some (ops ir1 !! target) →
  UseListsOf ir1 →
  (∀ a, a ∈ walk ir1 target → isAlloc ir1 a = true →
        subViewsWithin (S (size (ops ir1))) ir1 a = true) →
  NoDup (deadOps ir1 target) →
  TransferWritesVerified ir1 →
  ResultsExist ir1 →
  ∃ ir',
    applyToOne target ir = Some (Success, [target], ir') ∧
    ResultsExist ir'.
Proof.
  intros ir1 Ht Ht1 Hul Hdepth Hnd Hver Hres. subst ir1.
  eexists. split; [by apply applyToOne_closed_form |].
  intros x op d i Hx Hv. rewrite lookup_eraseAll in Hx.
  case_decide as Hdead; [done |].
  destruct (Hres x op d i Hx Hv) as (dop & Hdop & Hi).
  exists dop. split; [| done].
  rewrite lookup_eraseAll, decide_False; [done |].
  intros Hd. apply Hdead.
  eapply deadOps_closed; try done; [lia |].
  by eapply getOpUsers_intro.
Qed.

(** X16.  What the op keeps.  After the host's forwarding, let the use
    lists hold the uses the store shows, let the [memref.alloc]s under the
    target have sub-views of sub-views no deeper than the store is large,
    let no operation be reached twice from the written-only ones, and let
    the transfer writes be verified.  Then the op erases nothing but
    [memref.alloc]s, deallocations, transfer writes, stores and sub-views:
    every other operation of that payload (a [memref.alloca], a load, a
    structured op, ...) is unchanged in the payload returned.  A
    [memref.alloc] is unchanged too when it is not under the target or when
    some operation that reaches it is none of these. *)
Theorem only_written_buffers_are_erased target ir :
  let ir1 := transferOpflowOpt target ir in
  is_Some (ops ir !! target) →
  is_Some (ops ir1 !! target) →
  UseListsOf ir1 →
  (∀ a, a ∈ walk ir1 target → isAlloc ir1 a = true →
        subViewsWithin (S (size (ops ir1))) ir1 a = true) →
  NoDup (deadOps ir1 target) →
  TransferWritesVerified ir1 →
  ∃ ir',
    applyToOne target ir = Some (Success, [target], ir') ∧
    ∀ x op, ops ir1 !! x = Some op →
      (isAllocOp (kind op) = false ∧ isWrite ir1 x = false) ∨
      (isAllocOp (kind op) = true ∧
       (x ∉ walk ir1 target ∨ writeOnly ir1 x = false)) →
      ops ir' !! x = Some op.
Proof.
  intros ir1 Ht Ht1 Hul Hdepth Hnd Hver. subst ir1.
  eexists. split; [by apply applyToOne_closed_form |].
  intros x op Hx Hkeep.
  rewrite lookup_eraseAll, decide_False; [done |]. intros Hdead.
  assert (Hal : isAlloc (transferOpflowOpt target ir) x = isAllocOp (kind op))
    by (unfold isAlloc; by rewrite Hx).
  destruct Hkeep as [[Hna Hnw] | [Ha Hkeep]].
  - destruct (deadOps_kind _ _ _ Hdead) as [Hk | Hk]; congruence.
  - apply deadOps_elem in Hdead as (a & Haw & Haa & Hwo & [-> | Hreach]).
    + destruct Hkeep; [done | congruence].
    + unfold writeOnly in Hwo. rewrite forallb_forall in Hwo.
      specialize (Hwo x (proj1 (list_elem_of_In _ _) Hreach)).
      unfold isWrite in Hwo. rewrite Hx in Hwo.
      destruct (kind op) as [[] | | | | | | | | | | | |]; done.
Qed.

End host.
End BufferOptimizationsProps.

(** ** The bufferization callbacks, [transform::TransformBufferizeOp] and
    [transform::TransformEliminateEmptyTensorsOp] *)

Module BufferizeProps.
Import IR Transform HoistAlloc Bufferize IRFacts HoistAllocProps.

#[local] Arguments insertOp : simpl never.

(** Two operations created one after the other before [anchor]. *)
Lemma insertBefore_twice pre anchor post a d :
  anchor ∉ pre → a ≠ anchor →
  insertBefore (Some anchor) d
    (insertBefore (Some anchor) a (pre ++ anchor :: post))
  = pre ++ a :: d :: anchor :: post.
Proof.
  intros Hpre Ha. rewrite insertBefore_at by done.
  change (pre ++ a :: anchor :: post) with (pre ++ [a] ++ anchor :: post).
  rewrite app_assoc, insertBefore_at.
  - by rewrite <- app_assoc.
  - intros [? | ->%list_elem_of_singleton]%elem_of_app; done.
Qed.

Lemma fresh_not_in_block (ir : IR) x op :
  ops ir !! x = Some op → fresh (dom (ops ir)) ≠ x.
Proof.
  intros Hx Heq. rewrite <- Heq in Hx. by rewrite fresh_not_live in Hx.
Qed.

(** X17.  The buffers of the two targets.  With the builder set before a
    live operation [anchor] of a block, allocating through the allocation
    callback and freeing the buffer through the deallocation callback:
    for the CPU the payload gains one operation, a [memref.alloca] of the
    requested type, sizes and alignment before [anchor], and the
    deallocation callback creates nothing; for the GPU it gains a
    [memref.alloc] followed by its [memref.dealloc] before [anchor], the
    allocation having the requested shape and element type, the default
    layout and the workgroup memory space whatever layout and memory space
    were requested.  Both callbacks report success, and every operation
    that was live is unchanged. *)
Theorem buffers_of_the_two_targets memRefType dynamicSizes alignment ir b pre
    anchor post anchorOp :
  blockOps ir b = pre ++ anchor :: post →
  anchor ∉ pre →
  ops ir !! anchor = Some anchorOp →
  let s := mkBuilder ir (Some (mkInsertPoint b (Some anchor))) in
  let a := fresh (dom (ops ir)) in
  (∃ ir',
     (buffer ← cpuComprehensiveBufferizeAllocationFn memRefType dynamicSizes
                 alignment;
      match buffer with
      | Some buffer => cpuComprehensiveBufferizeDeallocationFn buffer
      | None => mret failure
      end) s
     = Some (success, mkBuilder ir' (insertionPoint s)) ∧
     ops ir' = <[a := mkOperation (AllocLike AllocaOp memRefType dynamicSizes
                                              (Some alignment)) (Some b)]>
                 (ops ir) ∧
     blockOps ir' b = pre ++ a :: anchor :: post) ∧
  (∃ d ir',
     (buffer ← gpuComprehensiveBufferizeAllocationFn memRefType dynamicSizes
                 alignment;
      match buffer with
      | Some buffer => gpuComprehensiveBufferizeDeallocationFn buffer
      | None => mret failure
      end) s
     = Some (success, mkBuilder ir' (insertionPoint s)) ∧
     d ≠ a ∧ ops ir !! d = None ∧
     ops ir'
     = <[d := mkOperation (Dealloc (OpResult a 0)) (Some b)]>
         (<[a := mkOperation
                   (AllocLike AllocOp
                      (mkMemRefType (getShape memRefType)
                         (getElementType memRefType) None
                         (Some workgroupAddressSpace))
                      dynamicSizes (Some alignment)) (Some b)]>
            (ops ir)) ∧
     blockOps ir' b = pre ++ a :: d :: anchor :: post).
Proof.
  intros Hb Hpre Hanchor s a.
  assert (Ha : a ≠ anchor) by (by eapply fresh_not_in_block).
  split.
  - exists (insertOp a (AllocLike AllocaOp memRefType dynamicSizes
                               (Some alignment))
              (Some (mkInsertPoint b (Some anchor))) ir).
    split_and!.
    + reflexivity.
    + reflexivity.
    + rewrite blockOps_insertOp, decide_True by done.
      cbn [ipBefore]. rewrite Hb. by apply insertBefore_at.
  - set (alloc := AllocLike AllocOp
                    (mkMemRefType (getShape memRefType)
                       (getElementType memRefType) None
                       (Some workgroupAddressSpace))
                    dynamicSizes (Some alignment)).
    set (ir1 := insertOp a alloc (Some (mkInsertPoint b (Some anchor))) ir).
    assert (Hd : fresh (dom (ops ir1)) ≠ a ∧
                 ops ir !! fresh (dom (ops ir1)) = None).
    { pose proof (fresh_not_live ir1) as Hf. revert Hf.
      generalize (fresh (dom (ops ir1))) as d. intros d Hf.
      unfold ir1 in Hf. rewrite lookup_insertOp in Hf.
      by case_decide. }
    destruct Hd as [Hda Hdn].
    exists (fresh (dom (ops ir1))),
      (insertOp (fresh (dom (ops ir1))) (Dealloc (OpResult a 0))
         (Some (mkInsertPoint b (Some anchor))) ir1).
    split_and!.
    + reflexivity.
    + exact Hda.
    + exact Hdn.
    + reflexivity.
    + assert (Hb1 : blockOps ir1 b
                    = insertBefore (Some anchor) a (pre ++ anchor :: post)).
      { unfold ir1. rewrite blockOps_insertOp, decide_True by done.
        cbn [ipBefore]. by rewrite Hb. }
      rewrite blockOps_insertOp, decide_True by done.
      cbn [ipBefore]. rewrite Hb1. by apply insertBefore_twice.
Qed.

Section copy.
Variable getMemRefType : IR → Value → option MemRefType.
Variable createGenericOp :
  list Value → list Value → list AffineMap → list IteratorType →
  (list Value → M unit) → list string → M positive.

#[local] Abbreviation createLinalgCopyOp :=
  (createLinalgCopyOp getMemRefType createGenericOp).
#[local] Abbreviation cpuComprehensiveBufferizeCopyFn :=
  (cpuComprehensiveBufferizeCopyFn getMemRefType createGenericOp).
#[local] Abbreviation gpuComprehensiveBufferizeCopyFn :=
  (gpuComprehensiveBufferizeCopyFn getMemRefType createGenericOp).

Lemma createLinalgCopyOp_declines from to s :
  (∀ typeFrom typeTo,
     getMemRefType (payload s) from = Some typeFrom →
     getMemRefType (payload s) to = Some typeTo →
     getRank typeFrom ≠ getRank typeTo) →
  createLinalgCopyOp from to [] s
  = Some (([UnableToGenerateCopy (getMemRefType (payload s) from)
                                 (getMemRefType (payload s) to)], None), s).
Proof.
  intros Hmis. unfold Bufferize.createLinalgCopyOp.
  unfold mbind at 1, M_bind at 1, getPayload at 1.
  destruct (getMemRefType (payload s) from) as [typeFrom |]; [| done].
  destruct (getMemRefType (payload s) to) as [typeTo |]; [| done].
  by rewrite decide_True by (by apply Hmis).
Qed.

(** X18.  A copy that cannot be generated is reported as a success.  When
    the source or the target of a copy is not of memref type, or their
    ranks differ, [createLinalgCopyOp] emits one error diagnostic, creates
    nothing and returns null; the copy callbacks of both targets then
    return success, leaving the payload and the builder as they were,
    whatever the builder of the host would do. *)
Theorem copy_that_cannot_be_generated_succeeds from to s :
  (∀ typeFrom typeTo,
     getMemRefType (payload s) from = Some typeFrom →
     getMemRefType (payload s) to = Some typeTo →
     getRank typeFrom ≠ getRank typeTo) →
  let diagnostic :=
    UnableToGenerateCopy (getMemRefType (payload s) from)
                         (getMemRefType (payload s) to) in
  createLinalgCopyOp from to [] s = Some (([diagnostic], None), s) ∧
  cpuComprehensiveBufferizeCopyFn from to s
  = Some (([diagnostic], success), s) ∧
  gpuComprehensiveBufferizeCopyFn from to s
  = Some (([diagnostic], success), s).
Proof.
  intros Hmis diagnostic. subst diagnostic.
  pose proof (createLinalgCopyOp_declines from to s Hmis) as Hnull.
  split_and!; [done | |].
  - unfold Bufferize.cpuComprehensiveBufferizeCopyFn.
    by rewrite (bind_Some _ _ _ _ _ Hnull).
  - unfold Bufferize.gpuComprehensiveBufferizeCopyFn.
    by rewrite (bind_Some _ _ _ _ _ Hnull).
Qed.

Section apply.
Variable applyOpPatternsAndFold :
  list positive → list BufferizePattern → IR → LogicalResult * IR.
Variable runOneShotBufferize :
  positive → OneShotBufferizationOptions → IR → LogicalResult * IR.
Variable runPassManager : list string → positive → IR → LogicalResult * IR.

#[local] Abbreviation bufferize :=
  (Bufferize.apply getMemRefType createGenericOp applyOpPatternsAndFold
     runOneShotBufferize runPassManager).
#[local] Abbreviation bufferizeOptions :=
  (bufferizeOptions getMemRefType createGenericOp).

(** X19.  The op demands a single module.  When the target handle does not
    hold exactly one payload operation, or holds one that is not a
    [builtin.module], the op fails definitely on the top-level operation
    (the message still names the HAL executable ops), sets no result and
    leaves the payload untouched: neither the driver nor the bufferizer is
    run. *)
Theorem bufferize_requires_single_module (self : TransformBufferizeOp)
    (state : TransformState) ir :
  length (getPayloadOps state) ≠ 1 ∨
  (∃ p op, getPayloadOps state = [p] ∧ ops ir !! p = Some op ∧
           isModuleOp (kind op) = false) →
  bufferize self state ir
  = Some (mkApplyResult
            (Diagnosed
               (DefiniteFailure (getTopLevel state)
                  "requires exactly a single HAL::ExecutableOp or HAL::ExecutableVariantOp target op."))
            [] None ir).
Proof.
  intros Hguard. unfold Bufferize.apply.
  destruct Hguard as [Hlen | (p & op & Hp & Hop & Hmod)].
  - by rewrite decide_True by done.
  - rewrite Hp. cbn [length]. rewrite decide_False by (intros ?; done).
    cbn [head mbind option_bind]. rewrite Hop. cbn [mbind option_bind].
    by rewrite Hmod.
Qed.

#[local] Abbreviation PassesSucceed := (PassesSucceed runPassManager).
#[local] Abbreviation PassesFailAt := (PassesFailAt runPassManager).
#[local] Abbreviation passesWalk top :=
  (walkUntil fst isModuleOp (runPostBufferizationPasses runPassManager top)).

(** The walk over the modules, one visited operation at a time. *)
Lemma passesWalk_cons top o visit ir diagnostics :
  passesWalk top (o :: visit) (ir, diagnostics)
  = match ops ir !! o with
    | Some op =>
        if isModuleOp (kind op) then
          if failed (runPassManager [] o ir).1
          then (interrupt,
                ((runPassManager [] o ir).2,
                 diagnostics ++ [FailedPostBufferizationPasses o top]))
          else passesWalk top visit ((runPassManager [] o ir).2, diagnostics)
        else passesWalk top visit (ir, diagnostics)
    | None => passesWalk top visit (ir, diagnostics)
    end.
Proof.
  cbn [walkUntil fst]. destruct (ops ir !! o) as [op |]; [| done].
  destruct (isModuleOp (kind op)); [| done].
  unfold runPostBufferizationPasses.
  destruct (runPassManager [] o ir) as [r ir1]. cbn [fst snd].
  by destruct r.
Qed.

(** While the pass manager succeeds the walk advances. *)
Lemma passesWalk_app top pre : ∀ rest ir ir1 diagnostics,
  PassesSucceed pre ir ir1 →
  passesWalk top (pre ++ rest) (ir, diagnostics)
  = passesWalk top rest (ir1, diagnostics).
Proof.
  induction pre as [| o pre IH]; intros rest ir ir1 diagnostics Hrun;
    inversion Hrun as [| ? ? ? ? Hskip Hrest | ? op ? ? ir0 ? Hop Hmod Hpm Hrest];
    subst; [done | |]; rewrite <- app_comm_cons, passesWalk_cons.
  - destruct (ops ir !! o) as [op |] eqn:Hop; [| by apply IH].
    rewrite (Hskip op eq_refl). by apply IH.
  - rewrite Hop, Hmod, Hpm. cbn [fst snd failed]. by apply IH.
Qed.

(** The pass manager succeeds on every module of the walk, or there is a
    first one on which it fails. *)
Lemma passes_succeed_or_fail visit : ∀ ir,
  (∃ ir', PassesSucceed visit ir ir') ∨
  (∃ failedModule ir', PassesFailAt visit ir failedModule ir').
Proof.
  induction visit as [| o visit IH]; intros ir.
  - left. exists ir. constructor.
  - destruct (ops ir !! o) as [op |] eqn:Hop.
    + destruct (isModuleOp (kind op)) eqn:Hmod.
      * destruct (runPassManager [] o ir) as [[] ir1] eqn:Hpm.
        -- destruct (IH ir1) as [[ir' Hrun]
                                | (fm & ir' & pre & post & ir2 & mop & -> & Hpre
                                   & Hfm & Hfmod & Hfail)].
           ++ left. exists ir'. by eapply passes_run.
           ++ right. exists fm, ir', (o :: pre), post, ir2, mop.
              split_and!; try done. by eapply passes_run.
        -- right. exists o, ir1, [], visit, ir, op.
           split_and!; try done. constructor.
      * destruct (IH ir) as [[ir' Hrun]
                            | (fm & ir' & pre & post & ir2 & mop & -> & Hpre
                               & Hfm & Hfmod & Hfail)].
        -- left. exists ir'. apply passes_skip; [| done]. congruence.
        -- right. exists fm, ir', (o :: pre), post, ir2, mop.
           split_and!; try done. apply passes_skip; [| done]. congruence.
    + destruct (IH ir) as [[ir' Hrun]
                          | (fm & ir' & pre & post & ir2 & mop & -> & Hpre
                             & Hfm & Hfmod & Hfail)].
      * left. exists ir'. apply passes_skip; [| done]. congruence.
      * right. exists fm, ir', (o :: pre), post, ir2, mop.
        split_and!; try done. apply passes_skip; [| done]. congruence.
Qed.

(** X20.  The stages of the op on a single live module.  The verdict of
    the greedy driver on the [tensor.empty] lowering is not read: only the
    payload it leaves goes on.  When the bufferizer fails, the op fails
    definitely without diagnostic and sets no result.  When it succeeds
    under [test_analysis_only], the op succeeds at once with the module as
    result and the pass manager is not run.  Otherwise the (empty) pass
    manager runs, in the order of the walk, on the modules under the top
    level.  When it succeeds on each of them the op succeeds with the
    module as result, no diagnostic and the payload the last run left.
    When it fails on one, the op fails definitely at the first such module
    with the one diagnostic that names it, sets no result and returns the
    payload as the failed run left it; the modules after it are not
    visited.  One of the two is the case. *)
Theorem bufferize_stages (self : TransformBufferizeOp)
    (state : TransformState) ir m moduleOp topOp result ir1 bufferized ir2 :
  getPayloadOps state = [m] →
  ops ir !! m = Some moduleOp →
  isModuleOp (kind moduleOp) = true →
  ops ir !! getTopLevel state = Some topOp →
  applyOpPatternsAndFold
    (filter (λ nestedOp, getTopLevel state ≠ nestedOp)
            (walk ir (getTopLevel state)))
    [EmptyTensorLoweringPattern] ir = (result, ir1) →
  runOneShotBufferize (getTopLevel state) (bufferizeOptions self) ir1
  = (bufferized, ir2) →
  (bufferized = failure →
   bufferize self state ir = Some (mkApplyResult definiteFailure [] None ir2)) ∧
  (bufferized = success → getTestAnalysisOnly self = true →
   bufferize self state ir
   = Some (mkApplyResult (Diagnosed Success) [] (Some [m]) ir2)) ∧
  (bufferized = success → getTestAnalysisOnly self = false →
   is_Some (ops ir2 !! getTopLevel state) →
   let modules := walk ir2 (getTopLevel state) in
   (∀ ir3, PassesSucceed modules ir2 ir3 →
      bufferize self state ir
      = Some (mkApplyResult (Diagnosed Success) [] (Some [m]) ir3)) ∧
   (∀ failedModule ir3, PassesFailAt modules ir2 failedModule ir3 →
      bufferize self state ir
      = Some (mkApplyResult definiteFailure
                [FailedPostBufferizationPasses failedModule
                   (getTopLevel state)]
                None ir3)) ∧
   ((∃ ir3, PassesSucceed modules ir2 ir3) ∨
    (∃ failedModule ir3, PassesFailAt modules ir2 failedModule ir3))).
Proof.
  intros Hp Hm Hmod Htop Hdriver Hbuf.
  assert (Hrun : bufferize self state ir
    = if failed bufferized then Some (mkApplyResult definiteFailure [] None ir2)
      else if getTestAnalysisOnly self
      then Some (mkApplyResult (Diagnosed Success) [] (Some [m]) ir2)
      else
        _ ← ops ir2 !! getTopLevel state;
        let '(res, (ir, diagnostics)) :=
          walkInterruptible fst isModuleOp
            (runPostBufferizationPasses runPassManager (getTopLevel state))
            (getTopLevel state) (ir2, []) in
        if wasInterrupted res
        then Some (mkApplyResult definiteFailure diagnostics None ir)
        else Some (mkApplyResult (Diagnosed Success) diagnostics (Some [m])
                     ir)).
  { unfold Bufferize.apply. rewrite Hp. cbn [length].
    rewrite decide_False by (intros ?; done).
    cbn [head mbind option_bind]. rewrite Hm. cbn [mbind option_bind].
    rewrite Hmod. cbn [negb]. rewrite Htop. cbn [mbind option_bind].
    rewrite Hdriver, Hbuf. done. }
  rewrite Hrun. split_and!.
  - by intros ->.
  - by intros -> ->.
  - intros -> -> [top2 Htop2] modules. cbn [failed]. rewrite Htop2.
    cbn [mbind option_bind]. unfold walkInterruptible. cbn [fst].
    fold modules. split_and!.
    + intros ir3 Hall.
      pose proof (passesWalk_app (getTopLevel state) modules [] ir2 ir3 []
                    Hall) as Hwalk.
      rewrite app_nil_r in Hwalk. rewrite Hwalk. done.
    + intros failedModule ir3
        (pre & post & ir0 & mop & Hsplit & Hpre & Hfm & Hfmod & Hfail).
      rewrite Hsplit.
      rewrite (passesWalk_app (getTopLevel state) pre (failedModule :: post)
                 ir2 ir0 [] Hpre).
      rewrite passesWalk_cons, Hfm, Hfmod, Hfail. done.
    + apply passes_succeed_or_fail.
Qed.

End apply.

Section eliminate.
Variable OneShotAnalysisState : Type.
Variable analyzeOp :
  positive → OneShotBufferizationOptions → IR →
  LogicalResult * OneShotAnalysisState * IR.
Variable insertSliceAnchoredEmptyTensorEliminationStep :
  positive → OneShotAnalysisState → IR → LogicalResult * IR.

#[local] Abbreviation eliminateEmptyTensors :=
  (eliminateEmptyTensors OneShotAnalysisState analyzeOp
     insertSliceAnchoredEmptyTensorEliminationStep).
#[local] Abbreviation eliminateEach :=
  (eliminateEach OneShotAnalysisState analyzeOp
     insertSliceAnchoredEmptyTensorEliminationStep).
#[local] Abbreviation applyEliminateEmptyTensors :=
  (applyEliminateEmptyTensors OneShotAnalysisState analyzeOp
     insertSliceAnchoredEmptyTensorEliminationStep).

Lemma eliminateEach_app pre : ∀ rest ir ir1,
  eliminateEach pre ir = Some (None, ir1) →
  eliminateEach (pre ++ rest) ir = eliminateEach rest ir1.
Proof.
  induction pre as [| p pre IH]; intros rest ir ir1 Hpre; cbn in *.
  - by injection Hpre as <-.
  - destruct (eliminateEmptyTensors p getBufferizationOptions ir)
      as [[r ir0] |]; [| done]. cbn in *.
    destruct (failed r); [done |]. by apply IH.
Qed.

(** X21.  The elimination of empty tensors stops at the first failure.
    When the analysis of a payload operation fails, the elimination step is
    not run on it.  When the loop has gone through the payload operations
    [pre] and the next one fails, the op fails definitely with one
    diagnostic, sets no result, and returns the payload as that failure
    left it, whatever payload operations follow: they are not visited, and
    what was rewritten before stays.  When the loop goes through all of
    them, the op succeeds and the result handle holds the payload
    operations it was given. *)
Theorem elimination_stops_at_first_failure (state : TransformState) ir :
  (∀ op analysis ir1,
     is_Some (ops ir !! op) →
     analyzeOp op getBufferizationOptions ir = (failure, analysis, ir1) →
     eliminateEmptyTensors op getBufferizationOptions ir
     = Some (failure, ir1)) ∧
  (∀ pre p post ir1 ir2,
     getPayloadOps state = pre ++ p :: post →
     eliminateEach pre ir = Some (None, ir1) →
     eliminateEmptyTensors p getBufferizationOptions ir1
     = Some (failure, ir2) →
     applyEliminateEmptyTensors state ir
     = Some (mkApplyResult definiteFailure [FailedToEliminateTensorEmpty]
               None ir2)) ∧
  (∀ ir',
     eliminateEach (getPayloadOps state) ir = Some (None, ir') →
     applyEliminateEmptyTensors state ir
     = Some (mkApplyResult (Diagnosed Success) []
               (Some (getPayloadOps state)) ir')).
Proof.
  split_and!.
  - intros op analysis ir1 [o Ho] Han. unfold Bufferize.eliminateEmptyTensors.
    rewrite Ho. cbn [mbind option_bind]. by rewrite Han.
  - intros pre p post ir1 ir2 Hp Hpre Hfail.
    unfold Bufferize.applyEliminateEmptyTensors. rewrite Hp.
    rewrite (eliminateEach_app pre (p :: post) ir ir1 Hpre).
    cbn [Bufferize.eliminateEach]. rewrite Hfail. done.
  - intros ir' Hrun. unfold Bufferize.applyEliminateEmptyTensors.
    by rewrite Hrun.
Qed.

End eliminate.
End copy.
End BufferizeProps.

(** ** The Python extension: [getBoundsFromRelation] *)

Module NelliProps.
Import IR Nelli.

Lemma setBound_fits key B bound :
  (∀ x, B = Some x → (- 2 ^ 63 ≤ x < 2 ^ 63)%Z) →
  setBound key B bound = Some (<[key := B]> bound).
Proof.
  intros Hfit. unfold setBound, int64FromMPInt. destruct B as [x |]; [| done].
  by rewrite decide_True by (by apply Hfit).
Qed.

Lemma addBounds_fits relation bounds i :
  BoundsFit relation →
  i < getNumDimAndSymbolVars relation →
  addBounds relation bounds i
  = Some (if hasValue relation i
          then <[getValue relation i := boundsOf relation i]> bounds
          else bounds).
Proof.
  intros Hfit Hi. unfold addBounds.
  destruct (hasValue relation i) eqn:Hv; [| done].
  rewrite setBound_fits by (intros x Hx; by eapply Hfit).
  cbn [mbind option_bind].
  rewrite setBound_fits by (intros x Hx; by eapply Hfit).
  cbn [mbind option_bind].
  rewrite setBound_fits by (intros x Hx; by eapply Hfit).
  done.
Qed.

(** The dictionary after the variables below [n]. *)
Lemma bounds_prefix relation n :
  BoundsFit relation →
  n ≤ getNumDimAndSymbolVars relation →
  ∃ bounds,
    foldl (λ bounds i, bounds ← bounds; addBounds relation bounds i)
          (Some ∅) (seq 0 n) = Some bounds ∧
    ∀ v, match bounds !! v with
         | Some bound =>
             ∃ i, i < n ∧ hasValue relation i = true ∧
                  getValue relation i = v ∧ bound = boundsOf relation i ∧
                  ∀ j, i < j < n → hasValue relation j = true →
                       getValue relation j ≠ v
         | None =>
             ∀ i, i < n → hasValue relation i = true →
                  getValue relation i ≠ v
         end.
Proof.
  intros Hfit. induction n as [| n IH]; intros Hn.
  - exists ∅. split; [done |]. intros v. rewrite lookup_empty. lia.
  - destruct IH as (bounds & Hrun & Hspec); [lia |].
    rewrite seq_S, foldl_app, Hrun. cbn [foldl mbind option_bind plus].
    rewrite (addBounds_fits relation bounds n Hfit) by lia.
    eexists. split; [done |]. intros v. specialize (Hspec v).
    destruct (hasValue relation n) eqn:Hv.
    + destruct (decide (getValue relation n = v)) as [<- | Hne].
      * rewrite lookup_insert_eq. exists n. split_and!; try done; lia.
      * rewrite lookup_insert_ne by done.
        destruct (bounds !! v) as [bound |].
        -- destruct Hspec as (i & Hi & Hiv & Hval & Hb & Hlast).
           exists i. split_and!; try done; [lia |].
           intros j Hj Hjv. destruct (decide (j = n)) as [-> | Hjn]; [done |].
           apply Hlast; [lia | done].
        -- intros i Hi Hiv. destruct (decide (i = n)) as [-> | Hin]; [done |].
           apply Hspec; [lia | done].
    + destruct (bounds !! v) as [bound |].
      * destruct Hspec as (i & Hi & Hiv & Hval & Hb & Hlast).
        exists i. split_and!; try done; [lia |].
        intros j Hj Hjv. destruct (decide (j = n)) as [-> | Hjn];
          [congruence |].
        apply Hlast; [lia | done].
      * intros i Hi Hiv. destruct (decide (i = n)) as [-> | Hin];
          [congruence |].
        apply Hspec; [lia | done].
Qed.

(** X22.  The dictionary of bounds.  When the constant bounds of the
    variables that carry a value fit in 64 bits, the function returns a
    dictionary with an entry for a value exactly when some dimension or
    symbol variable carries it; the entry has the three keys LB, UB and EQ,
    each holding the constant bound of that kind or [None] when there is
    none; and when several variables carry the same value the entry is that
    of the last one. *)
Theorem bounds_from_relation (relation : FlatAffineRelation) :
  BoundsFit relation →
  ∃ bounds,
    getBoundsFromRelation relation = Some bounds ∧
    (∀ v, is_Some (bounds !! v) ↔
          ∃ i, i < getNumDimAndSymbolVars relation ∧
               hasValue relation i = true ∧ getValue relation i = v) ∧
    (∀ v bound, bounds !! v = Some bound →
       ∃ i, i < getNumDimAndSymbolVars relation ∧
            hasValue relation i = true ∧ getValue relation i = v ∧
            bound !! "LB" = Some (getConstantBound relation LB i) ∧
            bound !! "UB" = Some (getConstantBound relation UB i) ∧
            bound !! "EQ" = Some (getConstantBound relation EQ i) ∧
            (∀ key, is_Some (bound !! key) →
                    key = "LB" ∨ key = "UB" ∨ key = "EQ") ∧
            (∀ j, i < j < getNumDimAndSymbolVars relation →
                  hasValue relation j = true → getValue relation j ≠ v)).
Proof.
  intros Hfit.
  destruct (bounds_prefix relation (getNumDimAndSymbolVars relation) Hfit)
    as (bounds & Hrun & Hspec); [lia |].
  exists bounds. split_and!; [done | |].
  - intros v. specialize (Hspec v). split.
    + intros [bound Hb]. rewrite Hb in Hspec.
      destruct Hspec as (i & Hi & Hiv & Hval & _). by exists i.
    + intros (i & Hi & Hiv & Hval).
      destruct (bounds !! v) as [bound |]; [by eexists |].
      by destruct (Hspec i Hi Hiv).
  - intros v bound Hb. specialize (Hspec v). rewrite Hb in Hspec.
    destruct Hspec as (i & Hi & Hiv & Hval & -> & Hlast).
    exists i. unfold boundsOf. split_and!; try done.
    intros key [x Hkey].
    destruct (decide (key = "EQ")) as [-> | H1]; [tauto |].
    rewrite lookup_insert_ne in Hkey by done.
    destruct (decide (key = "UB")) as [-> | H2]; [tauto |].
    rewrite lookup_insert_ne in Hkey by done.
    destruct (decide (key = "LB")) as [-> | H3]; [tauto |].
    rewrite lookup_insert_ne in Hkey by done.
    by rewrite lookup_empty in Hkey.
Qed.

End NelliProps.

(* ===================================================================== *)
(** * The theorems at the sample payloads *)
(* ===================================================================== *)

Module Instances.
Import IR Transform Examples.

(** Decide a closed decidable proposition by evaluation. *)
Ltac by_compute := apply (bool_decide_unpack _); vm_compute; exact I.

(** Split a lookup in a concrete store into its finitely many cases. *)
Ltac enumerate_ops H :=
  apply elem_of_map_to_list in H; vm_compute in H;
  repeat (apply elem_of_cons in H as [H | H]);
  [.. | by apply elem_of_nil in H].

(** *** The fusion gate *)

Lemma gate_true_iff_witness :
  ∃ b, FusionGate.setFusedOpOperandLimit 3 ir_1_3 fusedOperand = Some b ∧
       (b = true ↔
        getNumResults (Linalg [arg 0] [arg 7] 1 []) = 1 ∧
        (Z.of_nat (size (FusionGate.fusedOperandSet
                           (Linalg [producerResult; arg 1; arg 2] [arg 8] 1 [])
                           (OpResult 2 0)
                           (Linalg [arg 0] [arg 7] 1 []))) ≤ 3)%Z).
Proof.
  exact (FusionGateProps.gate_true_iff 3 ir_1_3 fusedOperand producerResult 2
           (mkOperation (Linalg [arg 0] [arg 7] 1 []) (Some 100%positive))
           (mkOperation (Linalg [producerResult; arg 1; arg 2] [arg 8] 1 [])
                        (Some 100%positive))
           ltac:(lia) eq_refl eq_refl eq_refl eq_refl).
Defined.

Lemma gate_boundary_witness :
  size (FusionGate.fusedOperandSet
          (Linalg [producerResult; arg 1; arg 2] [arg 8] 1 [])
          (OpResult 2 0) (Linalg [arg 0] [arg 7] 1 []))
  = 1 + 2 ∧
  FusionGate.setFusedOpOperandLimit 3 ir_1_3 fusedOperand = Some true.
Proof.
  destruct (FusionGateProps.gate_boundary ir_1_3 fusedOperand 2
              (mkOperation (Linalg [arg 0] [arg 7] 1 []) (Some 100%positive))
              (mkOperation (Linalg [producerResult; arg 1; arg 2] [arg 8] 1 [])
                           (Some 100%positive))
              eq_refl eq_refl eq_refl eq_refl
              ltac:(by_compute) ltac:(by_compute)
              ltac:(intros x ->%list_elem_of_singleton; by_compute))
    as (Hsize & Hpass & _).
  split; [exact Hsize | exact (Hpass eq_refl eq_refl)].
Defined.

(** A producer with 1 input and a consumer with 2 inputs, one of them the
    producer's result: the fused operand set has 2 elements, not 3, and with
    one more distinct operand on either side (3 elements) the gate still
    answers [true]. *)
Lemma gate_two_inputs_count_two :
  length (FusionGate.inputOperands (Linalg [arg 0] [arg 7] 1 [])) = 1 ∧
  length (FusionGate.inputOperands
            (Linalg [producerResult; arg 1] [arg 8] 1 [])) = 2 ∧
  FusionGate.setFusedOpOperandLimit 3 ir_1_2 fusedOperand = Some true ∧
  size (FusionGate.fusedOperandSet
          (Linalg [producerResult; arg 1] [arg 8] 1 [])
          (OpResult 2 0) (Linalg [arg 0] [arg 7] 1 [])) = 2 ∧
  FusionGate.setFusedOpOperandLimit 3 ir_1_3 fusedOperand = Some true ∧
  FusionGate.setFusedOpOperandLimit 3 ir_2_2 fusedOperand = Some true.
Proof. split_and!; by vm_compute. Qed.

(** The gate on the payload [ir_1_3] and on the same payload with an
    unrelated operation added and the blocks dropped. *)
Lemma gate_reads_only_its_argument_witness :
  FusionGate.setFusedOpOperandLimit 3 ir_1_3 fusedOperand
  = FusionGate.setFusedOpOperandLimit 3
      (mkIR (<[7%positive := mkOperation (Dealloc (arg 5)) None]> (ops ir_1_3))
            ∅)
      fusedOperand.
Proof.
  apply FusionGateProps.gate_reads_only_its_argument.
  - reflexivity.
  - intros v producer Hv Hd. vm_compute in Hv. injection Hv as <-.
    injection Hd as <-. reflexivity.
Defined.

(** *** The pattern applier *)

(** The consumer [3] of [ir_1_3] is not isolated from above. *)
Lemma not_isolated_fails_witness :
  ApplyPatterns.applyToOne sampleDriver sampleLicm samplePromote allPatterns
    3 ir_1_3
  = Some (DefiniteFailure 3
            "applies only to isolated-from-above targets because it needs to apply patterns greedily",
          [], ir_1_3).
Proof.
  exact (ApplyPatternsProps.not_isolated_fails sampleDriver sampleLicm
           samplePromote allPatterns 3
           (mkOperation (Linalg [producerResult; arg 1; arg 2] [arg 8] 1 [])
                        (Some 100%positive))
           ir_1_3 eq_refl eq_refl).
Defined.

(** The sample driver keeps the contract of the greedy driver. *)
Lemma sampleDriver_converges :
  ApplyPatterns.ConvergesWithoutWork sampleHasRewrite sampleDriver.
Proof.
  intros worklist patterns ir Hnone. unfold sampleDriver.
  assert (Hfind : list_find (λ o, HoistAlloc.isDealloc ir o = true) worklist
                  = None).
  { apply list_find_None, Forall_forall. intros o Ho.
    unfold sampleHasRewrite in Hnone. by rewrite (Hnone o Ho). }
  by rewrite Hfind.
Qed.

(** The function [1] of [converged_ir] holds no deallocation any more, and
    the loop [2] under it has, for the sample utilities, no code to move and
    not a single iteration: the op returns the payload as it is.  So it
    does on the kernel [1] of [kernel_ir], which is no [func.func] and holds
    none, although its loop has code that the drastic stand-in would
    move. *)
Lemma fixpoint_run_is_noop_witness :
  ApplyPatterns.applyToOne sampleDriver sampleLicm samplePromote allPatterns
    1 converged_ir
  = Some (Success, [1%positive], converged_ir) ∧
  ApplyPatterns.applyToOne sampleDriver MoreExamples.drasticLicm samplePromote
    allPatterns 1 MoreExamples.kernel_ir
  = Some (Success, [1%positive], MoreExamples.kernel_ir).
Proof.
  split.
  - apply (ApplyPatternsProps.fixpoint_run_is_noop sampleDriver sampleLicm
             samplePromote sampleHasRewrite noInvariantCode noSingleIteration
             allPatterns 1 (mkOperation (Func [[100%positive]]) None)).
    + exact sampleDriver_converges.
    + by intros loop ir _.
    + by intros loop ir _.
    + reflexivity.
    + reflexivity.
    + split.
      * intros nestedOp Hin. vm_compute in Hin.
        repeat (apply elem_of_cons in Hin as [-> | Hin]); try reflexivity.
        by apply elem_of_nil in Hin.
      * intros _ funcOp func loop loopOp _ _ _ _ _. by split.
  - apply (ApplyPatternsProps.fixpoint_run_is_noop sampleDriver
             MoreExamples.drasticLicm samplePromote sampleHasRewrite
             MoreExamples.alwaysInvariantCode noSingleIteration
             allPatterns 1
             (mkOperation (Generic "gpu.func" (mkTraits false true false) []
                                   0 [[100%positive]]) None)).
    + exact sampleDriver_converges.
    + by intros loop ir ?.
    + by intros loop ir _.
    + reflexivity.
    + reflexivity.
    + split.
      * intros nestedOp Hin. vm_compute in Hin.
        repeat (apply elem_of_cons in Hin as [-> | Hin]); try reflexivity.
        by apply elem_of_nil in Hin.
      * intros _ funcOp func loop loopOp Hin Hfunc Hisf _ _.
        vm_compute in Hin.
        repeat (apply elem_of_cons in Hin as [-> | Hin]);
          [.. | by apply elem_of_nil in Hin];
          vm_compute in Hfunc; injection Hfunc as <-; done.
Defined.

(** *** Sharing of forall operands *)

Lemma empty_share_operands_is_noop_witness :
  ShareForall.applyToOne [] 3 forall_ir = Some (Success, [3%positive], forall_ir).
Proof.
  exact (ShareForallProps.empty_share_operands_is_noop forall_ir 3
           (mkOperation (ScfForall 1 [] [OpResult 2 0] [[300%positive]])
                        (Some 100%positive))
           1 [] [OpResult 2 0] [[300%positive]] eq_refl eq_refl).
Defined.

(** *** The allocation hoister *)

(** The walk of the sample function: the loop body, the loop, the return,
    the function. *)
Example walk_loop_ir :
  walk (loop_ir (staticAlloc AllocOp)) 1 = [3; 4; 5; 6; 2; 9; 1]%positive.
Proof. reflexivity. Qed.

Lemma loop_ir_entry alloc : HoistAlloc.EntryEndsIn (loop_ir alloc) 1 100 9 100.
Proof.
  split_and!; [reflexivity | reflexivity |].
  eexists. split; reflexivity.
Qed.

Lemma loop_ir_ends alloc : HoistAlloc.EndsOnce (loop_ir alloc) 100 9.
Proof. exists [2%positive]. split; [reflexivity | by_compute]. Qed.


(** The collected allocation of the sample function is its only one. *)
Lemma only_one_collected (before after : list positive) (a : positive) :
  Some [a] = Some (before ++ a :: after) → before = [] ∧ after = [].
Proof.
  intros [= Hl].
  destruct before as [| b [| b' before]]; simpl in Hl; simplify_eq; done.
Qed.



Lemma loop_ir_verified :
  HoistAlloc.VerifiedAllocs AllocOp (loop_ir (dynamicAlloc AllocOp)).
Proof.
  intros a type dynamicSizes alignment b Ha.
  enumerate_ops Ha; simplify_eq.
  split; [by eexists | vm_compute; lia].
Qed.

Lemma loop_ir_uses_replaceable use :
  use ∈ getOpUses (loop_ir (dynamicAlloc AllocOp)) 3 →
  HoistAlloc.isUseReplaceableWithSubview (loop_ir (dynamicAlloc AllocOp)) use
  = true.
Proof.
  intros Hin. vm_compute in Hin.
  repeat (apply elem_of_cons in Hin as [-> | Hin]);
    [reflexivity.. | by apply elem_of_nil in Hin].
Qed.

(** With [%arg0 <= 16] the hoister turns the dynamic allocation [3] into a
    [4x16] allocation [10] in the entry block and a [4 x %arg0] sub-view of
    it where [3] stood. *)
Lemma bounded_allocation_is_hoisted_witness :
  ∃ ir' subview dealloc,
    HoistAlloc.applyToOne boundArg0 1 (loop_ir (dynamicAlloc AllocOp))
    = Some (Success, [1%positive], ir') ∧
    ops ir' !! 10%positive
    = Some (mkOperation
              (AllocLike AllocOp (mkMemRefType [4; 16]%Z f32 None None) []
                 None)
              (Some 100%positive)) ∧
    ops ir' !! subview
    = Some (mkOperation
              (SubView (OpResult 10 0) [IndexAttr 0; IndexAttr 0]
                 [IndexAttr 4; OfrValue (arg 0)] [IndexAttr 1; IndexAttr 1])
              (Some 200%positive)) ∧
    blockOps ir' 200 = [subview; 4; 6]%positive ∧
    blockOps ir' 100 = [10; 2; dealloc; 9]%positive ∧
    ops ir' !! 3%positive = None ∧
    ops ir' !! 5%positive = None ∧
    ops ir' !! 4%positive
    = Some (mkOperation
              (Store (arg 1) (OpResult subview 0) [BlockArgument 200 0])
              (Some 200%positive)).
Proof.
  destruct (HoistInFuncProps.bounded_allocation_is_hoisted boundArg0 AllocOp
              1 100 9 3 (mkMemRefType [4%Z; kDynamic] f32 None None) [arg 0]
              None 200 (loop_ir (dynamicAlloc AllocOp)) None
              (loop_ir_entry _) (loop_ir_ends _) ltac:(by_compute)
              loop_ir_verified ltac:(by_compute) eq_refl ltac:(done)
              ltac:(done)
              loop_ir_uses_replaceable)
    as (before & after & ir1 & ir2 & ir' & sizes1 & _ & Happly & Hl & Hrun1
        & _ & Hrun2 & Ha1 & _ & _ & Heffect).
  apply only_one_collected in Hl as [-> ->].
  injection Hrun1 as <-. injection Hrun2 as <-.
  assert (sizes1 = [arg 0]) as -> by (vm_compute in Ha1; injection Ha1 as <-; reflexivity).
  assert (Hbounds : ∀ i d,
            [4%Z; kDynamic] !! i = Some d → isDynamic d = true →
            ∃ v ub, [arg 0] !! HoistAlloc.dynamicIndex [4%Z; kDynamic] i
                    = Some v ∧
                    boundArg0 (loop_ir (dynamicAlloc AllocOp)) v = Some ub).
  { intros i d Hi Hd. destruct i as [| [| i]]; simpl in Hi.
    - injection Hi as <-. by vm_compute in Hd.
    - exists (arg 0), 16%Z. split; reflexivity.
    - done. }
  destruct (Heffect Hbounds
              ltac:(intros v ->%list_elem_of_singleton; done)
              [] [4; 5; 6]%positive eq_refl ltac:(by_compute))
    as (new & subview & dealloc & staticShape & subviewSizes & body & Hb
        & Hbody & Hnew & _ & Hnew2 & Hblock & _ & _ & Hsub & Hpb & Ha
        & Hdeallocs & _ & Hother & _).
  apply (app_inj_tail [2%positive] body 9%positive 9%positive) in Hbody
    as [<- _].
  vm_compute in Hnew. subst new.
  assert (HstaticShape : staticShape = [4; 16]%Z
                         ∧ subviewSizes = [IndexAttr 4; OfrValue (arg 0)]).
  { destruct Hb as (Hl1 & Hl2 & Hb).
    pose proof (Hb 0 4%Z eq_refl) as [H0 H0'].
    pose proof (Hb 1 kDynamic eq_refl) as (v & ub & Hv & Hub & H1 & H1').
    vm_compute in Hv. injection Hv as <-.
    vm_compute in Hub. injection Hub as <-.
    destruct staticShape as [| x [| y [| ? ?]]]; try done.
    destruct subviewSizes as [| x' [| y' [| ? ?]]]; try done.
    simpl in *. by simplify_eq. }
  destruct HstaticShape as [-> ->].
  exists ir2, subview, dealloc. split_and!.
  - exact (Happly eq_refl eq_refl).
  - exact Hnew2.
  - exact Hsub.
  - exact Hpb.
  - exact Hblock.
  - exact Ha.
  - apply Hdeallocs. reflexivity.
  - exact (Hother 4%positive _ eq_refl ltac:(by_compute)).
Defined.

Lemma loop_ir_unbounded a type dynamicSizes alignment b :
  ops (loop_ir (dynamicAlloc AllocOp)) !! a
  = Some (mkOperation (AllocLike AllocOp type dynamicSizes alignment) b) →
  HoistAlloc.Unbounded noBound (loop_ir (dynamicAlloc AllocOp)) type
    dynamicSizes.
Proof.
  intros Ha. enumerate_ops Ha; simplify_eq.
  exists 1, kDynamic, (arg 0). by split_and!.
Qed.

(** Without any bound on [%arg0] the op succeeds on the function [1] and
    returns the payload it was given. *)
Lemma unbounded_allocation_is_skipped_witness :
  HoistAlloc.applyToOne noBound 1 (loop_ir (dynamicAlloc AllocOp))
  = Some (Success, [1%positive], loop_ir (dynamicAlloc AllocOp)).
Proof.
  destruct (HoistFuncProps.unbounded_allocation_is_skipped noBound 1 100 9 100
              (loop_ir (dynamicAlloc AllocOp))
              (loop_ir_entry _) ltac:(by_compute) loop_ir_verified)
    as (_ & _ & Hsame).
  apply Hsame. intros a type dynamicSizes alignment b Ha _.
  by eapply loop_ir_unbounded.
Defined.

End Instances.

(* ===================================================================== *)
(** * The further theorems at the sample payloads *)
(* ===================================================================== *)

Module MoreInstances.
Import IR Transform Examples MoreExamples Instances.

(** Split membership in a concrete list into its cases. *)
Ltac enumerate_list H :=
  vm_compute in H;
  repeat (apply elem_of_cons in H as [H | H]);
  [.. | by apply elem_of_nil in H].

(** *** The pattern applier *)

(** The sample driver erases the deallocation [5] of the sample function
    and reports convergence; the op succeeds. *)
Lemma outcome_follows_driver_witness :
  ApplyPatterns.applyToOne sampleDriver sampleLicm samplePromote allPatterns
    1 (loop_ir (staticAlloc AllocOp))
  = Some (Success, [1%positive],
          ApplyPatterns.licmPhase sampleLicm samplePromote 1
            (erase 5 (loop_ir (staticAlloc AllocOp)))).
Proof.
  destruct (ApplyOutcomeProps.outcome_follows_driver sampleDriver sampleLicm
              samplePromote allPatterns 1
              (mkOperation (Func [[100%positive]]) None)
              (loop_ir (staticAlloc AllocOp)) success
              (erase 5 (loop_ir (staticAlloc AllocOp)))
              eq_refl eq_refl ltac:(by vm_compute))
    as [_ Hsuccess].
  exact (Hsuccess eq_refl).
Defined.

(** The kernel [1] holds a loop but no function: even a loop-invariant
    code motion that would empty the store leaves the payload alone. *)
Lemma licm_needs_a_function_witness :
  ApplyPatterns.licmPhase drasticLicm samplePromote 1 kernel_ir = kernel_ir ∧
  ApplyPatterns.applyToOne sampleDriver drasticLicm samplePromote allPatterns
    1 kernel_ir
  = Some (Success, [1%positive], kernel_ir).
Proof.
  apply (ApplyOutcomeProps.licm_needs_a_function sampleDriver drasticLicm
           samplePromote allPatterns 1
           (mkOperation (Generic "gpu.func" (mkTraits false true false) [] 0
                                 [[100%positive]]) None)
           kernel_ir kernel_ir eq_refl eq_refl ltac:(by vm_compute)).
  intros o op Ho Hop. enumerate_list Ho; subst o; vm_compute in Hop;
    by injection Hop as <-.
Defined.

(** *** The allocation hoister *)

(** The stack allocation [3] of the loop body is no candidate. *)
Lemma nothing_to_hoist_witness :
  HoistAlloc.applyToOne noBound 1 (loop_ir (staticAlloc AllocaOp))
  = Some (Success, [1%positive], loop_ir (staticAlloc AllocaOp)).
Proof.
  apply (HoistCandidatesProps.nothing_to_hoist noBound 1 100
           (loop_ir (staticAlloc AllocaOp)) eq_refl).
  intros a type dynamicSizes alignment b _ Ha.
  enumerate_ops Ha; simplify_eq.
Defined.

(** The static allocation [3] of the loop body reaches the entry block,
    and the op is then at a fixpoint. *)
Lemma static_allocations_reach_entry_witness :
  ∃ ir',
    HoistAlloc.applyToOne noBound 1 (loop_ir (staticAlloc AllocOp))
    = Some (Success, [1%positive], ir') ∧
    (∀ a type dynamicSizes alignment b,
       ops ir' !! a
       = Some (mkOperation (AllocLike AllocOp type dynamicSizes alignment) b) →
       b = Some 100%positive) ∧
    HoistAlloc.applyToOne noBound 1 ir' = Some (Success, [1%positive], ir').
Proof.
  apply (HoistCandidatesProps.static_allocations_reach_entry noBound 1 100 9
           (loop_ir (staticAlloc AllocOp)) (loop_ir_entry _)
           ltac:(by_compute)).
  intros a type dynamicSizes alignment b Ha.
  enumerate_ops Ha; simplify_eq. right.
  split_and!; [by_compute | done | by eexists].
Defined.

(** The bounded dynamic allocation [3]: the six-argument function at
    [memref.alloc] leaves the builder before the return [9] of the entry
    block; the three-argument overload, started without insertion point,
    returns without one. *)
Lemma insertion_point_after_hoist_witness :
  (∃ r ir',
     HoistAlloc.hoistOneStaticallyBoundAllocationAt boundArg0 AllocOp 1
       (mkMemRefType [4%Z; kDynamic] f32 None None) [arg 0] None
       (HoistAlloc.mkBuilder (loop_ir (dynamicAlloc AllocOp))
          (Some (mkInsertPoint 200 (Some 3%positive))))
     = Some (r, HoistAlloc.mkBuilder ir'
                  (Some (mkInsertPoint 100 (Some 9%positive))))) ∧
  (∃ r ir',
     HoistAlloc.hoistOneStaticallyBoundAllocation boundArg0 AllocOp 1 3
       (HoistAlloc.mkBuilder (loop_ir (dynamicAlloc AllocOp)) None)
     = Some (r, HoistAlloc.mkBuilder ir' None)).
Proof.
  destruct (HoistCandidatesProps.insertion_point_after_hoist boundArg0
              AllocOp 1 100 9 100 200 3
              (mkMemRefType [4%Z; kDynamic] f32 None None) [arg 0] None
              (loop_ir (dynamicAlloc AllocOp))
              (Some ([4; 16]%Z, [IndexAttr 4; OfrValue (arg 0)]))
              (loop_ir_entry _) ltac:(done) eq_refl eq_refl)
    as [Hat Hwrapped].
  split; [exact Hat | exact (Hwrapped None)].
Defined.

(** *** Sharing of forall operands *)

Lemma forall_ir_well_formed :
  ShareVocabulary.ForallWithTerminator forall_ir 3 [OpResult 2 0].
Proof. split; [reflexivity | by eexists]. Qed.

(** The index 0 is in range, the index 5 is not: the op fails at it, and
    the payload is the one the index 0 left. *)
Lemma share_outcome_witness :
  ∃ ir',
    ShareForall.forEachOutputIdx 3 [0%Z] forall_ir
    = Some (Success, [3%positive], ir') ∧
    ShareForall.applyToOne [0%Z; 5%Z] 3 forall_ir
    = Some (DefiniteFailure 3 "operand idx overflow", [], ir').
Proof.
  destruct (ShareOutcomeProps.share_outcome [0%Z; 5%Z] 3 forall_ir
              [OpResult 2 0] forall_ir_well_formed) as [_ Hfail].
  exact (Hfail [0%Z] 5%Z [] eq_refl ltac:(by_compute) ltac:(by_compute)).
Defined.

(** The slice [4] of the shared tensor is retargeted to the output block
    argument of the loop. *)
Lemma share_retargets_extract_slice_witness :
  ∃ ir',
    ShareForall.applyToOne [0%Z] 3 forall_ir
    = Some (Success, [3%positive], ir') ∧
    ops ir' !! 4%positive
    = Some (mkOperation
              (ExtractSlice (BlockArgument 300 1)
                 [OfrValue (BlockArgument 300 0)] [IndexAttr 4]
                 [IndexAttr 1])
              (Some 300%positive)) ∧
    (∀ x, x ≠ 4%positive → ops ir' !! x = ops forall_ir !! x) ∧
    blocks ir' = blocks forall_ir.
Proof.
  exact (ShareOutcomeProps.share_retargets_extract_slice 3 forall_ir 1 []
           [OpResult 2 0] [[300%positive]] (Some 100%positive) 300 0
           (OpResult 2 0) 0 4 0 (OpResult 2 0)
           [OfrValue (BlockArgument 300 0)] [IndexAttr 4] [IndexAttr 1]
           (Some 300%positive) [6%positive] 6 (OpResult 4 0)
           (Some 400%positive)
           eq_refl eq_refl eq_refl ltac:(by vm_compute) eq_refl eq_refl
           ltac:(by_compute) eq_refl).
Defined.

Lemma share_changes_slice_sources_only_witness :
  ∃ diag results ir',
    ShareForall.applyToOne [0%Z; 5%Z] 3 forall_ir
    = Some (diag, results, ir') ∧
    ShareVocabulary.SliceSourcesOnly forall_ir ir'.
Proof.
  exact (ShareOutcomeProps.share_changes_slice_sources_only [0%Z; 5%Z] 3
           forall_ir [OpResult 2 0] forall_ir_well_formed).
Defined.

(** A second run with the index 0 returns what the first one did. *)
Lemma sharing_one_output_is_idempotent_witness :
  ∃ diag results ir',
    ShareForall.applyToOne [0%Z] 3 forall_ir = Some (diag, results, ir') ∧
    ShareForall.applyToOne [0%Z] 3 ir' = Some (diag, results, ir').
Proof.
  exact (ShareOutcomeProps.sharing_one_output_is_idempotent 0%Z 3 forall_ir
           [OpResult 2 0] forall_ir_well_formed).
Defined.

(** *** Buffer optimizations *)

Lemma lastUseFirst_complete ir :
  BufferOptimizations.UseListsOf lastUseFirst ir.
Proof. intros op. apply merge_sort_Permutation. Qed.

(** Every operation reached from the buffer [2] writes or frees: the
    function answers [true] and appends them, the deallocation [5] and the
    transfer write [12], which come last in the block, first, then the
    store [4] through the sub-view [3], and then the sub-view. *)
Lemma all_uses_are_stores_contract_witness :
  ∃ allStores uses',
    BufferOptimizations.allUsesAreStores lastUseFirst buffers_ir 2 []
    = Some (allStores, uses') ∧
    allStores = true ∧ uses' = [5; 12; 4; 3]%positive.
Proof.
  destruct (BufferOptimizationsProps.all_uses_are_stores_contract
              lastUseFirst buffers_ir 2 [] (lastUseFirst_complete _) eq_refl)
    as (allStores & uses' & Hrun & Hiff & _ & Htrue & _).
  exists allStores, uses'. split; [exact Hrun |].
  assert (Hall : allStores = true).
  { apply Hiff. intros u Hu. enumerate_list Hu; by subst u. }
  split; [exact Hall | exact (Htrue Hall)].
Defined.

Lemma buffers_ir_depth a :
  a ∈ walk (noForwarding 1 buffers_ir) 1 →
  BufferOptimizations.isAlloc (noForwarding 1 buffers_ir) a = true →
  BufferOptimizations.subViewsWithin
    (S (size (ops (noForwarding 1 buffers_ir)))) (noForwarding 1 buffers_ir) a
  = true.
Proof. intros Ha _. enumerate_list Ha; by subst a. Qed.

Lemma buffers_ir_verified :
  BufferOptimizations.TransferWritesVerified (noForwarding 1 buffers_ir).
Proof.
  intros o op Ho Htw. enumerate_ops Ho; simplify_eq; done.
Qed.

Lemma buffers_ir_results_exist :
  BufferOptimizations.ResultsExist (noForwarding 1 buffers_ir).
Proof.
  intros x op d i Hx Hv. enumerate_ops Hx; simplify_eq;
    enumerate_list Hv; simplify_eq; eexists; (split; [reflexivity |]);
    simpl; lia.
Qed.

(** The buffer [2], written through the sub-view [3] and the transfer
    write [12] and freed by [5], goes with all of them. *)
Lemma write_only_allocations_are_erased_witness :
  ∃ ir',
    BufferOptimizations.applyToOne lastUseFirst noForwarding 1 buffers_ir
    = Some (Success, [1%positive], ir') ∧
    ops ir' !! 2%positive = None ∧
    ops ir' !! 3%positive = None ∧
    ops ir' !! 4%positive = None ∧
    ops ir' !! 5%positive = None ∧
    ops ir' !! 12%positive = None.
Proof.
  destruct (BufferOptimizationsProps.write_only_allocations_are_erased
              lastUseFirst noForwarding 1 buffers_ir
              ltac:(by eexists) ltac:(by eexists) (lastUseFirst_complete _)
              buffers_ir_depth ltac:(by_compute) buffers_ir_verified)
    as (ir' & Hrun & Hgone).
  destruct (Hgone 2%positive ltac:(by_compute) eq_refl eq_refl)
    as (H2 & Husers & _).
  exists ir'. split_and!; [exact Hrun | exact H2 | ..];
    apply Husers; by_compute.
Defined.

Lemma erasure_leaves_no_dangling_use_witness :
  ∃ ir',
    BufferOptimizations.applyToOne lastUseFirst noForwarding 1 buffers_ir
    = Some (Success, [1%positive], ir') ∧
    BufferOptimizations.ResultsExist ir'.
Proof.
  exact (BufferOptimizationsProps.erasure_leaves_no_dangling_use
           lastUseFirst noForwarding 1 buffers_ir
           ltac:(by eexists) ltac:(by eexists) (lastUseFirst_complete _)
           buffers_ir_depth ltac:(by_compute) buffers_ir_verified
           buffers_ir_results_exist).
Defined.

(** The buffer [6] is loaded from by [8]: both stay.  The stack buffer
    [10] is not looked at. *)
Lemma only_written_buffers_are_erased_witness :
  ∃ ir',
    BufferOptimizations.applyToOne lastUseFirst noForwarding 1 buffers_ir
    = Some (Success, [1%positive], ir') ∧
    ops ir' !! 6%positive = ops buffers_ir !! 6%positive ∧
    ops ir' !! 8%positive = ops buffers_ir !! 8%positive ∧
    ops ir' !! 10%positive = ops buffers_ir !! 10%positive.
Proof.
  destruct (BufferOptimizationsProps.only_written_buffers_are_erased
              lastUseFirst noForwarding 1 buffers_ir
              ltac:(by eexists) ltac:(by eexists) (lastUseFirst_complete _)
              buffers_ir_depth ltac:(by_compute) buffers_ir_verified)
    as (ir' & Hrun & Hkept).
  exists ir'. split_and!; [exact Hrun | ..].
  - apply (Hkept 6%positive _ eq_refl). right. split; [done |]. by right.
  - apply (Hkept 8%positive _ eq_refl). left. by split.
  - apply (Hkept 10%positive _ eq_refl). left. by split.
Defined.

(** *** Bufferization *)

(** A buffer created before the store [4] of the sample loop body. *)
Lemma buffers_of_the_two_targets_witness :
  let ir := loop_ir (staticAlloc AllocOp) in
  let s := HoistAlloc.mkBuilder ir (Some (mkInsertPoint 200 (Some 4%positive)))
  in
  (∃ ir',
     (buffer ← Bufferize.cpuComprehensiveBufferizeAllocationFn
                 (mkMemRefType [2]%Z f32 (Some "strided") (Some "1")) [] 16;
      match buffer with
      | Some buffer => Bufferize.cpuComprehensiveBufferizeDeallocationFn buffer
      | None => mret failure
      end) s
     = Some (success, HoistAlloc.mkBuilder ir' (HoistAlloc.insertionPoint s)) ∧
     ops ir'
     = <[10%positive :=
           mkOperation
             (AllocLike AllocaOp
                (mkMemRefType [2]%Z f32 (Some "strided") (Some "1")) []
                (Some 16%Z))
             (Some 200%positive)]> (ops ir) ∧
     blockOps ir' 200 = [3; 10; 4; 5; 6]%positive) ∧
  (∃ d ir',
     (buffer ← Bufferize.gpuComprehensiveBufferizeAllocationFn
                 (mkMemRefType [2]%Z f32 (Some "strided") (Some "1")) [] 16;
      match buffer with
      | Some buffer => Bufferize.gpuComprehensiveBufferizeDeallocationFn buffer
      | None => mret failure
      end) s
     = Some (success, HoistAlloc.mkBuilder ir' (HoistAlloc.insertionPoint s)) ∧
     d ≠ 10%positive ∧ ops ir !! d = None ∧
     ops ir'
     = <[d := mkOperation (Dealloc (OpResult 10 0)) (Some 200%positive)]>
         (<[10%positive :=
              mkOperation
                (AllocLike AllocOp
                   (mkMemRefType [2]%Z f32 None
                      (Some Bufferize.workgroupAddressSpace))
                   [] (Some 16%Z))
                (Some 200%positive)]> (ops ir)) ∧
     blockOps ir' 200 = [3; 10; d; 4; 5; 6]%positive).
Proof.
  exact (BufferizeProps.buffers_of_the_two_targets
           (mkMemRefType [2]%Z f32 (Some "strided") (Some "1")) [] 16
           (loop_ir (staticAlloc AllocOp)) 200 [3%positive] 4
           [5; 6]%positive
           (mkOperation (Store (arg 1) (OpResult 3 0) [BlockArgument 200 0])
                        (Some 200%positive))
           eq_refl ltac:(by_compute) eq_refl).
Defined.

(** A copy from the buffer [2] of rank 2 to the buffer [6] of rank 1. *)
Lemma copy_that_cannot_be_generated_succeeds_witness :
  let s := HoistAlloc.mkBuilder buffers_ir None in
  let diagnostic :=
    Bufferize.UnableToGenerateCopy
      (Some (mkMemRefType [4; 8]%Z f32 None None))
      (Some (mkMemRefType [16]%Z f32 None None)) in
  Bufferize.createLinalgCopyOp typeOfAllocation bodilessGenericOp
    (OpResult 2 0) (OpResult 6 0) [] s
  = Some (([diagnostic], None), s) ∧
  Bufferize.cpuComprehensiveBufferizeCopyFn typeOfAllocation
    bodilessGenericOp (OpResult 2 0) (OpResult 6 0) s
  = Some (([diagnostic], success), s) ∧
  Bufferize.gpuComprehensiveBufferizeCopyFn typeOfAllocation
    bodilessGenericOp (OpResult 2 0) (OpResult 6 0) s
  = Some (([diagnostic], success), s).
Proof.
  apply (BufferizeProps.copy_that_cannot_be_generated_succeeds
           typeOfAllocation bodilessGenericOp (OpResult 2 0) (OpResult 6 0)
           (HoistAlloc.mkBuilder buffers_ir None)).
  intros typeFrom typeTo Hfrom Hto.
  vm_compute in Hfrom, Hto. injection Hfrom as <-. injection Hto as <-.
  by vm_compute.
Defined.

(** The function [2] of the sample module is no module. *)
Lemma bufferize_requires_single_module_witness :
  Bufferize.apply typeOfAllocation bodilessGenericOp failingBufferizeDriver
    idleBufferizer idlePassManager
    (Bufferize.mkTransformBufferizeOp false false false) function_state
    module_ir
  = Some (Bufferize.mkApplyResult
            (Bufferize.Diagnosed
               (DefiniteFailure 1
                  "requires exactly a single HAL::ExecutableOp or HAL::ExecutableVariantOp target op."))
            [] None module_ir).
Proof.
  apply BufferizeProps.bufferize_requires_single_module.
  right. exists 2%positive, (mkOperation (Func [[100%positive]])
                               (Some 50%positive)).
  by split_and!.
Defined.

(** On the sample module the driver fails, which is not read; the
    bufferizer succeeds; the walk meets the return and the function, which
    are no modules, and then the module itself, on which the pass manager
    fails: the op fails with the diagnostic that names the module. *)
Lemma bufferize_stages_witness :
  Bufferize.apply typeOfAllocation bodilessGenericOp failingBufferizeDriver
    idleBufferizer failingPassManager
    (Bufferize.mkTransformBufferizeOp true false false) module_state
    module_ir
  = Some (Bufferize.mkApplyResult Bufferize.definiteFailure
            [Bufferize.FailedPostBufferizationPasses 1 1] None module_ir).
Proof.
  destruct (BufferizeProps.bufferize_stages typeOfAllocation
              bodilessGenericOp failingBufferizeDriver idleBufferizer
              failingPassManager
              (Bufferize.mkTransformBufferizeOp true false false)
              module_state module_ir 1
              (mkOperation (Generic "builtin.module"
                              (mkTraits false true false) [] 0
                              [[50%positive]]) None)
              (mkOperation (Generic "builtin.module"
                              (mkTraits false true false) [] 0
                              [[50%positive]]) None)
              failure module_ir success module_ir
              eq_refl eq_refl eq_refl eq_refl eq_refl eq_refl)
    as (_ & _ & Hpost).
  destruct (Hpost eq_refl eq_refl ltac:(by eexists)) as (_ & Hfail & _).
  apply Hfail.
  exists [3; 2]%positive, [], module_ir,
    (mkOperation (Generic "builtin.module" (mkTraits false true false) [] 0
                    [[50%positive]]) None).
  split_and!; try reflexivity.
  apply Bufferize.passes_skip;
    [intros op Hop; vm_compute in Hop; by injection Hop as <- |].
  apply Bufferize.passes_skip;
    [intros op Hop; vm_compute in Hop; by injection Hop as <- |].
  constructor.
Defined.

(** *** The dictionary of bounds *)

Lemma sample_relation_fits : Nelli.BoundsFit sample_relation.
Proof.
  intros t i x Hi _ Hx. simpl in Hi.
  destruct t, i as [| [| [| i]]]; simpl in Hx; try done; simplify_eq; lia.
Qed.

(** Two variables of the sample relation carry [%arg0]: the entry is that
    of the last one. *)
Lemma bounds_from_relation_witness :
  ∃ bounds bound,
    Nelli.getBoundsFromRelation sample_relation = Some bounds ∧
    bounds !! arg 0 = Some bound ∧
    bound !! "LB" = Some None ∧
    bound !! "UB" = Some None ∧
    bound !! "EQ" = Some (Some 8%Z).
Proof.
  destruct (NelliProps.bounds_from_relation sample_relation
              sample_relation_fits) as (bounds & Hrun & Hkeys & Hentries).
  destruct (proj2 (Hkeys (arg 0))) as [bound Hbound];
    [exists 2; split_and!; [simpl; lia | done | done] |].
  destruct (Hentries (arg 0) bound Hbound)
    as (i & Hi & Hiv & _ & HLB & HUB & HEQ & _ & Hlast).
  assert (i = 2) as ->.
  { simpl in Hi. destruct (decide (i = 2)) as [-> | Hne]; [done |].
    exfalso. apply (Hlast 2); [simpl; lia | done | done]. }
  by exists bounds, bound.
Defined.

(** *** The fusion gate *)

(** The gate answers alike on [ir_1_3] and on the payload whose consumer
    lists the same inputs in another order, one of them twice. *)
Lemma gate_counts_distinct_values_witness :
  FusionGate.setFusedOpOperandLimit 3 ir_1_3 fusedOperand
  = FusionGate.setFusedOpOperandLimit 3 ir_1_3_shuffled (mkOpOperand 3 1).
Proof.
  apply (FusionGateSetProps.gate_counts_distinct_values 3 ir_1_3
           ir_1_3_shuffled fusedOperand (mkOpOperand 3 1) producerResult
           producerResult 2
           (mkOperation (Linalg [arg 0] [arg 7] 1 []) (Some 100%positive))
           (mkOperation (Linalg [arg 0] [arg 7] 1 []) (Some 100%positive))
           (mkOperation (Linalg [producerResult; arg 1; arg 2] [arg 8] 1 [])
                        (Some 100%positive))
           (mkOperation
              (Linalg [arg 2; producerResult; arg 1; arg 2] [arg 8] 1 [])
              (Some 100%positive)));
    reflexivity.
Defined.

End MoreInstances.
